(** * Chitro recorder backend: cache, upload coordination and reconciliation

    A shallow embedding of the Motia steps under [src/recorder] and of the
    two services they call ([S3Service], [VideoService]) together with the
    [db] helper.  The handlers are [async] functions that talk to four
    outside systems (Postgres, the object storage, the Motia state store and
    the event bus); here they are computations in a state-and-exception
    monad over a [World] that holds the contents of those systems.

    Timestamps are kept as integers (milliseconds); their ISO rendering
    ([toISOString]) is not modelled.  Numbers are integers ([Z]). *)

From Stdlib Require Import ZArith Lia Ascii.
From stdpp Require Import gmap strings list fin_maps pretty sorting.

Local Open Scope Z_scope.
Local Open Scope string_scope.
Local Open Scope list_scope.

(** ** Data *)

(** A row of the [videos] table, columns as in [ensureVideoTable]. *)
Module Row.
Record t := mk {
  id : string;
  filename : string;
  content_type : string;
  size : Z;
  created_at : Z;
  s3_key : string;
  public_url : string;
}.
End Row.

(** [interface VideoMetadata] of s3-service.ts. *)
Module VideoMetadata.
Record t := mk {
  id : string;
  filename : string;
  contentType : string;
  size : Z;
  createdAt : Z;
  s3Key : string;
  s3Url : string;
}.
End VideoMetadata.

(** The value cached under [upload-urls] by the GetUploadUrl step. *)
Module UploadUrlInfo.
Record t := mk {
  uploadUrl : string;
  videoId : string;
  s3Key : string;
  filename : string;
  contentType : string;
  createdAt : Z;
}.
End UploadUrlInfo.

(** Values held by the Motia state store.  The store is untyped: any group
    may hold any value, the type argument of [state.get<T>] is erased. *)
Inductive StateVal :=
| VVideo (v : VideoMetadata.t)
| VList (videos : list VideoMetadata.t) (count : Z)
| VUploadUrl (u : UploadUrlInfo.t)
| VBool (b : bool).

(** JavaScript truthiness of a stored value (objects are truthy). *)
Definition truthy (v : StateVal) : bool :=
  match v with
  | VBool b => b
  | _ => true
  end.

(** Event payloads, one constructor per topic. *)
Inductive Event :=
| VideoUploaded (videoId s3Key filename contentType : string) (size : Z) (publicUrl : string)
| VideoUploadInitiated (videoId s3Key filename contentType : string) (size : Z)
| VideoDeleted (videoId s3Key filename : string).

Definition topic (e : Event) : string :=
  match e with
  | VideoUploaded _ _ _ _ _ _ => "video-uploaded"
  | VideoUploadInitiated _ _ _ _ _ => "video-upload-initiated"
  | VideoDeleted _ _ _ => "video-deleted"
  end.

(** The SQL statements the code sends, with their parameters. *)
Inductive Sql :=
| CreateTable
| AlterAddPublicUrl
| BackfillPublicUrl
| Upsert (videoId filename contentType : string) (size : Z) (s3Key finalPublicUrl : string)
| SelectById (videoId : string)
| SelectRecent (limit : option Z)
| DeleteById (videoId : string).

(** The S3 commands the code builds. *)
Inductive Command := PutObjectCommand | GetObjectCommand | HeadObjectCommand.

(** Kinds of outside calls that can throw. *)
Inductive Op :=
| OpQuery
| OpS3Put
| OpS3Head
| OpS3Sign
| OpStateGet
| OpStateSet
| OpStateDelete
| OpStateClear
| OpStateGetGroup
| OpEmit.

(** Every outside call, in the order it was attempted, with whether it
    went through. *)
Inductive Call :=
| CQuery (q : Sql)
| CS3Put (key : string)
| CS3Head (key : string)
| CS3Sign (key : string)
| CStateGet (group key : string)
| CStateSet (group key : string) (v : StateVal)
| CStateDelete (group key : string)
| CStateClear (group : string)
| CStateGetGroup (group : string)
| CEmit (e : Event).

Inductive Level := LInfo | LWarn | LError.

(** What the program cannot decide: which outside call fails (and with which
    [Error.message]), what the clocks read, which ids [randomUUID] draws and
    which URL the signer produces.  All are indexed by the number of outside
    interactions made so far.  The process environment ([S3_PUBLIC_URL],
    [S3_USE_PRESIGNED]) and the decoder behind [Buffer.from(_, 'base64')]
    are fixed per run. *)
Record Env := {
  fails : Op → nat → option string;
  clock : nat → Z;
  randomUUID : nat → string;
  getSignedUrl : Command → string → Z → nat → string;
  base64 : string → list Byte.byte;
  publicUrlBase : string;
  usePresigned : bool;
}.

Record World := mkWorld {
  env : Env;
  tick : nat;
  initialized : bool;
  table : gmap string Row.t;
  bucket : gmap string (list Byte.byte * string);
  cache : gmap string (gmap string StateVal);
  emitted : list Event;
  calls : list (Call * bool);
  logs : list (Level * string);
}.

Definition set_tick (n : nat) (w : World) : World :=
  mkWorld (env w) n (initialized w) (table w) (bucket w) (cache w) (emitted w) (calls w) (logs w).
Definition set_initialized (b : bool) (w : World) : World :=
  mkWorld (env w) (tick w) b (table w) (bucket w) (cache w) (emitted w) (calls w) (logs w).
Definition set_table (t : gmap string Row.t) (w : World) : World :=
  mkWorld (env w) (tick w) (initialized w) t (bucket w) (cache w) (emitted w) (calls w) (logs w).
Definition set_bucket (b : gmap string (list Byte.byte * string)) (w : World) : World :=
  mkWorld (env w) (tick w) (initialized w) (table w) b (cache w) (emitted w) (calls w) (logs w).
Definition set_cache (c : gmap string (gmap string StateVal)) (w : World) : World :=
  mkWorld (env w) (tick w) (initialized w) (table w) (bucket w) c (emitted w) (calls w) (logs w).
Definition set_emitted (e : list Event) (w : World) : World :=
  mkWorld (env w) (tick w) (initialized w) (table w) (bucket w) (cache w) e (calls w) (logs w).
Definition set_calls (c : list (Call * bool)) (w : World) : World :=
  mkWorld (env w) (tick w) (initialized w) (table w) (bucket w) (cache w) (emitted w) c (logs w).
Definition set_logs (l : list (Level * string)) (w : World) : World :=
  mkWorld (env w) (tick w) (initialized w) (table w) (bucket w) (cache w) (emitted w) (calls w) l.

(** ** The monad of handlers *)

(** A computation either returns or throws an [Error] carrying a message;
    either way the world it leaves behind is kept (nothing is rolled
    back). *)
Inductive Result (A : Type) :=
| Ok (a : A)
| Throw (message : string).
Arguments Ok {A} a.
Arguments Throw {A} message.

Definition M (A : Type) : Type := World → Result A * World.

Definition ret {A} (a : A) : M A := λ w, (Ok a, w).

Definition bind {A B} (m : M A) (k : A → M B) : M B :=
  λ w, match m w with
       | (Ok a, w') => k a w'
       | (Throw e, w') => (Throw e, w')
       end.

#[export] Instance M_ret : MRet M := @ret.
#[export] Instance M_bind : MBind M := λ A B k m, bind m k.

Definition throw {A} (message : string) : M A := λ w, (Throw message, w).

(** [try { m } catch (error) { h error }] *)
Definition try_catch {A} (m : M A) (h : string → M A) : M A :=
  λ w, match m w with
       | (Ok a, w') => (Ok a, w')
       | (Throw e, w') => h e w'
       end.

(** [try { m } finally { f }] is not needed: [client.release()] in [query]
    touches the connection pool only. *)

Definition get_world : M World := λ w, (Ok w, w).
Definition modify (f : World → World) : M unit := λ w, (Ok tt, f w).

(** One outside interaction: returns its sequence number. *)
Definition next_tick : M nat :=
  λ w, (Ok (tick w), set_tick (S (tick w)) w).

Definition record_call (c : Call) (ok : bool) : M unit :=
  modify (λ w, set_calls (calls w ++ [(c, ok)]) w).

(** An outside call of kind [op]: consult the fault plan, note the call,
    and either throw or run [effect]. *)
Definition outside {A} (op : Op) (c : Call) (effect : nat → M A) : M A :=
  n ← next_tick;
  w ← get_world;
  match fails (env w) op n with
  | Some message => record_call c false ;; throw message
  | None => record_call c true ;; effect n
  end.

(** [Date.now()], [new Date()] *)
Definition now : M Z :=
  n ← next_tick;
  w ← get_world;
  mret (clock (env w) n).

(** [logger.info/warn/error] and [console.log/warn/error]; the structured
    payload is dropped. *)
Definition log (l : Level) (message : string) : M unit :=
  modify (λ w, set_logs (logs w ++ [(l, message)]) w).

(** [a || b] on strings that may be [undefined]. *)
Definition or_else (a : option string) (b : string) : string :=
  match a with
  | Some s => if decide (s = "") then b else s
  | None => b
  end.

(** [filename.split('.').pop()]: the text after the last dot, the whole
    name when it has none. *)
Fixpoint after_last_dot (s acc : string) : string :=
  match s with
  | EmptyString => acc
  | String c s' =>
      if decide (c = "."%char) then after_last_dot s' ""
      else after_last_dot s' (acc +:+ String c "")
  end.

Definition extension_of (filename : string) : string :=
  or_else (Some (after_last_dot filename "")) "webm".

(** ** db.ts *)
Module Db.

(** [ORDER BY created_at DESC]; rows with equal timestamps come in the
    order the sort leaves them. *)
Definition newer_first (a b : Row.t) : Prop :=
  (Row.created_at b ≤ Row.created_at a)%Z.

#[export] Instance newer_first_dec : RelDecision newer_first.
Proof. intros a b. unfold newer_first. apply _. Defined.

Definition rows_of (t : gmap string Row.t) : list Row.t := (map_to_list t).*2.

(** What Postgres does with a statement; [current] is the server's
    [NOW()].  The primary key on [id] is the key of the map. *)
Definition run (current : Z) (q : Sql) (t : gmap string Row.t)
  : Result (list Row.t * gmap string Row.t) :=
  match q with
  | CreateTable | AlterAddPublicUrl | BackfillPublicUrl => Ok ([], t)
  | Upsert videoId filename contentType size s3Key finalPublicUrl =>
      match t !! videoId with
      | Some old =>
          Ok ([], <[videoId :=
                     Row.mk (Row.id old) (Row.filename old) (Row.content_type old)
                            (Row.size old) (Row.created_at old) (Row.s3_key old)
                            finalPublicUrl]> t)
      | None =>
          Ok ([], <[videoId :=
                     Row.mk videoId filename contentType size current s3Key
                            finalPublicUrl]> t)
      end
  | SelectById videoId => Ok (option_list (t !! videoId), t)
  | SelectRecent limit =>
      match limit with
      | None => Throw "invalid input syntax for type bigint: NaN"
      | Some n =>
          if decide (n < 0)%Z then Throw "LIMIT must not be negative"
          else Ok (take (Z.to_nat n) (merge_sort newer_first (rows_of t)), t)
      end
  | DeleteById videoId => Ok (option_list (t !! videoId), delete videoId t)
  end.

Definition query (q : Sql) : M (list Row.t) :=
  n ← next_tick;
  w ← get_world;
  match fails (env w) OpQuery n with
  | Some message => record_call (CQuery q) false ;; throw message
  | None =>
      match run (clock (env w) n) q (table w) with
      | Ok (rows, t') =>
          record_call (CQuery q) true ;; modify (set_table t') ;; mret rows
      | Throw message => record_call (CQuery q) false ;; throw message
      end
  end.

Definition ensureVideoTable : M unit :=
  w ← get_world;
  if initialized w then mret tt
  else
    modify (set_initialized true) ;;
    query CreateTable ;;
    try_catch (query AlterAddPublicUrl ;; mret tt)
              (λ message, log LInfo "[db] public_url column check:") ;;
    query BackfillPublicUrl ;;
    mret tt.

End Db.

(** ** services/s3-service.ts *)
Module S3Service.

Definition uuid : M string :=
  n ← next_tick;
  w ← get_world;
  mret (randomUUID (env w) n).

Definition sign (c : Command) (key : string) (expiresIn : Z) : M string :=
  outside OpS3Sign (CS3Sign key)
          (λ n, w ← get_world; mret (getSignedUrl (env w) c key expiresIn n)).

Definition uploadVideo (buffer : list Byte.byte) (filename contentType : string)
  : M (string * string * string) :=
  videoId ← uuid;
  let extension := extension_of filename in
  let s3Key := "videos/" +:+ videoId +:+ "." +:+ extension in
  log LInfo "[S3Service] Uploading video to Sevalla" ;;
  outside OpS3Put (CS3Put s3Key)
          (λ _, modify (λ w, set_bucket (<[s3Key := (buffer, contentType)]> (bucket w)) w)) ;;
  log LInfo "[S3Service] Uploaded file to S3 with key" ;;
  signedUrl ← sign GetObjectCommand s3Key 3600;
  log LInfo "[S3Service] Generated signed URL" ;;
  w ← get_world;
  let publicUrl := publicUrlBase (env w) +:+ "/" +:+ s3Key in
  log LInfo "[S3Service] Public URL" ;;
  mret (videoId, s3Key, publicUrl).

Definition generateUploadUrl (filename contentType : string)
  : M (string * string * string) :=
  videoId ← uuid;
  let extension := extension_of filename in
  let s3Key := "videos/" +:+ videoId +:+ "." +:+ extension in
  log LInfo "[S3Service] Generating upload URL" ;;
  uploadedAt ← now;
  uploadUrl ← sign PutObjectCommand s3Key 3600;
  log LInfo "[S3Service] Upload URL generated" ;;
  mret (uploadUrl, videoId, s3Key).

Definition generatePublicUrl (s3Key : string) : M string :=
  w ← get_world;
  if usePresigned (env w) then
    publicUrl ← sign GetObjectCommand s3Key 604800;
    log LInfo "[S3Service] Generated presigned public URL" ;;
    mret publicUrl
  else
    let publicUrl := publicUrlBase (env w) +:+ "/" +:+ s3Key in
    log LInfo "[S3Service] Generated public URL (Sevalla domain)" ;;
    mret publicUrl.

(** A HEAD request on a missing key throws [NotFound]; every error is
    caught and answered with [false]. *)
Definition verifyObjectExists (s3Key : string) : M bool :=
  try_catch
    (outside OpS3Head (CS3Head s3Key)
             (λ _, w ← get_world;
                   match bucket w !! s3Key with
                   | Some _ => mret tt
                   | None => throw "NotFound"
                   end) ;;
     log LInfo "[S3Service] Object verified to exist" ;;
     mret true)
    (λ message,
       if decide (message = "NotFound") then
         log LWarn "[S3Service] Object not found" ;; mret false
       else
         log LError "[S3Service] Error verifying object" ;; mret false).

End S3Service.

(** ** services/video-service.ts *)
Module VideoService.

Definition of_row (row : Row.t) : VideoMetadata.t :=
  VideoMetadata.mk (Row.id row) (Row.filename row) (Row.content_type row)
                   (Row.size row) (Row.created_at row) (Row.s3_key row)
                   (Row.public_url row).

Definition createVideoMetadata (videoId filename contentType : string) (size : Z)
           (s3Key : string) (publicUrl : option string) : M VideoMetadata.t :=
  Db.ensureVideoTable ;;
  finalPublicUrl ←
    match publicUrl with
    | Some u => if decide (u = "") then S3Service.generatePublicUrl s3Key else mret u
    | None => S3Service.generatePublicUrl s3Key
    end;
  Db.query (Upsert videoId filename contentType size s3Key finalPublicUrl) ;;
  createdAt ← now;
  mret (VideoMetadata.mk videoId filename contentType size createdAt s3Key finalPublicUrl).

Definition getVideoMetadata (videoId : string) : M (option VideoMetadata.t) :=
  Db.ensureVideoTable ;;
  rows ← Db.query (SelectById videoId);
  match rows with
  | [] => mret None
  | row :: _ => mret (Some (of_row row))
  end.

Definition listVideos (limit : option Z) : M (list VideoMetadata.t) :=
  Db.ensureVideoTable ;;
  rows ← Db.query (SelectRecent limit);
  mret (of_row <$> rows).

Definition deleteVideo (videoId : string) : M bool :=
  Db.ensureVideoTable ;;
  rows ← Db.query (DeleteById videoId);
  mret (0 <? length rows)%nat.

End VideoService.

(** ** The Motia state store ([state] of the handler context) *)
Module State.

Definition get (group key : string) : M (option StateVal) :=
  outside OpStateGet (CStateGet group key)
          (λ _, w ← get_world; mret (cache w !! group ≫= (.!! key))).

Definition set (group key : string) (v : StateVal) : M unit :=
  outside OpStateSet (CStateSet group key v)
          (λ _, modify (λ w,
             set_cache (<[group := <[key := v]> (default ∅ (cache w !! group))]> (cache w)) w)).

Definition delete (group key : string) : M unit :=
  outside OpStateDelete (CStateDelete group key)
          (λ _, modify (λ w, set_cache (alter (base.delete key) group (cache w)) w)).

Definition clear (group : string) : M unit :=
  outside OpStateClear (CStateClear group)
          (λ _, modify (λ w, set_cache (base.delete group (cache w)) w)).

Definition getGroup (group : string) : M (list StateVal) :=
  outside OpStateGetGroup (CStateGetGroup group)
          (λ _, w ← get_world; mret ((map_to_list (default ∅ (cache w !! group))).*2)).

End State.

(** [emit({ topic, data })] *)
Definition emit (e : Event) : M unit :=
  outside OpEmit (CEmit e) (λ _, modify (λ w, set_emitted (emitted w ++ [e]) w)).

(** ** HTTP responses *)
Inductive Body :=
| BError (error : string)
| BInvalidFormat (error receivedType : string)
| BVideo (v : VideoMetadata.t)
| BState (v : StateVal)
| BUploaded (videoId s3Key publicUrl message : string)
| BUploadUrl (uploadUrl videoId s3Key : string)
| BDeleted (message videoId : string).

Record Response := mkResponse { status : Z; body : Body }.

(** ** [parseInt(s, 10)] and number rendering

    Exact on integers; JavaScript's doubles lose precision beyond 2^53. *)
Definition is_space (c : ascii) : bool :=
  bool_decide (c = " "%char ∨ c = "009"%char ∨ c = "010"%char ∨ c = "011"%char
               ∨ c = "012"%char ∨ c = "013"%char).

Definition digit_of (c : ascii) : option Z :=
  let n := Z.of_nat (nat_of_ascii c) in
  if decide (48 ≤ n ≤ 57)%Z then Some (n - 48)%Z else None.

Fixpoint skip_spaces (s : string) : string :=
  match s with
  | String c s' => if is_space c then skip_spaces s' else s
  | EmptyString => s
  end.

Fixpoint digits (s : string) (acc : option Z) : option Z :=
  match s with
  | String c s' =>
      match digit_of c with
      | Some d => digits s' (Some (10 * default 0 acc + d)%Z)
      | None => acc
      end
  | EmptyString => acc
  end.

(** [None] is [NaN]. *)
Definition parseInt (s : string) : option Z :=
  match skip_spaces s with
  | String c s' =>
      if decide (c = "-"%char) then Z.opp <$> digits s' None
      else if decide (c = "+"%char) then digits s' None
      else digits (String c s') None
  | EmptyString => None
  end.

Definition show_number (n : option Z) : string :=
  match n with
  | Some z => pretty z
  | None => "NaN"
  end.

(** ** src/recorder/get-video.step.ts *)
Module GetVideo.

Definition handler (videoId : string) : M Response :=
  try_catch
    (log LInfo "Getting video" ;;
     video ← VideoService.getVideoMetadata videoId;
     match video with
     | None => mret (mkResponse 404 (BError "Video not found"))
     | Some v => mret (mkResponse 200 (BVideo v))
     end)
    (λ message,
       log LError "Error getting video" ;;
       mret (mkResponse 500 (BError message))).

End GetVideo.

(** ** src/recorder/list-videos.step.ts *)
Module ListVideos.

(** A query parameter is a string or an array of strings. *)
Inductive QueryParam := QString (s : string) | QArray (l : list string).

Definition limit_of (limitParam : option QueryParam) : option Z :=
  match limitParam with
  | None => Some 50%Z
  | Some (QString s) => if decide (s = "") then Some 50%Z else parseInt s
  | Some (QArray []) => None
  | Some (QArray (s :: _)) => parseInt s
  end.

Definition handler (limitParam : option QueryParam) : M Response :=
  try_catch
    (let limit := limit_of limitParam in
     log LInfo "Listing videos" ;;
     let cacheKey := "list:" +:+ show_number limit in
     cachedResult ← State.get "video-lists" cacheKey;
     let miss :=
       videos ← VideoService.listVideos limit;
       let result := VList videos (Z.of_nat (length videos)) in
       State.set "video-lists" cacheKey result ;;
       mret (mkResponse 200 (BState result)) in
     match cachedResult with
     | Some v =>
         if truthy v then
           log LInfo "Video list retrieved from cache" ;;
           mret (mkResponse 200 (BState v))
         else miss
     | None => miss
     end)
    (λ message,
       log LError "Error listing videos" ;;
       mret (mkResponse 500 (BError message))).

End ListVideos.

(** ** src/recorder/upload-video.step.ts *)
Module UploadVideo.

(** What [req.body] can be: a [Buffer] (raw upload), an object (parsed
    JSON; [video] is set when the key is present and holds a string), or
    anything else, of which only [typeof] is reported. *)
Inductive ReqBody :=
| BodyBuffer (b : list Byte.byte)
| BodyObject (video filename contentType : option string)
| BodyOther (typeof : string).

(** [req.file] as set by multer. *)
Record File := mkFile {
  buffer : list Byte.byte;
  originalname : string;
  mimetype : string;
}.

Record Request := mkRequest {
  x_filename : option string;
  content_type : option string;
  req_body : ReqBody;
  file : option File;
}.

(** [name || `chitro-recording-${Date.now()}.webm`]: the clock is read
    only when the name is missing. *)
Definition filename_or_default (name : option string) : M string :=
  match name with
  | Some s =>
      if decide (s = "") then
        t ← now; mret ("chitro-recording-" +:+ pretty t +:+ ".webm")
      else mret s
  | None => t ← now; mret ("chitro-recording-" +:+ pretty t +:+ ".webm")
  end.

Definition typeof_body (b : ReqBody) : string :=
  match b with
  | BodyBuffer _ | BodyObject _ _ _ => "object"
  | BodyOther t => t
  end.

(** The three accepted body formats, tried in order; [None] is the
    unknown format. *)
Definition read_video (req : Request) : M (option (list Byte.byte * string * string)) :=
  match req_body req, file req with
  | BodyBuffer b, _ =>
      log LInfo "Body is Buffer (raw binary)" ;;
      filename ← filename_or_default (x_filename req);
      mret (Some (b, filename, or_else (content_type req) "video/webm"))
  | _, Some f =>
      log LInfo "File received via multer" ;;
      filename ← filename_or_default (Some (originalname f));
      mret (Some (buffer f, filename, or_else (Some (mimetype f)) "video/webm"))
  | BodyObject (Some video) name contentType, None =>
      log LInfo "Body is JSON with base64 video" ;;
      w ← get_world;
      let videoBuffer := base64 (env w) video in
      filename ← filename_or_default name;
      mret (Some (videoBuffer, filename, or_else contentType "video/webm"))
  | _, None =>
      log LWarn "Unknown body format" ;;
      mret None
  end.

Definition handler (req : Request) : M Response :=
  try_catch
    (log LInfo "Uploading video to Sevalla" ;;
     parsed ← read_video req;
     match parsed with
     | None =>
         mret (mkResponse 400
                 (BInvalidFormat
                    "Invalid request body format. Expected FormData with video file, binary data, or JSON with video field."
                    (typeof_body (req_body req))))
     | Some (videoBuffer, filename, contentType) =>
         if decide (length videoBuffer = 0%nat) then
           mret (mkResponse 400 (BError "Video file is empty"))
         else
           '(videoId, s3Key, publicUrl) ←
             S3Service.uploadVideo videoBuffer filename contentType;
           let size := Z.of_nat (length videoBuffer) in
           VideoService.createVideoMetadata videoId filename contentType size s3Key
                                            (Some publicUrl) ;;
           createdAt ← now;
           State.set "videos" videoId
                     (VVideo (VideoMetadata.mk videoId filename contentType size
                                               createdAt s3Key publicUrl)) ;;
           State.clear "video-lists" ;;
           emit (VideoUploaded videoId s3Key filename contentType size publicUrl) ;;
           log LInfo "Video uploaded successfully" ;;
           mret (mkResponse 200
                   (BUploaded videoId s3Key publicUrl "Video uploaded successfully"))
     end)
    (λ message,
       log LError "Error uploading video" ;;
       mret (mkResponse 500 (BError message))).

End UploadVideo.

(** ** src/recorder/get-upload-url.step.ts *)
Module GetUploadUrl.

(** The body after schema validation: [contentType] has its default
    filled in, [size] is optional. *)
Record Request := mkRequest {
  filename : string;
  contentType : string;
  size : option Z;
}.

(** [size || 0] *)
Definition size_or_zero (size : option Z) : Z := default 0%Z size.

Definition handler (req : Request) : M Response :=
  try_catch
    (log LInfo "Generating upload URL" ;;
     '(uploadUrl, videoId, s3Key) ←
       S3Service.generateUploadUrl (filename req) (contentType req);
     VideoService.createVideoMetadata videoId (filename req) (contentType req)
                                      (size_or_zero (size req)) s3Key None ;;
     createdAt ← now;
     State.set "upload-urls" videoId
               (VUploadUrl (UploadUrlInfo.mk uploadUrl videoId s3Key (filename req)
                                             (contentType req) createdAt)) ;;
     emit (VideoUploadInitiated videoId s3Key (filename req) (contentType req)
                                (size_or_zero (size req))) ;;
     log LInfo "Upload URL generated" ;;
     mret (mkResponse 200 (BUploadUrl uploadUrl videoId s3Key)))
    (λ message,
       log LError "Error generating upload URL" ;;
       mret (mkResponse 500 (BError message))).

End GetUploadUrl.

(** ** src/recorder/delete-video.step.ts *)
Module DeleteVideo.

Definition handler (videoId : string) : M Response :=
  try_catch
    (log LInfo "Deleting video" ;;
     video ← VideoService.getVideoMetadata videoId;
     match video with
     | None => mret (mkResponse 404 (BError "Video not found"))
     | Some v =>
         deleted ← VideoService.deleteVideo videoId;
         if negb deleted then mret (mkResponse 404 (BError "Video not found"))
         else
           State.delete "videos" videoId ;;
           State.clear "video-lists" ;;
           emit (VideoDeleted videoId (VideoMetadata.s3Key v) (VideoMetadata.filename v)) ;;
           log LInfo "Video deleted successfully" ;;
           mret (mkResponse 200 (BDeleted "Video deleted successfully" videoId))
     end)
    (λ message,
       log LError "Error deleting video" ;;
       mret (mkResponse 500 (BError message))).

End DeleteVideo.

(** ** The ProcessVideoUpload event step *)
Module ProcessVideoUpload.

Record Input := mkInput {
  videoId : string;
  s3Key : string;
  filename : string;
  contentType : string;
  size : Z;
  publicUrl : string;
}.

Definition handler (input : Input) : M unit :=
  try_catch
    (log LInfo "Processing video upload event" ;;
     let verificationCacheKey := "s3-verify:" +:+ s3Key input in
     cachedVerification ← State.get "s3-verifications" verificationCacheKey;
     '(exists_, wasCached) ←
       match cachedVerification with
       | Some v =>
           log LInfo "S3 verification retrieved from cache" ;;
           mret (truthy v, true)
       | None =>
           found ← S3Service.verifyObjectExists (s3Key input);
           (if (found : bool)
            then State.set "s3-verifications" verificationCacheKey (VBool true)
            else ret tt) ;;
           mret (found, false)
       end;
     (if negb exists_ then log LWarn "Video object not found in S3"
      else log LInfo "Video object verified in S3") ;;
     VideoService.createVideoMetadata (videoId input) (filename input) (contentType input)
                                      (size input) (s3Key input) (Some (publicUrl input)) ;;
     createdAt ← now;
     State.set "videos" (videoId input)
               (VVideo (VideoMetadata.mk (videoId input) (filename input)
                                         (contentType input) (size input) createdAt
                                         (s3Key input) (publicUrl input))) ;;
     allCachedLists ← State.getGroup "video-lists";
     State.clear "video-lists" ;;
     log LInfo "Video upload processed successfully")
    (λ message, log LError "Error processing video upload").

End ProcessVideoUpload.

(** ** src/recorder/cache-cleanup-cron.step.ts *)
Module CacheCleanupJob.

Definition handler : M unit :=
  try_catch
    (log LInfo "Starting cache cleanup job" ;;
     cachedVideos ← State.getGroup "videos";
     log LInfo "Found cached videos" ;;
     cachedLists ← State.getGroup "video-lists";
     log LInfo "Found cached video lists" ;;
     timestamp ← now;
     log LInfo "Cache cleanup completed" ;;
     uploadUrls ← State.getGroup "upload-urls";
     if (0 <? length uploadUrls)%nat then
       log LInfo "Cleaning up expired upload URL caches"
     else ret tt)
    (λ message, log LError "Error in cache cleanup job").

End CacheCleanupJob.

(** ** motia.config.ts: the Express route [POST /api/recorder/upload]

    The route bypasses Motia: it has neither the state store nor the event
    bus.  The request is taken after [express.raw] has read the body into a
    [Buffer]; requests whose content type the parser skips are not
    modelled. *)
Module ExpressUpload.

Record Request := mkRequest {
  x_filename : option string;
  content_type : option string;
  body : list Byte.byte;
}.

Definition handler (req : Request) : M Response :=
  try_catch
    (filename ← UploadVideo.filename_or_default (x_filename req);
     let contentType := or_else (content_type req) "video/webm" in
     if decide (length (body req) = 0%nat) then
       mret (mkResponse 400 (BError "Video file is empty"))
     else
       log LInfo "[Upload] Processing video upload" ;;
       '(videoId, s3Key, publicUrl) ←
         S3Service.uploadVideo (body req) filename contentType;
       VideoService.createVideoMetadata videoId filename contentType
                                        (Z.of_nat (length (body req))) s3Key
                                        (Some publicUrl) ;;
       log LInfo "[Upload] Video uploaded successfully" ;;
       mret (mkResponse 200
               (BUploaded videoId s3Key publicUrl "Video uploaded successfully")))
    (λ message,
       log LError "[Upload] Error uploading video" ;;
       mret (mkResponse 500 (BError message))).

End ExpressUpload.

(** ** The system: any interleaving of whole handler runs *)
Inductive Step :=
| DoGetVideo (videoId : string)
| DoListVideos (limitParam : option ListVideos.QueryParam)
| DoUploadVideo (req : UploadVideo.Request)
| DoGetUploadUrl (req : GetUploadUrl.Request)
| DoDeleteVideo (videoId : string)
| DoProcessVideoUpload (input : ProcessVideoUpload.Input)
| DoCacheCleanupJob.

Definition run_step (s : Step) (w : World) : World :=
  match s with
  | DoGetVideo videoId => (GetVideo.handler videoId w).2
  | DoListVideos limitParam => (ListVideos.handler limitParam w).2
  | DoUploadVideo req => (UploadVideo.handler req w).2
  | DoGetUploadUrl req => (GetUploadUrl.handler req w).2
  | DoDeleteVideo videoId => (DeleteVideo.handler videoId w).2
  | DoProcessVideoUpload input => (ProcessVideoUpload.handler input w).2
  | DoCacheCleanupJob => (CacheCleanupJob.handler w).2
  end.

Definition run_steps (l : list Step) (w : World) : World := foldl (λ w s, run_step s w) w l.

(** A freshly started process: nothing stored anywhere. *)
Definition boot (e : Env) : World := mkWorld e 0 false ∅ ∅ ∅ [] [] [].

(** ** Pre- and postconditions for handler code *)

(** [hoare P m Q E]: from a world in [P], [m] ends in [Q] when it returns
    and in [E] when it throws. *)
Definition hoare {A} (P : World → Prop) (m : M A)
           (Q : A → World → Prop) (E : string → World → Prop) : Prop :=
  ∀ w, P w →
       match m w with
       | (Ok a, w') => Q a w'
       | (Throw e, w') => E e w'
       end.

(** [m] keeps [P] whether it returns or throws. *)
Definition preserves {A} (P : World → Prop) (m : M A) : Prop :=
  hoare P m (λ _, P) (λ _, P).

(** Calls on the Motia state store, and those among them that write. *)
Definition is_state_call (c : Call) : Prop :=
  match c with
  | CStateGet _ _ | CStateSet _ _ _ | CStateDelete _ _ | CStateClear _
  | CStateGetGroup _ => True
  | _ => False
  end.

Definition is_state_write (c : Call) : Prop :=
  match c with
  | CStateSet _ _ _ | CStateDelete _ _ | CStateClear _ => True
  | _ => False
  end.

(** Predicates that do not look at the sequence number or the log, and
    that stand when a call in [allowed] is added to the call record. *)
Record Bookkeeping (allowed : Call * bool → Prop) (P : World → Prop) : Prop := {
  bk_tick : ∀ w n, P w → P (set_tick n w);
  bk_calls : ∀ w c, allowed c → P w → P (set_calls (calls w ++ [c]) w);
  bk_logs : ∀ w l, P w → P (set_logs l w);
}.

Definition any_call : Call * bool → Prop := λ _, True.

(** [allowed] has every call that is not on the state store. *)
Definition allows_quiet (allowed : Call * bool → Prop) : Prop :=
  ∀ c ok, ¬ is_state_call c → allowed (c, ok).

(** The arguments of one [createVideoMetadata] call. *)
Record UpsertArgs := mkUpsertArgs {
  ua_videoId : string;
  ua_filename : string;
  ua_contentType : string;
  ua_size : Z;
  ua_s3Key : string;
  ua_publicUrl : option string;
}.

Definition upsert (a : UpsertArgs) : M VideoMetadata.t :=
  VideoService.createVideoMetadata (ua_videoId a) (ua_filename a) (ua_contentType a)
                                   (ua_size a) (ua_s3Key a) (ua_publicUrl a).

(** A row with its [public_url] replaced, as [DO UPDATE SET public_url]
    leaves it. *)
Definition with_public_url (url : string) (r : Row.t) : Row.t :=
  Row.mk (Row.id r) (Row.filename r) (Row.content_type r) (Row.size r)
         (Row.created_at r) (Row.s3_key r) url.

(** A run of upserts, whatever each of them does. *)
Definition upserts (l : list UpsertArgs) (w : World) : World :=
  foldl (λ w a, (upsert a w).2) w l.

(** The row stored under [videoId] is [old] up to its [public_url]. *)
Definition row_frame (videoId : string) (old : Row.t) (w : World) : Prop :=
  ∃ url, table w !! videoId = Some (with_public_url url old).

(** The records stored under a primary key. *)
Definition records_for (videoId : string) (t : gmap string Row.t) : list (string * Row.t) :=
  filter (λ kv, kv.1 = videoId) (map_to_list t).

(** The [s3-verifications] group holds nothing but [true]. *)
Definition only_true_verifications (w : World) : Prop :=
  ∀ key v, cache w !! "s3-verifications" ≫= (.!! key) = Some v → v = VBool true.

(** The bytes a direct-upload request carries, by the format the handler
    recognises; [None] for the unknown format. *)
Definition payload_of (e : Env) (req : UploadVideo.Request) : option (list Byte.byte) :=
  match UploadVideo.req_body req, UploadVideo.file req with
  | UploadVideo.BodyBuffer b, _ => Some b
  | _, Some f => Some (UploadVideo.buffer f)
  | UploadVideo.BodyObject (Some video) _ _, None => Some (base64 e video)
  | _, None => None
  end.

(** The existence-check group and the bucket before a reconciler run, and
    what the run may have made of the group: left as it was, or [true]
    added under the checked key, the latter only for an object that is in
    the bucket. *)
Definition group_before (b0 : gmap string (list Byte.byte * string))
           (g0 : option (gmap string StateVal)) (w : World) : Prop :=
  bucket w = b0 ∧ cache w !! "s3-verifications" = g0.

Definition group_after (b0 : gmap string (list Byte.byte * string))
           (g0 : option (gmap string StateVal)) (s3Key : string) (w : World) : Prop :=
  cache w !! "s3-verifications" = g0
  ∨ (is_Some (b0 !! s3Key)
     ∧ cache w !! "s3-verifications"
       = Some (<["s3-verify:" +:+ s3Key := VBool true]> (default ∅ g0))).

(** [w'] differs from [w] in the sequence number and the log at most. *)
Definition untouched (w w' : World) : Prop :=
  env w' = env w ∧ initialized w' = initialized w ∧ table w' = table w
  ∧ bucket w' = bucket w ∧ cache w' = cache w ∧ emitted w' = emitted w
  ∧ calls w' = calls w.

(** Since the call record read [l0], every call added to it is in [φ]. *)
Definition new_calls_all (φ : Call * bool → Prop) (l0 : list (Call * bool)) (w : World)
  : Prop :=
  ∃ l, calls w = l0 ++ l ∧ Forall φ l.

(** A call that is not on the state store; one that does not write to it;
    one that, if it is on the state store, went through. *)
Definition not_state_call (c : Call * bool) : Prop := ¬ is_state_call c.1.
Definition not_state_write (c : Call * bool) : Prop := ¬ is_state_write c.1.
Definition went_through (c : Call * bool) : Prop := is_state_call c.1 → c.2 = true.

(** [w'] is [w] after the outside calls [l], in the same run. *)
Definition after_calls (l : list (Call * bool)) (w w' : World) : Prop :=
  env w' = env w ∧ calls w' = calls w ++ l.

(** The four stores are the same in [w] and [w']. *)
Definition same_stores (w w' : World) : Prop :=
  table w' = table w ∧ bucket w' = bucket w ∧ cache w' = cache w
  ∧ emitted w' = emitted w.

(** No call of kind [op] ever fails in this run. *)
Definition reliable (op : Op) (w : World) : Prop := ∀ n, fails (env w) op n = None.

Definition is_query (c : Call * bool) : Prop :=
  match c.1 with CQuery _ => True | _ => False end.

(** In a record of calls, the state store is written ([set], [delete],
    [clear]) only once the row of [videoId] has been deleted from the
    table by a query that went through. *)
Fixpoint cleanup_after_commit (videoId : string) (committed : Prop)
         (l : list (Call * bool)) : Prop :=
  match l with
  | [] => True
  | (c, ok) :: l' =>
      match c with
      | CStateSet _ _ _ | CStateDelete _ _ | CStateClear _ =>
          committed ∧ cleanup_after_commit videoId committed l'
      | CQuery (DeleteById v) =>
          cleanup_after_commit videoId (committed ∨ (v = videoId ∧ ok = true)) l'
      | _ => cleanup_after_commit videoId committed l'
      end
  end.

(** Since the call record read [l0], the row of [videoId] has been deleted
    by a query that went through, and the state store was written only
    after that. *)
Definition committed_calls (videoId : string) (l0 : list (Call * bool)) (w : World) : Prop :=
  ∃ l, calls w = l0 ++ l
       ∧ cleanup_after_commit videoId False l
       ∧ (CQuery (DeleteById videoId), true) ∈ l.

(** ** Sample runs *)

(** A run in which nothing fails: the clock reads 5000 plus the sequence
    number, ids and signed URLs are numbered, and the stand-in decoder
    yields one byte per character. *)
Definition quiet : Env := {|
  fails := λ _ _, None;
  clock := λ n, (5000 + Z.of_nat n)%Z;
  randomUUID := λ n, "uuid-" +:+ pretty n;
  getSignedUrl := λ _ key _ n, "https://signed.example/" +:+ key +:+ "?t=" +:+ pretty n;
  base64 := λ s, (λ _, Byte.x00) <$> String.list_ascii_of_string s;
  publicUrlBase := "https://chitro.sevalla.storage";
  usePresigned := false;
|}.

(** The same run, except that every call on the state store throws. *)
Definition state_store_down : Env := {|
  fails := λ op _,
    match op with
    | OpStateGet | OpStateSet | OpStateDelete | OpStateClear | OpStateGetGroup =>
        Some "state store unavailable"
    | _ => None
    end;
  clock := clock quiet;
  randomUUID := randomUUID quiet;
  getSignedUrl := getSignedUrl quiet;
  base64 := base64 quiet;
  publicUrlBase := publicUrlBase quiet;
  usePresigned := usePresigned quiet;
|}.

(** The quiet run with [S3_USE_PRESIGNED=true]: public URLs are signed, and
    the signature changes from one signing to the next. *)
Definition presigning : Env := {|
  fails := fails quiet;
  clock := clock quiet;
  randomUUID := randomUUID quiet;
  getSignedUrl := getSignedUrl quiet;
  base64 := base64 quiet;
  publicUrlBase := publicUrlBase quiet;
  usePresigned := true;
|}.

(** The upsert of the two-phase path: size 0, no public URL given. *)
Definition reserve : UpsertArgs :=
  mkUpsertArgs "v9" "b.webm" "video/webm" 0 "videos/v9.webm" None.

(** A two-byte raw upload named [a.webm]. *)
Definition direct_upload : UploadVideo.Request :=
  UploadVideo.mkRequest (Some "a.webm") (Some "video/webm")
                        (UploadVideo.BodyBuffer [Byte.x01; Byte.x02]) None.

(** A provisional row as the two-phase path leaves it, created at 1000. *)
Definition provisional : Row.t :=
  Row.mk "v1" "b.webm" "video/webm" 0 1000 "videos/v1.webm"
         "https://chitro.sevalla.storage/videos/v1.webm".

Definition with_provisional (e : Env) : World :=
  mkWorld e 0 true {["v1" := provisional]} ∅ ∅ [] [] [].

(** A world whose cache knows [v1] while the table does not. *)
Definition cached_v1 : VideoMetadata.t :=
  VideoMetadata.mk "v1" "b.webm" "video/webm" 10 1000 "videos/v1.webm"
                   "https://chitro.sevalla.storage/videos/v1.webm".

Definition warm_cache_empty_table (e : Env) : World :=
  mkWorld e 0 true ∅ ∅ {["videos" := {["v1" := VVideo cached_v1]}]} [] [] [].

Definition reupsert : UpsertArgs :=
  mkUpsertArgs "v1" "b.webm" "video/webm" 10 "videos/v1.webm"
               (Some "https://chitro.sevalla.storage/videos/v1.webm").

Definition completion : ProcessVideoUpload.Input :=
  ProcessVideoUpload.mkInput "v1" "videos/v1.webm" "b.webm" "video/webm" 10
                             "https://chitro.sevalla.storage/videos/v1.webm".

(** ** Stores, outcomes and further sample data *)

#[local] Existing Instance Db.newer_first_dec.

(** Whether a name has a dot in it. *)
Fixpoint contains_dot (s : string) : bool :=
  match s with
  | EmptyString => false
  | String c s' => if decide (c = "."%char) then true else contains_dot s'
  end.

(** The environment and the contents of the four stores. *)
Definition holds (e : Env) (t : gmap string Row.t)
           (b : gmap string (list Byte.byte * string))
           (c : gmap string (gmap string StateVal)) (ev : list Event) (w : World) : Prop :=
  env w = e ∧ table w = t ∧ bucket w = b ∧ cache w = c ∧ emitted w = ev.

(** [message] is the error of an outside call that the fault plan made
    fail. *)
Definition faulted (e : Env) (message : string) : Prop :=
  ∃ op n, fails e op n = Some message.

(** No outside call fails in this run. *)
Definition nothing_fails (e : Env) : Prop := ∀ op n, fails e op n = None.

(** The row that [INSERT ... ON CONFLICT (id) DO UPDATE SET public_url]
    leaves under [videoId]: the stored row with the new URL when there is
    one, the inserted row otherwise. *)
Definition stored_row (t : gmap string Row.t) (videoId filename contentType : string)
           (size current : Z) (s3Key url : string) : Row.t :=
  match t !! videoId with
  | Some old => with_public_url url old
  | None => Row.mk videoId filename contentType size current s3Key url
  end.

(** The storage key given to an upload named [filename] under [videoId]. *)
Definition key_of (videoId filename : string) : string :=
  "videos/" +:+ videoId +:+ "." +:+ extension_of filename.

(** [State.set] on the contents of the state store. *)
Definition cache_set (group key : string) (v : StateVal)
           (c : gmap string (gmap string StateVal)) : gmap string (gmap string StateVal) :=
  <[group := <[key := v]> (default ∅ (c !! group))]> c.

(** What a direct upload that was answered 200 has done: the object is in
    the bucket under the key of a new id, the row is stored under that id,
    the record is cached under [videos], the cached lists are gone and the
    completion event is out. *)
Definition upload_done (e : Env) (t : gmap string Row.t)
           (b : gmap string (list Byte.byte * string))
           (c : gmap string (gmap string StateVal)) (ev : list Event)
           (req : UploadVideo.Request) (resp : Response) (w : World) : Prop :=
  ∃ buf filename contentType videoId current createdAt,
    let s3Key := key_of videoId filename in
    let publicUrl := publicUrlBase e +:+ "/" +:+ s3Key in
    let size := Z.of_nat (length buf) in
    payload_of e req = Some buf ∧ buf ≠ []
    ∧ resp = mkResponse 200 (BUploaded videoId s3Key publicUrl "Video uploaded successfully")
    ∧ holds e
            (<[videoId := stored_row t videoId filename contentType size current s3Key
                                     publicUrl]> t)
            (<[s3Key := (buf, contentType)]> b)
            (delete "video-lists"
                    (cache_set "videos" videoId
                               (VVideo (VideoMetadata.mk videoId filename contentType size
                                                         createdAt s3Key publicUrl)) c))
            (ev ++ [VideoUploaded videoId s3Key filename contentType size publicUrl])
            w.

(** The three ways a direct upload ends. *)
Definition upload_outcome (e : Env) (t : gmap string Row.t)
           (b : gmap string (list Byte.byte * string))
           (c : gmap string (gmap string StateVal)) (ev : list Event)
           (req : UploadVideo.Request) (resp : Response) (w : World) : Prop :=
  (status resp = 400%Z
   ∧ (payload_of e req = None ∨ payload_of e req = Some [])
   ∧ holds e t b c ev w)
  ∨ upload_done e t b c ev req resp w
  ∨ (∃ message buf,
        resp = mkResponse 500 (BError message) ∧ faulted e message
        ∧ payload_of e req = Some buf ∧ buf ≠ []
        ∧ env w = e ∧ emitted w = ev
        ∧ ∀ key, is_Some (b !! key) → is_Some (bucket w !! key)).

(** What a request for an upload URL that was answered 200 has done: a row
    of the announced size (0 when none was announced) is reserved under a
    new id, the grant is cached under [upload-urls] and the initiation event
    is out; the bucket is as it was. *)
Definition reserve_done (e : Env) (t : gmap string Row.t)
           (b : gmap string (list Byte.byte * string))
           (c : gmap string (gmap string StateVal)) (ev : list Event)
           (req : GetUploadUrl.Request) (resp : Response) (w : World) : Prop :=
  ∃ uploadUrl videoId current createdAt publicUrl,
    let filename := GetUploadUrl.filename req in
    let contentType := GetUploadUrl.contentType req in
    let s3Key := key_of videoId filename in
    let size := GetUploadUrl.size_or_zero (GetUploadUrl.size req) in
    (usePresigned e = false → publicUrl = publicUrlBase e +:+ "/" +:+ s3Key)
    ∧ resp = mkResponse 200 (BUploadUrl uploadUrl videoId s3Key)
    ∧ holds e
            (<[videoId := stored_row t videoId filename contentType size current s3Key
                                     publicUrl]> t)
            b
            (cache_set "upload-urls" videoId
                       (VUploadUrl (UploadUrlInfo.mk uploadUrl videoId s3Key filename
                                                     contentType createdAt)) c)
            (ev ++ [VideoUploadInitiated videoId s3Key filename contentType size])
            w.

Definition reserve_outcome (e : Env) (t : gmap string Row.t)
           (b : gmap string (list Byte.byte * string))
           (c : gmap string (gmap string StateVal)) (ev : list Event)
           (req : GetUploadUrl.Request) (resp : Response) (w : World) : Prop :=
  reserve_done e t b c ev req resp w
  ∨ (∃ message,
        resp = mkResponse 500 (BError message) ∧ faulted e message
        ∧ env w = e ∧ bucket w = b ∧ emitted w = ev
        ∧ ∀ group, group ≠ "upload-urls" → cache w !! group = c !! group).

(** The three ways a delete ends. *)
Definition delete_outcome (e : Env) (t : gmap string Row.t)
           (b : gmap string (list Byte.byte * string))
           (c : gmap string (gmap string StateVal)) (ev : list Event)
           (videoId : string) (resp : Response) (w : World) : Prop :=
  (t !! videoId = None
   ∧ resp = mkResponse 404 (BError "Video not found")
   ∧ holds e t b c ev w)
  ∨ (∃ row,
        t !! videoId = Some row
        ∧ resp = mkResponse 200 (BDeleted "Video deleted successfully" videoId)
        ∧ holds e (delete videoId t) b
                (delete "video-lists" (alter (delete videoId) "videos" c))
                (ev ++ [VideoDeleted videoId (Row.s3_key row) (Row.filename row)]) w)
  ∨ (∃ message,
        resp = mkResponse 500 (BError message) ∧ faulted e message
        ∧ env w = e ∧ bucket w = b ∧ emitted w = ev).

(** The key under which a listing is cached, and the listing itself. *)
Definition list_key (limitParam : option ListVideos.QueryParam) : string :=
  "list:" +:+ show_number (ListVideos.limit_of limitParam).

Definition listing (t : gmap string Row.t) (n : Z) : StateVal :=
  let videos :=
    VideoService.of_row
      <$> take (Z.to_nat n) (merge_sort Db.newer_first (Db.rows_of t)) in
  VList videos (Z.of_nat (length videos)).

(** The three ways a list request ends: answered from the cache, answered
    from the table and cached, or refused with every store as it was. *)
Definition list_outcome (e : Env) (t : gmap string Row.t)
           (b : gmap string (list Byte.byte * string))
           (c : gmap string (gmap string StateVal)) (ev : list Event)
           (limitParam : option ListVideos.QueryParam) (resp : Response) (w : World) : Prop :=
  (∃ v, c !! "video-lists" ≫= (.!! list_key limitParam) = Some v ∧ truthy v = true
        ∧ resp = mkResponse 200 (BState v)
        ∧ holds e t b c ev w)
  ∨ (∃ n, ListVideos.limit_of limitParam = Some n ∧ (0 ≤ n)%Z
          ∧ (∀ v, c !! "video-lists" ≫= (.!! list_key limitParam) = Some v →
                  truthy v = false)
          ∧ resp = mkResponse 200 (BState (listing t n))
          ∧ holds e t b (cache_set "video-lists" (list_key limitParam) (listing t n) c)
                  ev w)
  ∨ (∃ message,
        resp = mkResponse 500 (BError message)
        ∧ (faulted e message ∨ ListVideos.limit_of limitParam = None
           ∨ ∃ n, ListVideos.limit_of limitParam = Some n ∧ (n < 0)%Z)
        ∧ holds e t b c ev w).

(** What [GetVideo] answers from a table. *)
Definition answer_of (t : gmap string Row.t) (videoId : string) : Response :=
  match t !! videoId with
  | Some row => mkResponse 200 (BVideo (VideoService.of_row row))
  | None => mkResponse 404 (BError "Video not found")
  end.

(** The state store after the existence check of the reconciler: a cached
    verification is reused; otherwise a probe that found the object is
    cached as [true] and one that did not find it leaves no trace. *)
Definition after_probe (c : gmap string (gmap string StateVal)) (s3Key : string)
           (found : bool) : gmap string (gmap string StateVal) :=
  match c !! "s3-verifications" ≫= (.!! ("s3-verify:" +:+ s3Key)) with
  | Some _ => c
  | None =>
      if found then cache_set "s3-verifications" ("s3-verify:" +:+ s3Key) (VBool true) c
      else c
  end.

(** What a reconciler run that met no fault has done: the row is upserted,
    the record is cached under [videos] with the URL of the event, and the
    cached lists are gone; bucket and events are as they were. *)
Definition reconciled (e : Env) (t : gmap string Row.t)
           (b : gmap string (list Byte.byte * string))
           (c : gmap string (gmap string StateVal)) (ev : list Event)
           (input : ProcessVideoUpload.Input) (w : World) : Prop :=
  ∃ current createdAt url found,
    let videoId := ProcessVideoUpload.videoId input in
    let s3Key := ProcessVideoUpload.s3Key input in
    let filename := ProcessVideoUpload.filename input in
    let contentType := ProcessVideoUpload.contentType input in
    let size := ProcessVideoUpload.size input in
    let publicUrl := ProcessVideoUpload.publicUrl input in
    (found = true → is_Some (b !! s3Key))
    ∧ ((∀ n, fails e OpS3Head n = None) → found = bool_decide (is_Some (b !! s3Key)))
    ∧ (publicUrl ≠ "" → url = publicUrl)
    ∧ (publicUrl = "" → usePresigned e = false → url = publicUrlBase e +:+ "/" +:+ s3Key)
    ∧ holds e
            (<[videoId := stored_row t videoId filename contentType size current s3Key url]> t)
            b
            (delete "video-lists"
                    (cache_set "videos" videoId
                               (VVideo (VideoMetadata.mk videoId filename contentType size
                                                         createdAt s3Key publicUrl))
                               (after_probe c s3Key found)))
            ev w.

Definition reconcile_outcome (e : Env) (t : gmap string Row.t)
           (b : gmap string (list Byte.byte * string))
           (c : gmap string (gmap string StateVal)) (ev : list Event)
           (input : ProcessVideoUpload.Input) (w : World) : Prop :=
  reconciled e t b c ev input w
  ∨ (∃ message, faulted e message ∧ env w = e ∧ bucket w = b ∧ emitted w = ev).

(** The world after one direct upload into a fresh system in which
    nothing fails. *)
Definition uploaded : World := (UploadVideo.handler direct_upload (boot quiet)).2.

(** The three ways an upload through the Express route ends; the state
    store and the events are as they were in all of them. *)
Definition express_outcome (e : Env) (t : gmap string Row.t)
           (b : gmap string (list Byte.byte * string))
           (c : gmap string (gmap string StateVal)) (ev : list Event)
           (req : ExpressUpload.Request) (resp : Response) (w : World) : Prop :=
  (ExpressUpload.body req = []
   ∧ resp = mkResponse 400 (BError "Video file is empty")
   ∧ holds e t b c ev w)
  ∨ (∃ filename videoId current,
        let buf := ExpressUpload.body req in
        let contentType := or_else (ExpressUpload.content_type req) "video/webm" in
        let s3Key := key_of videoId filename in
        let publicUrl := publicUrlBase e +:+ "/" +:+ s3Key in
        buf ≠ []
        ∧ resp = mkResponse 200
                            (BUploaded videoId s3Key publicUrl "Video uploaded successfully")
        ∧ holds e
                (<[videoId := stored_row t videoId filename contentType
                                         (Z.of_nat (length buf)) current s3Key publicUrl]> t)
                (<[s3Key := (buf, contentType)]> b) c ev w)
  ∨ (∃ message,
        resp = mkResponse 500 (BError message) ∧ faulted e message
        ∧ ExpressUpload.body req ≠ []
        ∧ env w = e ∧ cache w = c ∧ emitted w = ev
        ∧ ∀ key, is_Some (b !! key) → is_Some (bucket w !! key)).

(** A call other than the HEAD request of the existence probe. *)
Definition not_head (c : Call * bool) : Prop :=
  match c.1 with CS3Head _ => False | _ => True end.

(** A fresh system whose bucket already holds the object of [completion]. *)
Definition uploaded_v1 : World :=
  mkWorld quiet 0 false ∅ {["videos/v1.webm" := ([Byte.x01], "video/webm")]} ∅ [] [] [].

(** * Properties *)

(** ** Rules for pre- and postconditions *)

Section Logic.
Context {A B : Type}.

Lemma hoare_ret (P : World → Prop) (a : A) Q E :
  (∀ w, P w → Q a w) → hoare P (mret a) Q E.
Proof. intros H w Hw. cbn. auto. Qed.

Lemma hoare_bind (P : World → Prop) (m : M A) (k : A → M B) Q R E :
  hoare P m Q E → (∀ a, hoare (Q a) (k a) R E) → hoare P (m ≫= k) R E.
Proof.
  intros Hm Hk w Hw. specialize (Hm w Hw).
  unfold mbind, M_bind, bind. destruct (m w) as [[a|e] w']; [|done].
  apply Hk, Hm.
Qed.

Lemma hoare_try_catch (P : World → Prop) (m : M A) h Q E E' :
  hoare P m Q E' → (∀ e, hoare (E' e) (h e) Q E) → hoare P (try_catch m h) Q E.
Proof.
  intros Hm Hh w Hw. specialize (Hm w Hw).
  unfold try_catch. destruct (m w) as [[a|e] w']; [done|].
  apply Hh, Hm.
Qed.

Lemma hoare_weaken (P P' : World → Prop) (m : M A) Q Q' E E' :
  hoare P' m Q' E' → (∀ w, P w → P' w) → (∀ a w, Q' a w → Q a w) →
  (∀ e w, E' e w → E e w) → hoare P m Q E.
Proof.
  intros Hm HP HQ HE w Hw. specialize (Hm w (HP w Hw)).
  destruct (m w) as [[a|e] w']; auto.
Qed.

Lemma hoare_keep (P E : World → Prop) (m : M A) :
  preserves P m → (∀ w, P w → E w) → hoare P m (λ _, P) (λ _, E).
Proof. intros Hm HE. eapply hoare_weaken; [apply Hm|auto..]. Qed.

Lemma preserves_ret P (a : A) : preserves P (mret a).
Proof. by apply hoare_ret. Qed.

Lemma preserves_bind P (m : M A) (k : A → M B) :
  preserves P m → (∀ a, preserves P (k a)) → preserves P (m ≫= k).
Proof. intros Hm Hk. by eapply hoare_bind; [apply Hm|]. Qed.

Lemma preserves_try_catch P (m : M A) h :
  preserves P m → (∀ e, preserves P (h e)) → preserves P (try_catch m h).
Proof. intros Hm Hh. by eapply hoare_try_catch; [apply Hm|]. Qed.

Lemma preserves_throw P e : preserves P (throw (A:=A) e).
Proof. by intros w Hw. Qed.

Lemma preserves_snd P (m : M A) w : preserves P m → P w → P (m w).2.
Proof. intros Hm Hw. specialize (Hm w Hw). by destruct (m w) as [[?|?] ?]. Qed.

End Logic.

Lemma set_table_id w : set_table (table w) w = w.
Proof. by destruct w. Qed.

Lemma run_keeps_schema current q t rows t' :
  Db.run current q t = Ok (rows, t') →
  match q with
  | CreateTable | AlterAddPublicUrl | BackfillPublicUrl | SelectById _ | SelectRecent _ => t' = t
  | Upsert videoId filename contentType size s3Key url =>
      t' = <[videoId := match t !! videoId with
                        | Some old => with_public_url url old
                        | None => Row.mk videoId filename contentType size current s3Key url
                        end]> t
  | DeleteById videoId => t' = delete videoId t
  end.
Proof.
  destruct q; cbn; try (intros [= _ <-]; done).
  - destruct (t !! videoId); intros [= _ <-]; done.
  - destruct limit as [n|]; [|done]. case_decide; [done|]. by intros [= _ <-].
Qed.

(** Predicates that do not look at one of the stores. *)
Definition ignores_initialized (P : World → Prop) := ∀ w b, P w → P (set_initialized b w).
Definition ignores_table (P : World → Prop) := ∀ w t, P w → P (set_table t w).
Definition ignores_bucket (P : World → Prop) := ∀ w b, P w → P (set_bucket b w).
Definition ignores_cache (P : World → Prop) := ∀ w c, P w → P (set_cache c w).
Definition ignores_emitted (P : World → Prop) := ∀ w e, P w → P (set_emitted e w).

(** Expose the state passing of the monad. *)
Ltac unfold_monad :=
  unfold outside, now, log, record_call in *;
  unfold mbind, M_bind, bind, mret, M_ret, ret, next_tick, get_world, modify, throw,
    try_catch in *.

Section Primitives.
Context {allowed : Call * bool → Prop} (P : World → Prop)
        (HP : Bookkeeping allowed P) (Hquiet : allows_quiet allowed).

Lemma preserves_get_world : preserves P get_world.
Proof. by intros w Hw. Qed.

Lemma preserves_modify f : (∀ w, P w → P (f w)) → preserves P (modify f).
Proof. intros Hf w Hw. cbn. auto. Qed.

Lemma preserves_next_tick : preserves P next_tick.
Proof. intros w Hw. cbn. by apply (bk_tick allowed). Qed.

Lemma preserves_record_call c ok : allowed (c, ok) → preserves P (record_call c ok).
Proof. intros Hc. apply preserves_modify. intros w Hw. by apply (bk_calls allowed). Qed.

Lemma preserves_log l message : preserves P (log l message).
Proof. apply preserves_modify. intros w Hw. by apply (bk_logs allowed). Qed.

Lemma preserves_now : preserves P now.
Proof.
  apply preserves_bind; [apply preserves_next_tick|]. intros n.
  apply preserves_bind; [apply preserves_get_world|]. intros w. apply preserves_ret.
Qed.

Lemma preserves_outside {A} op c (effect : nat → M A) :
  (∀ ok, allowed (c, ok)) →
  (∀ n, preserves P (effect n)) → preserves P (outside op c effect).
Proof.
  intros Hc He. apply preserves_bind; [apply preserves_next_tick|]. intros n.
  apply preserves_bind; [apply preserves_get_world|]. intros w.
  destruct (fails (env w) op n).
  - apply preserves_bind; [by apply preserves_record_call|]. intros _.
    apply preserves_throw.
  - apply preserves_bind; [by apply preserves_record_call|]. intros _. apply He.
Qed.

(** A query keeps [P] when the change it makes to the table does. *)
Lemma preserves_query q :
  (∀ w current rows t', P w → Db.run current q (table w) = Ok (rows, t') →
                        P (set_table t' w)) →
  preserves P (Db.query q).
Proof.
  intros Hq w Hw. unfold Db.query. unfold_monad. cbn.
  assert (∀ ok, P (set_calls (calls w ++ [(CQuery q, ok)]) (set_tick (S (tick w)) w)))
    as Hbk.
  { intros ok.
    apply (bk_calls allowed P HP (set_tick (S (tick w)) w) (CQuery q, ok));
      [apply Hquiet; cbn; tauto|by apply (bk_tick allowed)]. }
  destruct (fails (env w) OpQuery (tick w)); cbn.
  { exact (Hbk _). }
  destruct (Db.run _ q (table w)) as [[rows t']|e] eqn:Hrun; cbn.
  - exact (Hq _ _ rows t' (Hbk _) Hrun).
  - exact (Hbk _).
Qed.

Lemma preserves_query_readonly q :
  match q with Upsert _ _ _ _ _ _ | DeleteById _ => False | _ => True end →
  preserves P (Db.query q).
Proof.
  intros Hro. apply preserves_query. intros w current rows t' Hw Hrun.
  apply run_keeps_schema in Hrun.
  destruct q; try done; subst t'; by rewrite set_table_id.
Qed.

Lemma preserves_ensureVideoTable :
  ignores_initialized P → preserves P Db.ensureVideoTable.
Proof.
  intros Hi. unfold Db.ensureVideoTable.
  apply preserves_bind; [apply preserves_get_world|]. intros w.
  destruct (initialized w); [apply preserves_ret|].
  apply preserves_bind; [apply preserves_modify; auto|]. intros _.
  apply preserves_bind; [by apply preserves_query_readonly|]. intros _.
  apply preserves_bind.
  { apply preserves_try_catch.
    - apply preserves_bind; [by apply preserves_query_readonly|]. intros _.
      apply preserves_ret.
    - intros e. apply preserves_log. }
  intros _.
  apply preserves_bind; [by apply preserves_query_readonly|]. intros _.
  apply preserves_ret.
Qed.

Lemma preserves_sign c key expiresIn : preserves P (S3Service.sign c key expiresIn).
Proof.
  apply preserves_outside; [intros ok; apply Hquiet; cbn; tauto|]. intros n.
  apply preserves_bind; [apply preserves_get_world|]. intros w. apply preserves_ret.
Qed.

Lemma preserves_uuid : preserves P S3Service.uuid.
Proof.
  apply preserves_bind; [apply preserves_next_tick|]. intros n.
  apply preserves_bind; [apply preserves_get_world|]. intros w. apply preserves_ret.
Qed.

Lemma preserves_generatePublicUrl key : preserves P (S3Service.generatePublicUrl key).
Proof.
  apply preserves_bind; [apply preserves_get_world|]. intros w.
  destruct (usePresigned (env w)).
  - apply preserves_bind; [apply preserves_sign|]. intros url.
    apply preserves_bind; [apply preserves_log|]. intros _. apply preserves_ret.
  - apply preserves_bind; [apply preserves_log|]. intros _. apply preserves_ret.
Qed.

Lemma preserves_verifyObjectExists key : preserves P (S3Service.verifyObjectExists key).
Proof.
  apply preserves_try_catch.
  - apply preserves_bind.
    { apply preserves_outside; [intros ok; apply Hquiet; cbn; tauto|]. intros n.
      apply preserves_bind; [apply preserves_get_world|]. intros w.
      destruct (bucket w !! key); [apply preserves_ret|apply preserves_throw]. }
    intros _. apply preserves_bind; [apply preserves_log|]. intros _. apply preserves_ret.
  - intros e. case_decide.
    + apply preserves_bind; [apply preserves_log|]. intros _. apply preserves_ret.
    + apply preserves_bind; [apply preserves_log|]. intros _. apply preserves_ret.
Qed.

Lemma preserves_s3_put key (v : list Byte.byte * string) :
  ignores_bucket P →
  preserves P (outside OpS3Put (CS3Put key)
                       (λ _, modify (λ w, set_bucket (<[key := v]> (bucket w)) w))).
Proof.
  intros Hb. apply preserves_outside; [intros ok; apply Hquiet; cbn; tauto|]. intros n.
  apply preserves_modify. auto.
Qed.

Lemma preserves_state_get group key :
  (∀ ok, allowed (CStateGet group key, ok)) → preserves P (State.get group key).
Proof.
  intros Hc. apply preserves_outside; [done|]. intros n.
  apply preserves_bind; [apply preserves_get_world|]. intros w. apply preserves_ret.
Qed.

Lemma preserves_state_getGroup group :
  (∀ ok, allowed (CStateGetGroup group, ok)) → preserves P (State.getGroup group).
Proof.
  intros Hc. apply preserves_outside; [done|]. intros n.
  apply preserves_bind; [apply preserves_get_world|]. intros w. apply preserves_ret.
Qed.

Lemma preserves_state_set group key v :
  (∀ ok, allowed (CStateSet group key v, ok)) → ignores_cache P →
  preserves P (State.set group key v).
Proof.
  intros Hc Hk. apply preserves_outside; [done|]. intros n. apply preserves_modify. auto.
Qed.

Lemma preserves_state_delete group key :
  (∀ ok, allowed (CStateDelete group key, ok)) → ignores_cache P →
  preserves P (State.delete group key).
Proof.
  intros Hc Hk. apply preserves_outside; [done|]. intros n. apply preserves_modify. auto.
Qed.

Lemma preserves_state_clear group :
  (∀ ok, allowed (CStateClear group, ok)) → ignores_cache P →
  preserves P (State.clear group).
Proof.
  intros Hc Hk. apply preserves_outside; [done|]. intros n. apply preserves_modify. auto.
Qed.

Lemma preserves_emit e : ignores_emitted P → preserves P (emit e).
Proof.
  intros He. apply preserves_outside; [intros ok; apply Hquiet; cbn; tauto|]. intros n.
  apply preserves_modify. auto.
Qed.

End Primitives.

Lemma any_call_quiet : allows_quiet any_call.
Proof. by intros c ok _. Qed.

Lemma any_call_all c : any_call c.
Proof. done. Qed.

Create HintDb frame discriminated.

(** Walk through a computation, keeping a predicate; leaves are closed by
    the lemmas above and by the hints of [frame], store writes are left to
    the caller. *)
Ltac keep :=
  lazymatch goal with
  | |- preserves _ (_ ≫= _) => apply preserves_bind; [keep | intros ?; keep]
  | |- preserves _ (try_catch _ _) => apply preserves_try_catch; [keep | intros ?; keep]
  | |- preserves _ (match ?x with _ => _ end) => destruct x; keep
  | |- preserves _ (mret _) => apply preserves_ret
  | |- preserves _ (ret _) => apply preserves_ret
  | |- preserves _ (throw _) => apply preserves_throw
  | |- preserves _ get_world => apply preserves_get_world
  | |- preserves _ (log _ _) => eapply preserves_log; eauto with frame
  | |- preserves _ now => eapply preserves_now; eauto with frame
  | |- preserves _ S3Service.uuid => eapply preserves_uuid; eauto with frame
  | |- preserves _ (S3Service.sign _ _ _) => eapply preserves_sign; eauto with frame
  | |- preserves _ (S3Service.generatePublicUrl _) =>
      eapply preserves_generatePublicUrl; eauto with frame
  | |- preserves _ (S3Service.verifyObjectExists _) =>
      eapply preserves_verifyObjectExists; eauto with frame
  | |- preserves _ Db.ensureVideoTable =>
      eapply preserves_ensureVideoTable; eauto with frame
  | |- preserves _ (Db.query _) =>
      first [ solve [eapply preserves_query_readonly;
                     [eauto with frame | eauto with frame | exact I]]
            | eauto with frame ]
  | |- preserves _ (State.set _ _ _) =>
      first [ solve [eapply preserves_state_set; eauto with frame] | eauto with frame ]
  | |- preserves _ (State.delete _ _) =>
      first [ solve [eapply preserves_state_delete; eauto with frame] | eauto with frame ]
  | |- preserves _ (State.clear _) =>
      first [ solve [eapply preserves_state_clear; eauto with frame] | eauto with frame ]
  | |- preserves _ (State.get _ _) => eapply preserves_state_get; eauto with frame
  | |- preserves _ (State.getGroup _) => eapply preserves_state_getGroup; eauto with frame
  | |- preserves _ (emit _) => eapply preserves_emit; eauto with frame
  | |- preserves _ (modify _) => apply preserves_modify; eauto with frame
  | |- preserves _ (outside OpS3Put _ _) => eapply preserves_s3_put; eauto with frame
  | |- _ => eauto with frame
  end.

#[export] Hint Resolve any_call_quiet any_call_all : frame.

(** Read a goal about one predicate as a [preserves] goal. *)
Ltac as_preserves :=
  lazymatch goal with
  | |- hoare ?P ?m _ _ => change (preserves P m)
  end.

Section ServicesKeep.
Context {allowed : Call * bool → Prop} (P : World → Prop)
        (HP : Bookkeeping allowed P) (Hquiet : allows_quiet allowed)
        (Hinit : ignores_initialized P).

Lemma preserves_createVideoMetadata videoId filename contentType size s3Key publicUrl :
  (∀ url, preserves P (Db.query (Upsert videoId filename contentType size s3Key url))) →
  preserves P (VideoService.createVideoMetadata videoId filename contentType size s3Key
                                                publicUrl).
Proof. intros Hq. unfold VideoService.createVideoMetadata. keep. Qed.

Lemma preserves_getVideoMetadata videoId :
  preserves P (VideoService.getVideoMetadata videoId).
Proof.
  unfold VideoService.getVideoMetadata. keep.
Qed.

Lemma preserves_listVideos limit : preserves P (VideoService.listVideos limit).
Proof. unfold VideoService.listVideos. keep. Qed.

Lemma preserves_deleteVideo videoId :
  preserves P (Db.query (DeleteById videoId)) →
  preserves P (VideoService.deleteVideo videoId).
Proof. intros Hq. unfold VideoService.deleteVideo. keep. Qed.

Lemma preserves_uploadVideo buffer filename contentType :
  ignores_bucket P → preserves P (S3Service.uploadVideo buffer filename contentType).
Proof. intros Hb. unfold S3Service.uploadVideo. keep. Qed.

Lemma preserves_generateUploadUrl filename contentType :
  preserves P (S3Service.generateUploadUrl filename contentType).
Proof. unfold S3Service.generateUploadUrl. keep. Qed.

Lemma preserves_query_any q : ignores_table P → preserves P (Db.query q).
Proof. intros Ht. eapply preserves_query; eauto. Qed.

End ServicesKeep.

Lemma hoare_any {A} (P : World → Prop) (m : M A) : hoare P m (λ _ _, True) (λ _ _, True).
Proof. intros w _. by destruct (m w) as [[a|e] w']. Qed.

Lemma log_is_last (P : World → Prop) l message E :
  hoare P (log l message) (λ _ w', last (logs w') = Some (l, message)) E.
Proof. intros w _. unfold_monad. cbn. apply last_snoc. Qed.

Lemma hoare_conj {A} (P P' : World → Prop) (m : M A) Q Q' E E' :
  hoare P m Q E → hoare P' m Q' E' →
  hoare (λ w, P w ∧ P' w) m (λ a w, Q a w ∧ Q' a w) (λ e w, E e w ∧ E' e w).
Proof.
  intros H H' w [Hw Hw']. specialize (H w Hw). specialize (H' w Hw').
  by destruct (m w) as [[a|e] w''].
Qed.

(** ** Running a computation step by step *)

Lemma run_bind {A B} (m : M A) (k : A → M B) w :
  (m ≫= k) w = match m w with
               | (Ok a, w') => k a w'
               | (Throw e, w') => (Throw e, w')
               end.
Proof. done. Qed.

Lemma run_try_catch {A} (m : M A) h w :
  try_catch m h w = match m w with
                    | (Ok a, w') => (Ok a, w')
                    | (Throw e, w') => h e w'
                    end.
Proof. done. Qed.

Lemma run_log {B} l message (k : () → M B) w :
  (log l message ≫= k) w = k tt (log l message w).2.
Proof. done. Qed.

Lemma filename_or_default_untouched name w :
  ∃ filename w', UploadVideo.filename_or_default name w = (Ok filename, w')
                 ∧ untouched w w'.
Proof.
  unfold UploadVideo.filename_or_default.
  destruct name as [s|]; [destruct (decide (s = ""))|]; by eexists _, _.
Qed.

(** Reading the request touches nothing and yields the payload. *)
Lemma read_video_payload req w buf :
  payload_of (env w) req = Some buf →
  ∃ filename contentType w',
    UploadVideo.read_video req w = (Ok (Some (buf, filename, contentType)), w')
    ∧ untouched w w'.
Proof.
  intros Hp. destruct req as [name ct body file]. unfold payload_of in Hp. cbn in Hp.
  unfold UploadVideo.read_video. cbn [UploadVideo.req_body UploadVideo.file].
  assert (∀ (tag : string) (n : option string) (b : list Byte.byte) (c : string),
             ∃ filename w',
               (log LInfo tag ≫= λ _,
                UploadVideo.filename_or_default n ≫= λ filename,
                mret (Some (b, filename, c))) w
               = (Ok (Some (b, filename, c)), w')
               ∧ untouched w w') as Hcase.
  { intros tag n b c.
    destruct (filename_or_default_untouched n (log LInfo tag w).2) as (fn & w' & Hfn & Hu).
    exists fn, w'. split; [|done]. by rewrite run_log, run_bind, Hfn. }
  destruct body as [b|video fname fct|ty].
  - simplify_eq. destruct (Hcase "Body is Buffer (raw binary)" name buf
                                 (or_else ct "video/webm")) as (fn & w' & H & Hu).
    by exists fn, (or_else ct "video/webm"), w'.
  - destruct file as [f|].
    + destruct (Hcase "File received via multer" (Some (UploadVideo.originalname f))
                      (UploadVideo.buffer f)
                      (or_else (Some (UploadVideo.mimetype f)) "video/webm"))
        as (fn & w' & H & Hu).
      destruct video; simplify_eq;
        by exists fn, (or_else (Some (UploadVideo.mimetype f)) "video/webm"), w'.
    + destruct video as [video|]; [|done]. simplify_eq.
      destruct (filename_or_default_untouched
                  fname (log LInfo "Body is JSON with base64 video" w).2)
        as (fn & w' & Hfn & Hu).
      exists fn, (or_else fct "video/webm"), w'. split; [|done].
      rewrite run_log, run_bind. cbn [get_world]. cbn beta iota.
      by rewrite run_bind, Hfn.
  - destruct file as [f|]; [|done]. simplify_eq.
    destruct (Hcase "File received via multer" (Some (UploadVideo.originalname f))
                    (UploadVideo.buffer f)
                    (or_else (Some (UploadVideo.mimetype f)) "video/webm"))
      as (fn & w' & H & Hu).
    by exists fn, (or_else (Some (UploadVideo.mimetype f)) "video/webm"), w'.
Qed.

Ltac new_calls :=
  repeat rewrite <-(app_assoc _ _ _);
  rewrite ?drop_app_length; cbn [app].

(** Run a computation symbolically, using what is known about the fault
    plan. *)
Ltac exec :=
  unfold_monad; cbn;
  repeat match goal with
         | H : reliable ?op ?w |- context [fails (env ?w) ?op ?n] => rewrite (H n); cbn
         | H : ∀ n, fails (env ?w) ?op n = _ |- context [fails (env ?w) ?op ?n] =>
             rewrite (H n); cbn
         end.

(** ** Runs in which the needed calls go through *)

Lemma reliable_env op w w' : env w' = env w → reliable op w → reliable op w'.
Proof. intros He H n. rewrite He. apply H. Qed.

Lemma after_calls_trans l1 l2 w1 w2 w3 :
  after_calls l1 w1 w2 → after_calls l2 w2 w3 → after_calls (l1 ++ l2) w1 w3.
Proof.
  intros [He1 Hc1] [He2 Hc2]. split; [congruence|].
  by rewrite Hc2, Hc1, <-(app_assoc _ _ _).
Qed.

Lemma query_reliable q w rows t' :
  reliable OpQuery w →
  Db.run (clock (env w) (tick w)) q (table w) = Ok (rows, t') →
  ∃ w', Db.query q w = (Ok rows, w')
        ∧ after_calls [(CQuery q, true)] w w'
        ∧ table w' = t' ∧ bucket w' = bucket w ∧ cache w' = cache w
        ∧ emitted w' = emitted w ∧ initialized w' = initialized w.
Proof.
  intros Hq Hrun. unfold Db.query. unfold_monad. cbn. rewrite (Hq (tick w)), Hrun. cbn.
  eexists. split; [reflexivity|]. by repeat split.
Qed.

Lemma ensureVideoTable_initialized w :
  initialized w = true → Db.ensureVideoTable w = (Ok tt, w).
Proof. intros Hi. unfold Db.ensureVideoTable. unfold_monad. cbn. by rewrite Hi. Qed.

Lemma ensureVideoTable_reliable w :
  reliable OpQuery w →
  ∃ w' pre, Db.ensureVideoTable w = (Ok tt, w')
            ∧ after_calls pre w w' ∧ Forall is_query pre
            ∧ same_stores w w' ∧ initialized w' = true.
Proof.
  intros Hq. destruct (initialized w) eqn:Hi.
  - exists w, []. rewrite ensureVideoTable_initialized by done.
    split; [done|]. split; [split; [done|by rewrite app_nil_r]|]. by repeat split.
  - unfold Db.ensureVideoTable, Db.query. unfold_monad. cbn. rewrite Hi. cbn.
    rewrite (Hq (tick w)). cbn. rewrite (Hq (S (tick w))). cbn.
    rewrite (Hq (S (S (tick w)))). cbn.
    eexists _, [_; _; _]. split; [reflexivity|]. cbn.
    split; [split; [done|by rewrite <-!(app_assoc _ _ _)]|].
    split; [repeat constructor|]. by repeat split.
Qed.

Lemma getVideoMetadata_reliable videoId w :
  reliable OpQuery w →
  ∃ w' pre,
    VideoService.getVideoMetadata videoId w
    = (Ok (VideoService.of_row <$> table w !! videoId), w')
    ∧ after_calls (pre ++ [(CQuery (SelectById videoId), true)]) w w'
    ∧ Forall is_query pre ∧ same_stores w w' ∧ initialized w' = true.
Proof.
  intros Hq. destruct (ensureVideoTable_reliable w Hq) as (w1 & pre & H1 & Hc1 & Hpre & Hs1 & Hi1).
  assert (reliable OpQuery w1) as Hq1 by (eapply reliable_env; [apply Hc1|done]).
  destruct (query_reliable (SelectById videoId) w1 (option_list (table w1 !! videoId))
                           (table w1) Hq1 eq_refl)
    as (w2 & H2 & Hc2 & Ht2 & Hb2 & Hk2 & Hm2 & Hi2).
  exists w2, pre. unfold VideoService.getVideoMetadata.
  rewrite run_bind, H1. cbn beta iota. rewrite run_bind, H2. cbn beta iota.
  destruct Hs1 as (Ht1 & Hb1 & Hk1 & Hm1). rewrite Ht1.
  split; [by destruct (table w !! videoId)|].
  split; [by eapply after_calls_trans|]. split; [done|].
  split; [repeat split; congruence|congruence].
Qed.

Lemma deleteVideo_reliable videoId w :
  reliable OpQuery w → initialized w = true →
  ∃ w', VideoService.deleteVideo videoId w
        = (Ok (bool_decide (is_Some (table w !! videoId))), w')
        ∧ after_calls [(CQuery (DeleteById videoId), true)] w w'
        ∧ table w' = delete videoId (table w) ∧ bucket w' = bucket w
        ∧ cache w' = cache w ∧ emitted w' = emitted w.
Proof.
  intros Hq Hi.
  destruct (query_reliable (DeleteById videoId) w (option_list (table w !! videoId))
                           (delete videoId (table w)) Hq eq_refl)
    as (w1 & H1 & Hc1 & Ht1 & Hb1 & Hk1 & Hm1 & _).
  exists w1. unfold VideoService.deleteVideo.
  rewrite run_bind, ensureVideoTable_initialized by done. cbn beta iota.
  rewrite run_bind, H1. cbn beta iota.
  split; [by destruct (table w !! videoId)|]. done.
Qed.

Lemma state_delete_reliable group key w :
  reliable OpStateDelete w →
  ∃ w', State.delete group key w = (Ok tt, w')
        ∧ after_calls [(CStateDelete group key, true)] w w'
        ∧ cache w' = alter (delete key) group (cache w)
        ∧ table w' = table w ∧ bucket w' = bucket w ∧ emitted w' = emitted w.
Proof.
  intros H. unfold State.delete. unfold_monad. cbn. rewrite (H (tick w)). cbn.
  eexists. split; [reflexivity|]. by repeat split.
Qed.

Lemma state_clear_reliable group w :
  reliable OpStateClear w →
  ∃ w', State.clear group w = (Ok tt, w')
        ∧ after_calls [(CStateClear group, true)] w w'
        ∧ cache w' = delete group (cache w)
        ∧ table w' = table w ∧ bucket w' = bucket w ∧ emitted w' = emitted w.
Proof.
  intros H. unfold State.clear. unfold_monad. cbn. rewrite (H (tick w)). cbn.
  eexists. split; [reflexivity|]. by repeat split.
Qed.

Lemma emit_reliable e w :
  reliable OpEmit w →
  ∃ w', emit e w = (Ok tt, w')
        ∧ after_calls [(CEmit e, true)] w w'
        ∧ emitted w' = emitted w ++ [e]
        ∧ table w' = table w ∧ bucket w' = bucket w ∧ cache w' = cache w.
Proof.
  intros H. unfold emit. unfold_monad. cbn. rewrite (H (tick w)). cbn.
  eexists. split; [reflexivity|]. by repeat split.
Qed.

(** ** What a run adds to the call record *)
Section NewCalls.
Context (φ : Call * bool → Prop) (l0 : list (Call * bool)).

Lemma new_calls_all_start w : calls w = l0 → new_calls_all φ l0 w.
Proof. intros H. exists []. by rewrite app_nil_r. Qed.

Lemma new_calls_all_drop w : new_calls_all φ l0 w → Forall φ (drop (length l0) (calls w)).
Proof. intros (l & -> & Hl). by rewrite drop_app_length. Qed.

Lemma new_calls_all_bookkeeping : Bookkeeping φ (new_calls_all φ l0).
Proof.
  split; [done| |done]. intros w c Hc (l & Hl & Hφ). exists (l ++ [c]). cbn.
  split; [by rewrite Hl, <-(app_assoc _ _ _)|]. apply Forall_app. by repeat constructor.
Qed.

Lemma new_calls_all_initialized : ignores_initialized (new_calls_all φ l0).
Proof. by intros w b. Qed.

Lemma new_calls_all_table : ignores_table (new_calls_all φ l0).
Proof. by intros w t. Qed.

Lemma new_calls_all_bucket : ignores_bucket (new_calls_all φ l0).
Proof. by intros w b. Qed.

Lemma new_calls_all_cache : ignores_cache (new_calls_all φ l0).
Proof. by intros w c. Qed.

Lemma new_calls_all_emitted : ignores_emitted (new_calls_all φ l0).
Proof. by intros w e. Qed.

End NewCalls.

Lemma not_state_call_quiet : allows_quiet not_state_call.
Proof. by intros c ok H. Qed.

Lemma not_state_write_quiet : allows_quiet not_state_write.
Proof. intros c ok H. unfold not_state_write. cbn. by destruct c. Qed.

Lemma went_through_quiet : allows_quiet went_through.
Proof. by intros c ok H ?. Qed.

#[export] Hint Resolve new_calls_all_bookkeeping new_calls_all_initialized
  new_calls_all_table new_calls_all_bucket new_calls_all_cache new_calls_all_emitted
  not_state_call_quiet not_state_write_quiet went_through_quiet : frame.

(** ** Handler bodies whose state-store calls are not caught *)
Section OrThrow.
Context {allowed : Call * bool → Prop} (P : World → Prop)
        (HP : Bookkeeping allowed P) (Hcache : ignores_cache P).

(** An outside call outside any [try]: either it went through and [P]
    stands, or it threw. *)
Lemma outside_or_throw {A} op c (effect : nat → M A) :
  allowed (c, true) →
  (∀ n, preserves P (effect n)) →
  hoare P (outside op c effect) (λ _, P) (λ _ _, True).
Proof.
  intros Hc He w Hw. unfold outside, record_call.
  rewrite run_bind. cbn [next_tick]. cbn beta iota.
  rewrite run_bind. cbn [get_world]. cbn beta iota. cbn [env set_tick].
  destruct (fails (env w) op (tick w)) as [message|].
  - rewrite run_bind. cbn [modify]. by cbn beta iota.
  - rewrite run_bind. cbn [modify]. cbn beta iota.
    apply (hoare_keep P (λ _, True) (effect (tick w)) (He _) (λ _ _, I)).
    apply (bk_calls allowed P HP); [done|]. by apply (bk_tick allowed).
Qed.

Lemma state_get_or_throw group key :
  allowed (CStateGet group key, true) →
  hoare P (State.get group key) (λ _, P) (λ _ _, True).
Proof.
  intros Hc. apply outside_or_throw; [done|]. intros n.
  apply preserves_bind; [apply preserves_get_world|]. intros w. apply preserves_ret.
Qed.

Lemma state_getGroup_or_throw group :
  allowed (CStateGetGroup group, true) →
  hoare P (State.getGroup group) (λ _, P) (λ _ _, True).
Proof.
  intros Hc. apply outside_or_throw; [done|]. intros n.
  apply preserves_bind; [apply preserves_get_world|]. intros w. apply preserves_ret.
Qed.

Lemma state_set_or_throw group key v :
  allowed (CStateSet group key v, true) →
  hoare P (State.set group key v) (λ _, P) (λ _ _, True).
Proof.
  intros Hc. apply outside_or_throw; [done|]. intros n. apply preserves_modify. auto.
Qed.

Lemma state_delete_or_throw group key :
  allowed (CStateDelete group key, true) →
  hoare P (State.delete group key) (λ _, P) (λ _ _, True).
Proof.
  intros Hc. apply outside_or_throw; [done|]. intros n. apply preserves_modify. auto.
Qed.

Lemma state_clear_or_throw group :
  allowed (CStateClear group, true) →
  hoare P (State.clear group) (λ _, P) (λ _ _, True).
Proof.
  intros Hc. apply outside_or_throw; [done|]. intros n. apply preserves_modify. auto.
Qed.

End OrThrow.

Lemma went_through_ok c : went_through (c, true).
Proof. done. Qed.

#[export] Hint Resolve went_through_ok : frame.

(** Walk through a handler body: [P] stands for as long as nothing
    throws. *)
Ltac keep_or_throw :=
  cbv beta zeta;
  lazymatch goal with
  | |- hoare ?P (_ ≫= _) _ _ =>
      apply hoare_bind with (Q := λ _, P); [keep_or_throw | intros ?; keep_or_throw]
  | |- hoare _ (match ?x with _ => _ end) _ _ => destruct x; keep_or_throw
  | |- hoare _ (mret _) _ _ => by apply hoare_ret
  | |- hoare _ (State.get _ _) _ _ => eapply state_get_or_throw; eauto with frame
  | |- hoare _ (State.getGroup _) _ _ => eapply state_getGroup_or_throw; eauto with frame
  | |- hoare _ (State.set _ _ _) _ _ => eapply state_set_or_throw; eauto with frame
  | |- hoare _ (State.delete _ _) _ _ => eapply state_delete_or_throw; eauto with frame
  | |- hoare _ (State.clear _) _ _ => eapply state_clear_or_throw; eauto with frame
  | |- hoare _ (VideoService.createVideoMetadata _ _ _ _ _ _) _ _ =>
      apply hoare_keep;
      [eapply preserves_createVideoMetadata;
       [eauto with frame..|intros ?; eapply preserves_query_any; eauto with frame]
      |done]
  | |- hoare _ (VideoService.getVideoMetadata _) _ _ =>
      apply hoare_keep; [eapply preserves_getVideoMetadata; eauto with frame|done]
  | |- hoare _ (VideoService.listVideos _) _ _ =>
      apply hoare_keep; [eapply preserves_listVideos; eauto with frame|done]
  | |- hoare _ (VideoService.deleteVideo _) _ _ =>
      apply hoare_keep;
      [eapply preserves_deleteVideo;
       [eauto with frame..|eapply preserves_query_any; eauto with frame]
      |done]
  | |- hoare _ (S3Service.uploadVideo _ _ _) _ _ =>
      apply hoare_keep; [eapply preserves_uploadVideo; eauto with frame|done]
  | |- hoare _ _ _ _ => apply hoare_keep; [keep|done]
  end.

(** ** The persistence upsert *)
Section Upsert.
Context (t0 : gmap string Row.t).

Abbreviation table_is := (λ w : World, table w = t0).

Lemma table_is_bookkeeping : Bookkeeping any_call table_is.
Proof. by split. Qed.

Lemma table_is_initialized : ignores_initialized table_is.
Proof. by intros w b. Qed.

(** A query that returns has run on the table; one that throws has left
    it alone. *)
Lemma query_spec q :
  hoare table_is (Db.query q)
        (λ rows w', ∃ current, Db.run current q t0 = Ok (rows, table w'))
        (λ _, table_is).
Proof.
  intros w Hw. unfold Db.query. unfold_monad. cbn.
  destruct (fails (env w) OpQuery (tick w)); cbn; [done|].
  rewrite Hw.
  destruct (Db.run _ q t0) as [[rows t']|e] eqn:Hrun; cbn; [|done].
  eauto.
Qed.

Lemma now_reads_clock {allowed} (P : World → Prop) :
  Bookkeeping allowed P →
  hoare P now (λ z w', P w' ∧ z = clock (env w') (Nat.pred (tick w'))) (λ _ _, False).
Proof. intros HP w Hw. unfold_monad. cbn. split; [by apply (bk_tick allowed)|done]. Qed.

Lemma createVideoMetadata_spec videoId filename contentType size s3Key publicUrl :
  hoare table_is
        (VideoService.createVideoMetadata videoId filename contentType size s3Key publicUrl)
        (λ v w',
           (∃ current,
               Db.run current
                      (Upsert videoId filename contentType size s3Key (VideoMetadata.s3Url v))
                      t0
               = Ok ([], table w'))
           ∧ v = VideoMetadata.mk videoId filename contentType size
                                  (clock (env w') (Nat.pred (tick w'))) s3Key
                                  (VideoMetadata.s3Url v)
           ∧ (∀ u, publicUrl = Some u → u ≠ "" → VideoMetadata.s3Url v = u))
        (λ _, table_is).
Proof.
  pose proof table_is_bookkeeping. pose proof table_is_initialized.
  unfold VideoService.createVideoMetadata.
  apply hoare_bind with (Q := λ _, table_is).
  { by eapply preserves_ensureVideoTable; eauto with frame. }
  intros _.
  apply hoare_bind
    with (Q := λ url w, table w = t0 ∧ ∀ u, publicUrl = Some u → u ≠ "" → url = u).
  { destruct publicUrl as [u|].
    - case_decide as Hu.
      + eapply hoare_weaken; [by eapply preserves_generatePublicUrl; eauto with frame|done| |done].
        intros url w Hw. split; [done|]. by intros ? [= <-].
      + apply hoare_ret. intros w Hw. split; [done|]. by intros ? [= <-].
    - eapply hoare_weaken; [by eapply preserves_generatePublicUrl; eauto with frame|done| |done].
      intros url w Hw. by split. }
  intros url.
  set (P := λ w' : World,
         (∃ current,
             Db.run current (Upsert videoId filename contentType size s3Key url) t0
             = Ok ([], table w'))
         ∧ ∀ u, publicUrl = Some u → u ≠ "" → url = u).
  assert (Bookkeeping any_call P) as HP by (by split).
  apply hoare_bind with (Q := λ _, P).
  { intros w [Hw Hu].
    pose proof (query_spec (Upsert videoId filename contentType size s3Key url) w Hw) as Hq.
    destruct (Db.query _ w) as [[rows|e] w']; [|done].
    split; [|done]. destruct Hq as [current Hq]. exists current.
    pose proof Hq as Hq'. cbn in Hq'. destruct (t0 !! videoId); by simplify_eq. }
  intros _.
  apply hoare_bind with (Q := λ z w', P w' ∧ z = clock (env w') (Nat.pred (tick w'))).
  { eapply hoare_weaken; [by apply (now_reads_clock (allowed:=any_call) P)|done..]. }
  intros createdAt. apply hoare_ret. cbn. intros w [[Hq Hu] ->]. done.
Qed.

End Upsert.

(** ** Rows under conflict *)
Section RowFrame.
Context (videoId : string) (old : Row.t).

Lemma with_public_url_same (r : Row.t) : with_public_url (Row.public_url r) r = r.
Proof. by destruct r. Qed.

Lemma row_frame_start w : table w !! videoId = Some old → row_frame videoId old w.
Proof. intros H. exists (Row.public_url old). by rewrite with_public_url_same. Qed.

Lemma row_frame_bookkeeping : Bookkeeping any_call (row_frame videoId old).
Proof. by split. Qed.

Lemma row_frame_initialized : ignores_initialized (row_frame videoId old).
Proof. by intros w b. Qed.

Lemma row_frame_bucket : ignores_bucket (row_frame videoId old).
Proof. by intros w b. Qed.

Lemma row_frame_cache : ignores_cache (row_frame videoId old).
Proof. by intros w c. Qed.

Lemma row_frame_emitted : ignores_emitted (row_frame videoId old).
Proof. by intros w e. Qed.

Lemma row_frame_upsert id' filename contentType size s3Key url :
  preserves (row_frame videoId old)
            (Db.query (Upsert id' filename contentType size s3Key url)).
Proof.
  eapply preserves_query; [apply row_frame_bookkeeping|apply any_call_quiet|].
  intros w current rows t' [u Hu] Hrun. apply run_keeps_schema in Hrun. subst t'.
  unfold row_frame. cbn. destruct (decide (id' = videoId)) as [->|Hne].
  - rewrite Hu, lookup_insert_eq. by exists url.
  - rewrite lookup_insert_ne by done. by exists u.
Qed.

Lemma row_frame_createVideoMetadata id' filename contentType size s3Key publicUrl :
  preserves (row_frame videoId old)
            (VideoService.createVideoMetadata id' filename contentType size s3Key publicUrl).
Proof.
  eapply preserves_createVideoMetadata;
    [apply row_frame_bookkeeping|apply any_call_quiet|apply row_frame_initialized|].
  intros url. apply row_frame_upsert.
Qed.

Lemma row_frame_state_set group key v :
  preserves (row_frame videoId old) (State.set group key v).
Proof.
  eapply preserves_outside; [apply row_frame_bookkeeping|done|]. intros _.
  by apply preserves_modify.
Qed.

Lemma row_frame_state_clear group : preserves (row_frame videoId old) (State.clear group).
Proof.
  eapply preserves_outside; [apply row_frame_bookkeeping|done|]. intros _.
  by apply preserves_modify.
Qed.

Lemma row_frame_ProcessVideoUpload input :
  preserves (row_frame videoId old) (ProcessVideoUpload.handler input).
Proof.
  pose proof row_frame_bookkeeping. pose proof row_frame_initialized.
  unfold ProcessVideoUpload.handler. keep.
  - apply row_frame_state_set.
  - exact (row_frame_createVideoMetadata _ _ _ _ _ _).
  - apply row_frame_state_set.
  - apply row_frame_state_clear.
Qed.

End RowFrame.

Lemma upsert_outcome a w :
  match (upsert a w).1 with
  | Ok v =>
      ∃ current,
        table (upsert a w).2
        = <[ua_videoId a :=
              match table w !! ua_videoId a with
              | Some old => with_public_url (VideoMetadata.s3Url v) old
              | None => Row.mk (ua_videoId a) (ua_filename a) (ua_contentType a) (ua_size a)
                               current (ua_s3Key a) (VideoMetadata.s3Url v)
              end]> (table w)
  | Throw _ => table (upsert a w).2 = table w
  end.
Proof.
  pose proof (createVideoMetadata_spec (table w) (ua_videoId a) (ua_filename a)
                (ua_contentType a) (ua_size a) (ua_s3Key a) (ua_publicUrl a) w eq_refl) as H.
  fold (upsert a) in H. destruct (upsert a w) as [[v|e] w']; cbn; [|done].
  destruct H as ([current Hrun] & _ & _). exists current.
  by apply run_keeps_schema in Hrun.
Qed.

Lemma records_for_one videoId (t : gmap string Row.t) :
  is_Some (t !! videoId) → length (records_for videoId t) = 1%nat.
Proof.
  intros [r Hr]. unfold records_for.
  rewrite <-(insert_delete_id t videoId r) by done.
  rewrite map_to_list_insert by apply lookup_delete_eq.
  rewrite filter_cons_True by done. cbn. f_equal.
  destruct (filter _ (map_to_list (delete videoId t))) as [|[k x] l] eqn:Hf; [done|].
  assert ((k, x) ∈ filter (λ kv : string * Row.t, kv.1 = videoId)
                          (map_to_list (delete videoId t))) as Hin
      by (rewrite Hf; left).
  apply list_elem_of_filter in Hin as [Hk Hin]. cbn in Hk. subst k.
  apply elem_of_map_to_list in Hin. by rewrite lookup_delete_eq in Hin.
Qed.

(** * The claims *)

(** ** C1: the read path by id *)

(** With the table answering, GetVideo answers from the table alone. *)
Lemma GetVideo_answer (videoId : string) (w : World) :
  reliable OpQuery w →
  ∃ w', GetVideo.handler videoId w
        = (Ok (match table w !! videoId with
               | Some row => mkResponse 200 (BVideo (VideoService.of_row row))
               | None => mkResponse 404 (BError "Video not found")
               end), w')
        ∧ cache w' = cache w ∧ table w' = table w
        ∧ Forall is_query (drop (length (calls w)) (calls w')).
Proof.
  intros Hq.
  unfold GetVideo.handler, VideoService.getVideoMetadata, Db.ensureVideoTable, Db.query.
  exec. destruct (initialized w); exec; destruct (table w !! videoId); cbn;
    (eexists; split; [reflexivity|]); cbn; (repeat split; try done);
    new_calls; repeat constructor.
Qed.

(** GetVideo, whatever fails: no call on the state store, and the cache as
    it was. *)
Lemma GetVideo_never_touches_state (videoId : string) (w : World) :
  cache (GetVideo.handler videoId w).2 = cache w
  ∧ Forall not_state_call (drop (length (calls w)) (calls (GetVideo.handler videoId w).2)).
Proof.
  assert (preserves (λ w', cache w' = cache w) (GetVideo.handler videoId)) as Hc.
  { assert (Bookkeeping any_call (λ w', cache w' = cache w)) by (by split).
    assert (ignores_initialized (λ w', cache w' = cache w)) by (by intros ??).
    unfold GetVideo.handler, VideoService.getVideoMetadata. keep. }
  assert (preserves (new_calls_all not_state_call (calls w)) (GetVideo.handler videoId))
    as Hn.
  { unfold GetVideo.handler, VideoService.getVideoMetadata. keep. }
  split.
  - by apply (preserves_snd _ _ w Hc).
  - apply new_calls_all_drop. apply (preserves_snd _ _ w Hn). by apply new_calls_all_start.
Qed.




(** ** C2: cache failures in direct upload and list *)

Lemma UploadVideo_state_calls l0 req :
  hoare (new_calls_all went_through l0) (UploadVideo.handler req)
        (λ resp w', new_calls_all went_through l0 w'
                    ∨ ∃ message, resp = mkResponse 500 (BError message))
        (λ _ _, False).
Proof.
  unfold UploadVideo.handler.
  apply hoare_try_catch with (E' := λ _ _, True).
  - eapply hoare_weaken with (Q' := λ _, new_calls_all went_through l0)
                             (E' := λ _ _, True); [|done|by left|done].
    unfold UploadVideo.read_video, UploadVideo.filename_or_default. keep_or_throw.
  - intros e w _. cbn. right. by exists e.
Qed.

Lemma ListVideos_state_calls l0 limitParam :
  hoare (new_calls_all went_through l0) (ListVideos.handler limitParam)
        (λ resp w', new_calls_all went_through l0 w'
                    ∨ ∃ message, resp = mkResponse 500 (BError message))
        (λ _ _, False).
Proof.
  unfold ListVideos.handler.
  apply hoare_try_catch with (E' := λ _ _, True).
  - eapply hoare_weaken with (Q' := λ _, new_calls_all went_through l0)
                             (E' := λ _ _, True); [|done|by left|done].
    keep_or_throw.
  - intros e w _. cbn. right. by exists e.
Qed.



(** ** C3 and C4: what a re-upsert leaves of the stored row *)




(** C4: when [createVideoMetadata] hits an existing row, the stored row
    changes in [public_url] only (to the URL the call resolved, when it
    returns); [filename], [content_type], [size], [created_at] and [s3_key]
    stay.  In particular a provisional row of size 0 keeps size 0 through
    the reconciler's re-upsert with a positive size. *)
Theorem upsert_conflict_changes_public_url_only (w : World) (videoId : string) (old : Row.t) :
  table w !! videoId = Some old →
  (∀ filename contentType size s3Key publicUrl,
      ∃ url,
        table (VideoService.createVideoMetadata videoId filename contentType size s3Key
                                                publicUrl w).2 !! videoId
        = Some (with_public_url url old)
        ∧ ∀ v, (VideoService.createVideoMetadata videoId filename contentType size s3Key
                                                 publicUrl w).1 = Ok v →
               url = VideoMetadata.s3Url v)
  ∧ (∀ input,
        ProcessVideoUpload.videoId input = videoId →
        Row.size old = 0%Z →
        (0 < ProcessVideoUpload.size input)%Z →
        ∃ url,
          table (ProcessVideoUpload.handler input w).2 !! videoId
          = Some (with_public_url url old)
          ∧ Row.size (with_public_url url old) = 0%Z).
Proof.
  intros Hold. split.
  - intros filename contentType size s3Key publicUrl.
    pose proof (upsert_outcome
                  (mkUpsertArgs videoId filename contentType size s3Key publicUrl) w) as H.
    unfold upsert in H. cbn in H.
    destruct (VideoService.createVideoMetadata _ _ _ _ _ _ w) as [[v|e] w']; cbn in *.
    + destruct H as [current ->]. rewrite Hold, lookup_insert_eq.
      exists (VideoMetadata.s3Url v). split; [done|]. by intros ? [= ->].
    + rewrite H. exists (Row.public_url old).
      by rewrite with_public_url_same.
  - intros input Hid Hsize _.
    pose proof (preserves_snd _ _ w (row_frame_ProcessVideoUpload videoId old input)
                              (row_frame_start videoId old w Hold)) as [url Hurl].
    by exists url.
Qed.

Lemma upsert_conflict_changes_public_url_only_witness :
  table (with_provisional quiet) !! "v1" = Some provisional
  ∧ Row.size provisional = 0%Z
  ∧ (0 < ProcessVideoUpload.size completion)%Z
  ∧ ∃ url,
      table (ProcessVideoUpload.handler completion (with_provisional quiet)).2 !! "v1"
      = Some (with_public_url url provisional)
      ∧ Row.size (with_public_url url provisional) = 0%Z.
Proof.
  split; [reflexivity|]. split; [reflexivity|]. split; [reflexivity|].
  apply (proj2 (upsert_conflict_changes_public_url_only
                  (with_provisional quiet) "v1" provisional eq_refl) completion);
    reflexivity.
Defined.

(** ** C5: the existence-check group *)

Section Verifications.

Lemma otv_bookkeeping : Bookkeeping any_call only_true_verifications.
Proof. by split. Qed.

Lemma otv_initialized : ignores_initialized only_true_verifications.
Proof. by intros w b. Qed.

Lemma otv_table : ignores_table only_true_verifications.
Proof. by intros w t. Qed.

Lemma otv_bucket : ignores_bucket only_true_verifications.
Proof. by intros w b. Qed.

Lemma otv_emitted : ignores_emitted only_true_verifications.
Proof. by intros w e. Qed.

Hint Resolve otv_bookkeeping otv_initialized otv_table otv_bucket otv_emitted : frame.

Lemma otv_set group key v :
  group ≠ "s3-verifications" ∨ v = VBool true →
  preserves only_true_verifications (State.set group key v).
Proof.
  intros Hgv. eapply preserves_outside; [eauto with frame..|]. intros _.
  apply preserves_modify. intros w Hw key' v'. cbn.
  destruct (decide (group = "s3-verifications")) as [->|Hne].
  - destruct Hgv as [?| ->]; [done|]. rewrite lookup_insert_eq. cbn.
    destruct (decide (key = key')) as [->|Hk].
    + rewrite lookup_insert_eq. congruence.
    + rewrite lookup_insert_ne by done. intros Hl. apply (Hw key').
      destruct (cache w !! "s3-verifications"); cbn in Hl; [done|].
      by rewrite lookup_empty in Hl.
  - rewrite lookup_insert_ne by done. apply Hw.
Qed.

Lemma otv_delete group key : preserves only_true_verifications (State.delete group key).
Proof.
  eapply preserves_outside; [eauto with frame..|]. intros _.
  apply preserves_modify. intros w Hw key' v'. cbn.
  rewrite lookup_alter. case_decide as Hg; [|apply Hw]. subst group.
  specialize (Hw key' v'). destruct (cache w !! "s3-verifications") as [m|]; [|done].
  cbn in *. intros Hl. apply Hw. apply lookup_delete_Some in Hl. tauto.
Qed.

Lemma otv_clear group : preserves only_true_verifications (State.clear group).
Proof.
  eapply preserves_outside; [eauto with frame..|]. intros _.
  apply preserves_modify. intros w Hw key' v'. cbn.
  destruct (decide (group = "s3-verifications")) as [->|Hne].
  - by rewrite lookup_delete_eq.
  - rewrite lookup_delete_ne by done. apply Hw.
Qed.

Hint Resolve otv_delete otv_clear : frame.

Lemma otv_query q : preserves only_true_verifications (Db.query q).
Proof. eapply preserves_query_any; eauto with frame. Qed.

Hint Resolve otv_query : frame.

Lemma otv_createVideoMetadata videoId filename contentType size s3Key publicUrl :
  preserves only_true_verifications
            (VideoService.createVideoMetadata videoId filename contentType size s3Key
                                              publicUrl).
Proof. eapply preserves_createVideoMetadata; eauto with frame. Qed.

Hint Resolve otv_createVideoMetadata : frame.
Hint Extern 1 (preserves _ (VideoService.getVideoMetadata _)) =>
       eapply preserves_getVideoMetadata : frame.
Hint Extern 1 (preserves _ (VideoService.listVideos _)) =>
       eapply preserves_listVideos : frame.
Hint Extern 1 (preserves _ (VideoService.deleteVideo _)) =>
       eapply preserves_deleteVideo : frame.
Hint Extern 1 (preserves _ (S3Service.uploadVideo _ _ _)) =>
       eapply preserves_uploadVideo : frame.
Hint Extern 1 (preserves _ (S3Service.generateUploadUrl _ _)) =>
       eapply preserves_generateUploadUrl : frame.
Hint Extern 1 (preserves only_true_verifications (State.set _ _ _)) =>
       apply otv_set; first [by left | by right] : frame.

Lemma otv_GetVideo videoId :
  preserves only_true_verifications (GetVideo.handler videoId).
Proof. unfold GetVideo.handler. keep. Qed.

Lemma otv_ListVideos limitParam :
  preserves only_true_verifications (ListVideos.handler limitParam).
Proof. unfold ListVideos.handler. keep. Qed.

Lemma otv_UploadVideo req :
  preserves only_true_verifications (UploadVideo.handler req).
Proof. unfold UploadVideo.handler, UploadVideo.read_video,
         UploadVideo.filename_or_default. keep. Qed.

Lemma otv_GetUploadUrl req :
  preserves only_true_verifications (GetUploadUrl.handler req).
Proof. unfold GetUploadUrl.handler. keep. Qed.

Lemma otv_DeleteVideo videoId :
  preserves only_true_verifications (DeleteVideo.handler videoId).
Proof. unfold DeleteVideo.handler. keep. Qed.

Lemma otv_ProcessVideoUpload input :
  preserves only_true_verifications (ProcessVideoUpload.handler input).
Proof. unfold ProcessVideoUpload.handler. keep. Qed.

Lemma otv_CacheCleanupJob :
  preserves only_true_verifications CacheCleanupJob.handler.
Proof. unfold CacheCleanupJob.handler. keep. Qed.

Lemma otv_run_step s w :
  only_true_verifications w → only_true_verifications (run_step s w).
Proof.
  intros Hw. destruct s; cbn [run_step]; apply preserves_snd; try done.
  - apply otv_GetVideo.
  - apply otv_ListVideos.
  - apply otv_UploadVideo.
  - apply otv_GetUploadUrl.
  - apply otv_DeleteVideo.
  - apply otv_ProcessVideoUpload.
  - apply otv_CacheCleanupJob.
Qed.

Lemma otv_run_steps l w :
  only_true_verifications w → only_true_verifications (run_steps l w).
Proof.
  revert w. induction l as [|s l IH]; intros w Hw; [done|].
  cbn. apply IH. by apply otv_run_step.
Qed.

End Verifications.

(** ** One reconciler run and the existence-check group *)
Section Probe.
Context (b0 : gmap string (list Byte.byte * string)) (g0 : option (gmap string StateVal))
        (s3Key : string).

Abbreviation before := (group_before b0 g0).
Abbreviation after := (group_after b0 g0 s3Key).

Lemma before_bookkeeping : Bookkeeping any_call before.
Proof. by split. Qed.

Lemma after_bookkeeping : Bookkeeping any_call after.
Proof. by split. Qed.

Lemma after_initialized : ignores_initialized after.
Proof. by intros w b. Qed.

Lemma after_table : ignores_table after.
Proof. by intros w t. Qed.

Lemma after_emitted : ignores_emitted after.
Proof. by intros w e. Qed.

Lemma after_set_other group key v :
  group ≠ "s3-verifications" → preserves after (State.set group key v).
Proof.
  intros Hne. eapply preserves_outside; [apply after_bookkeeping|done|]. intros _.
  apply preserves_modify. intros w Hw. unfold group_after in *. cbn.
  by rewrite lookup_insert_ne.
Qed.

Lemma after_clear_other group :
  group ≠ "s3-verifications" → preserves after (State.clear group).
Proof.
  intros Hne. eapply preserves_outside; [apply after_bookkeeping|done|]. intros _.
  apply preserves_modify. intros w Hw. unfold group_after in *. cbn.
  by rewrite lookup_delete_ne.
Qed.

Lemma verifyObjectExists_sound E :
  hoare before (S3Service.verifyObjectExists s3Key)
        (λ found w, before w ∧ (found = true → is_Some (b0 !! s3Key))) E.
Proof.
  intros w [Hb Hg]. unfold S3Service.verifyObjectExists. unfold_monad. cbn.
  destruct (fails (env w) OpS3Head (tick w)); cbn.
  { case_decide; cbn; by repeat split. }
  rewrite Hb. destruct (b0 !! s3Key) eqn:Hk; cbn.
  - by repeat split.
  - by repeat split.
Qed.

Lemma probe_then_store :
  hoare before
        (found ← S3Service.verifyObjectExists s3Key;
         (if (found : bool)
          then State.set "s3-verifications" ("s3-verify:" +:+ s3Key) (VBool true)
          else ret tt) ;;
         mret (found, false))
        (λ _, after) (λ _, after).
Proof.
  eapply hoare_bind; [apply verifyObjectExists_sound|]. intros found.
  intros w [[Hb Hg] Hfound]. destruct found.
  - unfold State.set. unfold_monad. cbn.
    destruct (fails (env w) OpStateSet (tick w)); cbn.
    + by left.
    + right. split; [auto|]. cbn. rewrite lookup_insert_eq. by rewrite Hg.
  - cbn. by left.
Qed.

End Probe.

Lemma group_after_ProcessVideoUpload b0 g0 input :
  hoare (group_before b0 g0) (ProcessVideoUpload.handler input)
        (λ _, group_after b0 g0 (ProcessVideoUpload.s3Key input))
        (λ _, group_after b0 g0 (ProcessVideoUpload.s3Key input)).
Proof.
  set (before := group_before b0 g0).
  set (after := group_after b0 g0 (ProcessVideoUpload.s3Key input)).
  pose proof (before_bookkeeping b0 g0) as Hbefore.
  pose proof (after_bookkeeping b0 g0 (ProcessVideoUpload.s3Key input)).
  pose proof (after_initialized b0 g0 (ProcessVideoUpload.s3Key input)).
  pose proof (after_table b0 g0 (ProcessVideoUpload.s3Key input)).
  pose proof (after_emitted b0 g0 (ProcessVideoUpload.s3Key input)).
  assert (∀ w, before w → after w) as Hweak by (intros w [_ Hg]; by left).
  unfold ProcessVideoUpload.handler.
  apply hoare_try_catch with (E' := λ _, after).
  2:{ intros e. by eapply preserves_log. }
  apply hoare_bind with (Q := λ _, before).
  { apply hoare_keep; [by eapply preserves_log|done]. }
  intros _. apply hoare_bind with (Q := λ _, before).
  { apply hoare_keep; [by eapply preserves_state_get|done]. }
  intros cached. apply hoare_bind with (Q := λ _, after).
  { destruct cached as [v|].
    - apply hoare_bind with (Q := λ _, before).
      + apply hoare_keep; [by eapply preserves_log|done].
      + intros _. by apply hoare_ret.
    - apply probe_then_store. }
  intros [exists_ wasCached]. as_preserves. keep.
  - eapply preserves_createVideoMetadata; eauto with frame. intros url.
    eapply preserves_query_any; eauto with frame.
  - by apply after_set_other.
  - by apply after_clear_other.
Qed.

(** C5: in every state reachable from a fresh start by handler runs, the
    [s3-verifications] group holds no value other than [true]; and one
    reconciler run either leaves the group as it was or adds [true] under
    the checked key, the latter only when the object is in the bucket, so
    that a negative probe stores nothing. *)
Theorem existence_checks_hold_only_true :
  (∀ (e : Env) (l : list Step), only_true_verifications (run_steps l (boot e)))
  ∧ (∀ (input : ProcessVideoUpload.Input) (w : World),
        cache (ProcessVideoUpload.handler input w).2 !! "s3-verifications"
        = cache w !! "s3-verifications"
        ∨ (is_Some (bucket w !! ProcessVideoUpload.s3Key input)
           ∧ cache (ProcessVideoUpload.handler input w).2 !! "s3-verifications"
             = Some (<["s3-verify:" +:+ ProcessVideoUpload.s3Key input := VBool true]>
                       (default ∅ (cache w !! "s3-verifications"))))).
Proof.
  split.
  - intros e l. apply otv_run_steps. intros key v. cbn. by rewrite lookup_empty.
  - intros input w.
    pose proof (group_after_ProcessVideoUpload (bucket w) (cache w !! "s3-verifications")
                  input w (conj eq_refl eq_refl)) as H.
    by destruct (ProcessVideoUpload.handler input w) as [[[]|e] w'].
Qed.

(** ** C6: idempotence of the upsert *)

(** A call that is given a public URL stores that URL, so two such calls
    with the same arguments resolve to the same value. *)
Lemma upsert_resolves_given_url (a : UpsertArgs) (w : World) (u : string)
      (v : VideoMetadata.t) :
  ua_publicUrl a = Some u → u ≠ "" → (upsert a w).1 = Ok v → VideoMetadata.s3Url v = u.
Proof.
  intros Hu Hne Hv.
  pose proof (createVideoMetadata_spec (table w) (ua_videoId a) (ua_filename a)
                (ua_contentType a) (ua_size a) (ua_s3Key a) (ua_publicUrl a) w eq_refl) as H.
  fold (upsert a) in H. destruct (upsert a w) as [[v'|e] w']; cbn in *; [|done].
  simplify_eq. destruct H as (_ & _ & H). by apply H.
Qed.




(** ** C7: id and storage key *)

(** C7: through any sequence of [createVideoMetadata] calls, whatever their
    arguments and whether they return or throw, the [id] and [s3_key]
    columns of a stored row keep their values. *)
Theorem id_and_s3_key_never_change (l : list UpsertArgs) (w : World) (videoId : string)
        (r : Row.t) :
  table w !! videoId = Some r →
  ∃ r', table (upserts l w) !! videoId = Some r'
        ∧ Row.id r' = Row.id r ∧ Row.s3_key r' = Row.s3_key r.
Proof.
  intros Hr. apply row_frame_start in Hr.
  assert (row_frame videoId r (upserts l w)) as [url Hurl].
  { revert w Hr. induction l as [|a l IH]; intros w Hr; [done|].
    cbn. apply IH. apply preserves_snd; [|done].
    unfold upsert. exact (row_frame_createVideoMetadata _ _ _ _ _ _ _ _). }
  by exists (with_public_url url r).
Qed.

Lemma id_and_s3_key_never_change_witness :
  table (with_provisional quiet) !! "v1" = Some provisional
  ∧ ∃ r', table (upserts
                   [reupsert;
                    mkUpsertArgs "v1" "other.mp4" "video/mp4" 99 "videos/elsewhere.mp4" None]
                   (with_provisional quiet)) !! "v1" = Some r'
          ∧ Row.id r' = Row.id provisional ∧ Row.s3_key r' = Row.s3_key provisional.
Proof.
  split; [reflexivity|].
  apply (id_and_s3_key_never_change _ (with_provisional quiet) "v1" provisional).
  reflexivity.
Defined.

(** ** C8: the reconciler absorbs every failure *)

Lemma ProcessVideoUpload_outcome l0 input :
  hoare (new_calls_all went_through l0) (ProcessVideoUpload.handler input)
        (λ _ w',
           (new_calls_all went_through l0 w'
            ∧ last (logs w') = Some (LInfo, "Video upload processed successfully"))
           ∨ last (logs w') = Some (LError, "Error processing video upload"))
        (λ _ _, False).
Proof.
  unfold ProcessVideoUpload.handler.
  apply hoare_try_catch with (E' := λ _ _, True).
  - eapply hoare_weaken
      with (P' := λ w, new_calls_all went_through l0 w ∧ True)
           (Q' := λ _ w', new_calls_all went_through l0 w'
                          ∧ last (logs w')
                            = Some (LInfo, "Video upload processed successfully"))
           (E' := λ _ _, True ∧ True); [|done|by left|done].
    apply hoare_conj.
    + keep_or_throw.
    + do 3 (apply hoare_bind with (Q := λ _ _, True); [apply hoare_any|intros ?]).
      destruct a1 as [exists_ wasCached].
      do 6 (apply hoare_bind with (Q := λ _ _, True); [apply hoare_any|intros ?]).
      apply log_is_last.
  - intros e w0 _. right. exact (log_is_last (λ _, True) _ _ (λ _ _, False) w0 I).
Qed.


(** ** C9: empty direct uploads *)

(** C9: a direct-upload request whose payload is empty is answered with
    status 400 and leaves the bucket, the table, the cache and the emitted
    events as they were; no outside call is even attempted. *)
Theorem empty_upload_rejected (req : UploadVideo.Request) (w : World) :
  payload_of (env w) req = Some [] →
  ∃ w', UploadVideo.handler req w
        = (Ok (mkResponse 400 (BError "Video file is empty")), w')
        ∧ bucket w' = bucket w ∧ table w' = table w ∧ cache w' = cache w
        ∧ emitted w' = emitted w ∧ calls w' = calls w.
Proof.
  intros Hp. unfold UploadVideo.handler.
  destruct (read_video_payload req (log LInfo "Uploading video to Sevalla" w).2 [] Hp)
    as (fn & ct & w' & Hread & Hu).
  exists w'. rewrite run_try_catch, run_log, run_bind, Hread. cbn beta iota.
  split; [done|]. destruct Hu as (_ & _ & ? & ? & ? & ? & ?). done.
Qed.

Lemma empty_upload_rejected_witness :
  payload_of (env (boot quiet))
             (UploadVideo.mkRequest (Some "a.webm") (Some "video/webm")
                                    (UploadVideo.BodyBuffer []) None) = Some []
  ∧ ∃ w', UploadVideo.handler
            (UploadVideo.mkRequest (Some "a.webm") (Some "video/webm")
                                   (UploadVideo.BodyBuffer []) None) (boot quiet)
          = (Ok (mkResponse 400 (BError "Video file is empty")), w')
          ∧ bucket w' = bucket (boot quiet) ∧ table w' = table (boot quiet)
          ∧ cache w' = cache (boot quiet) ∧ emitted w' = emitted (boot quiet)
          ∧ calls w' = calls (boot quiet).
Proof.
  split; [reflexivity|].
  apply (empty_upload_rejected
           (UploadVideo.mkRequest (Some "a.webm") (Some "video/webm")
                                  (UploadVideo.BodyBuffer []) None) (boot quiet)).
  reflexivity.
Defined.

(** ** C10: the commit point of delete *)

(** With the table, the state store and the event bus answering: what
    DeleteVideo answers, what it leaves behind and which calls it makes. *)
Lemma delete_when_all_answer (videoId : string) (w : World) :
  reliable OpQuery w → reliable OpStateDelete w → reliable OpStateClear w →
  reliable OpEmit w →
  ∃ w',
    DeleteVideo.handler videoId w
    = (Ok match table w !! videoId with
          | None => mkResponse 404 (BError "Video not found")
          | Some _ => mkResponse 200 (BDeleted "Video deleted successfully" videoId)
          end, w')
    ∧ match table w !! videoId with
      | None => table w' = table w ∧ cache w' = cache w
      | Some _ =>
          table w' = delete videoId (table w)
          ∧ cache w' = delete "video-lists" (alter (delete videoId) "videos" (cache w))
      end
    ∧ ∃ pre,
        Forall is_query pre
        ∧ calls w'
          = calls w ++ pre
            ++ match table w !! videoId with
               | None => [(CQuery (SelectById videoId), true)]
               | Some row =>
                   [(CQuery (SelectById videoId), true);
                    (CQuery (DeleteById videoId), true);
                    (CStateDelete "videos" videoId, true);
                    (CStateClear "video-lists", true);
                    (CEmit (VideoDeleted videoId (Row.s3_key row) (Row.filename row)),
                     true)]
               end.
Proof.
  intros Hq Hd Hc He. unfold DeleteVideo.handler.
  rewrite run_try_catch, run_log.
  set (w0 := (log LInfo "Deleting video" w).2).
  assert (env w0 = env w ∧ table w0 = table w ∧ cache w0 = cache w ∧ calls w0 = calls w)
    as (He0 & Ht0 & Hk0 & Hc0) by done.
  clearbody w0.
  destruct (getVideoMetadata_reliable videoId w0) as (w1 & pre & H1 & [He1 Hc1] & Hpre & Hs1 & Hi1);
    [by eapply reliable_env|].
  destruct Hs1 as (Ht1 & Hb1 & Hk1 & Hm1).
  rewrite run_bind, H1. cbn beta iota. rewrite Ht0.
  destruct (table w !! videoId) as [row|] eqn:Hrow; cbn [fmap option_fmap option_map].
  2:{ exists w1. split; [done|]. split; [split; congruence|].
      exists pre. split; [done|]. by rewrite Hc1, Hc0. }
  destruct (deleteVideo_reliable videoId w1) as (w2 & H2 & [He2 Hc2] & Ht2 & Hb2 & Hk2 & Hm2);
    [eapply reliable_env; [|done]; congruence|done|].
  rewrite run_bind, H2. cbn beta iota.
  rewrite bool_decide_true by (rewrite Ht1, Ht0, Hrow; eauto). cbn [negb].
  destruct (state_delete_reliable "videos" videoId w2)
    as (w3 & H3 & [He3 Hc3] & Hk3 & Ht3 & Hb3 & Hm3);
    [eapply reliable_env; [|done]; congruence|].
  rewrite run_bind, H3. cbn beta iota.
  destruct (state_clear_reliable "video-lists" w3)
    as (w4 & H4 & [He4 Hc4] & Hk4 & Ht4 & Hb4 & Hm4);
    [eapply reliable_env; [|done]; congruence|].
  rewrite run_bind, H4. cbn beta iota.
  destruct (emit_reliable
              (VideoDeleted videoId (VideoMetadata.s3Key (VideoService.of_row row))
                            (VideoMetadata.filename (VideoService.of_row row))) w4)
    as (w5 & H5 & [He5 Hc5] & Hm5 & Ht5 & Hb5 & Hk5);
    [eapply reliable_env; [|done]; congruence|].
  rewrite run_bind, H5. cbn beta iota. rewrite run_log.
  eexists. split; [reflexivity|]. cbn [log modify snd table cache calls set_logs].
  split; [split; congruence|].
  exists pre. split; [done|].
  rewrite Hc5, Hc4, Hc3, Hc2, Hc1, Hc0. cbn. by rewrite <-!(app_assoc _ _ _).
Qed.


Lemma cleanup_no_writes videoId committed l :
  Forall not_state_write l → cleanup_after_commit videoId committed l.
Proof.
  revert committed. induction l as [|[c ok] l IH]; intros committed Hl; [done|].
  apply Forall_cons in Hl as [Hc Hl]. unfold not_state_write in Hc. cbn in Hc.
  destruct c; cbn in *; try done; auto. destruct q; auto.
Qed.

Lemma cleanup_snoc videoId committed l x :
  cleanup_after_commit videoId committed l →
  committed ∨ (CQuery (DeleteById videoId), true) ∈ l →
  cleanup_after_commit videoId committed (l ++ [x]).
Proof.
  revert committed. induction l as [|[c ok] l IH]; intros committed Hl Hc.
  - destruct Hc as [Hc|Hc]; [|by apply elem_of_nil in Hc].
    destruct x as [[] ?]; cbn; try done. by destruct q.
  - assert (∀ c' : Prop, (committed → c') →
              (c = CQuery (DeleteById videoId) → ok = true → c') →
              cleanup_after_commit videoId c' l →
              cleanup_after_commit videoId c' (l ++ [x])) as Hstep.
    { intros c' Hcc Hcommit Hl'. apply IH; [done|].
      destruct Hc as [Hc|Hc]; [by left; auto|].
      apply elem_of_cons in Hc as [[= <- <-]|Hc]; [left; auto|by right]. }
    destruct c; cbn in *; try (apply Hstep; by auto).
    + destruct q; try (apply Hstep; by auto).
      apply Hstep; [tauto| |done]. intros [= ->] ->. tauto.
    + destruct Hl as [Hcom Hl]. split; [done|]. apply Hstep; by auto.
    + destruct Hl as [Hcom Hl]. split; [done|]. apply Hstep; by auto.
    + destruct Hl as [Hcom Hl]. split; [done|]. apply Hstep; by auto.
Qed.

Lemma committed_calls_bookkeeping videoId l0 :
  Bookkeeping any_call (committed_calls videoId l0).
Proof.
  split; [done| |done]. intros w c _ (l & Hl & Hclean & Hin). exists (l ++ [c]). cbn.
  split; [by rewrite Hl, <-(app_assoc _ _ _)|].
  split; [apply cleanup_snoc; auto|]. apply elem_of_app. by left.
Qed.

Lemma committed_calls_ignores videoId l0 :
  ignores_initialized (committed_calls videoId l0)
  ∧ ignores_table (committed_calls videoId l0)
  ∧ ignores_cache (committed_calls videoId l0)
  ∧ ignores_emitted (committed_calls videoId l0).
Proof. repeat split; by intros ??. Qed.

(** The delete query is the commit point. *)
Lemma delete_query_commits videoId l0 :
  hoare (new_calls_all not_state_write l0) (Db.query (DeleteById videoId))
        (λ _, committed_calls videoId l0) (λ _, new_calls_all not_state_write l0).
Proof.
  intros w (l & Hl & Hnw). unfold Db.query. unfold_monad. cbn.
  destruct (fails (env w) OpQuery (tick w)); cbn.
  - exists (l ++ [(CQuery (DeleteById videoId), false)]).
    split; [by rewrite Hl, <-(app_assoc _ _ _)|]. apply Forall_app.
    split; [done|]. repeat constructor. unfold not_state_write. cbn. tauto.
  - exists (l ++ [(CQuery (DeleteById videoId), true)]).
    split; [by rewrite Hl, <-(app_assoc _ _ _)|].
    split; [|apply elem_of_app; right; left].
    apply cleanup_no_writes, Forall_app. split; [done|]. repeat constructor.
    unfold not_state_write. cbn. tauto.
Qed.

(** Whatever fails, DeleteVideo writes to the state store only after the
    row has been deleted by a query that went through. *)
Lemma delete_cleanup_after_commit (videoId : string) (w : World) :
  cleanup_after_commit videoId False
                       (drop (length (calls w)) (calls (DeleteVideo.handler videoId w).2)).
Proof.
  set (Q0 := new_calls_all not_state_write (calls w)).
  set (Q1 := committed_calls videoId (calls w)).
  set (R := λ w', Q0 w' ∨ Q1 w').
  pose proof (committed_calls_bookkeeping videoId (calls w)) as HQ1.
  destruct (committed_calls_ignores videoId (calls w)) as (? & ? & ? & ?).
  assert (hoare Q0 (DeleteVideo.handler videoId) (λ _, R) (λ _ _, False)) as Hrun.
  { unfold DeleteVideo.handler.
    apply hoare_try_catch with (E' := λ _, R).
    2:{ intros e w' [Hw'|Hw']; cbn; [left|right]; [|done].
        destruct Hw' as (l & ? & ?). by exists l. }
    apply hoare_bind with (Q := λ _, Q0).
    { apply hoare_keep; [keep|by left]. }
    intros _. apply hoare_bind with (Q := λ _, Q0).
    { apply hoare_keep; [eapply preserves_getVideoMetadata; eauto with frame|by left]. }
    intros [v|]; [|apply hoare_ret; by left].
    apply hoare_bind with (Q := λ _, Q1).
    { unfold VideoService.deleteVideo.
      apply hoare_bind with (Q := λ _, Q0).
      { apply hoare_keep; [keep|by left]. }
      intros _. apply hoare_bind with (Q := λ _, Q1).
      { eapply hoare_weaken; [apply delete_query_commits|done|done|by left]. }
      intros rows. by apply hoare_ret. }
    intros deleted. destruct (negb deleted); [apply hoare_ret; by right|].
    eapply hoare_weaken with (P' := Q1) (Q' := λ _, Q1) (E' := λ _, Q1);
      [|done|by right|by right].
    as_preserves. keep. }
  specialize (Hrun w (new_calls_all_start _ _ w eq_refl)).
  destruct (DeleteVideo.handler videoId w) as [[resp|e] w']; [|done]. cbn.
  destruct Hrun as [Hq0|(l & -> & Hl & _)].
  - apply cleanup_no_writes. by apply new_calls_all_drop.
  - by rewrite drop_app_length.
Qed.



(** ** Runs on sample data *)

(** With the state store down the reconciler still returns: its first
    cache read throws, the catch logs, and nothing else is called. *)
Example reconciler_absorbs_state_failure :
  (ProcessVideoUpload.handler completion (with_provisional state_store_down)).1 = Ok tt
  ∧ last (logs (ProcessVideoUpload.handler completion (with_provisional state_store_down)).2)
    = Some (LError, "Error processing video upload")
  ∧ calls (ProcessVideoUpload.handler completion (with_provisional state_store_down)).2
    = [(CStateGet "s3-verifications" "s3-verify:videos/v1.webm", false)].
Proof. repeat split; vm_compute; reflexivity. Qed.

(** The two-phase path reserves a row of size 0; a later reconciler run
    that carries size 10 leaves the stored size at 0. *)
Example two_phase_row_keeps_size_zero :
  let reserved := (GetUploadUrl.handler (GetUploadUrl.mkRequest "b.webm" "video/webm" None)
                                        (boot quiet)).2 in
  Row.size <$> table reserved !! "uuid-0" = Some 0%Z
  ∧ Row.size <$> table (ProcessVideoUpload.handler
                          (ProcessVideoUpload.mkInput
                             "uuid-0" "videos/uuid-0.webm" "b.webm" "video/webm" 10
                             "https://chitro.sevalla.storage/videos/uuid-0.webm")
                          reserved).2 !! "uuid-0"
    = Some 0%Z.
Proof. split; vm_compute; reflexivity. Qed.

(** A direct upload of two bytes, then [list(1)]: one item, of size 2. *)
Example upload_then_list :
  match (ListVideos.handler (Some (ListVideos.QString "1"))
                            (UploadVideo.handler direct_upload (boot quiet)).2).1 with
  | Ok (mkResponse 200 (BState (VList [v] 1))) =>
      VideoMetadata.size v = 2%Z ∧ VideoMetadata.s3Key v = "videos/uuid-0.webm"
  | _ => False
  end.
Proof. vm_compute. done. Qed.

(** * Further properties of the code *)

(** ** File extensions and storage keys *)

Lemma append_cons x (a b : string) : String x a +:+ b = String x (a +:+ b).
Proof. reflexivity. Qed.

Lemma append_nil (b : string) : "" +:+ b = b.
Proof. reflexivity. Qed.

Lemma append_assoc_string (a b c : string) : (a +:+ b) +:+ c = a +:+ (b +:+ c).
Proof. induction a as [|x a IH]; [done|]. rewrite !append_cons. by rewrite IH. Qed.

Lemma append_empty_r (a : string) : a +:+ "" = a.
Proof. induction a as [|x a IH]; [done|]. rewrite append_cons. by rewrite IH. Qed.

Lemma contains_dot_app a b : contains_dot (a +:+ b) = contains_dot a || contains_dot b.
Proof.
  induction a as [|x a IH]; [done|]. rewrite append_cons. simpl. by case_decide.
Qed.

Lemma after_last_dot_app a s acc :
  after_last_dot (a +:+ s) acc = after_last_dot s (after_last_dot a acc).
Proof.
  revert acc. induction a as [|x a IH]; intros acc; [done|].
  rewrite append_cons. simpl. by case_decide.
Qed.

Lemma after_last_dot_dotless s acc :
  contains_dot s = false → after_last_dot s acc = acc +:+ s.
Proof.
  revert acc. induction s as [|x s IH]; intros acc; simpl.
  - by rewrite append_empty_r.
  - case_decide; [done|]. intros Hs. rewrite IH by done.
    by rewrite append_assoc_string.
Qed.

Lemma after_last_dot_no_dot s acc :
  contains_dot acc = false → contains_dot (after_last_dot s acc) = false.
Proof.
  revert acc. induction s as [|x s IH]; intros acc Hacc; simpl; [done|].
  case_decide; apply IH; [done|]. rewrite contains_dot_app, Hacc. simpl. by case_decide.
Qed.

(** X1: the extension taken from a file name is never empty and has no
    dot in it, so a storage key always ends in a dot and a non-empty
    extension. *)
Theorem extension_of_never_empty (filename : string) :
  extension_of filename ≠ "" ∧ contains_dot (extension_of filename) = false.
Proof.
  unfold extension_of, or_else.
  assert (contains_dot (after_last_dot filename "") = false) as Hno
      by by apply after_last_dot_no_dot.
  split; by case_decide.
Qed.

(** X2: the extension is what follows the last dot of the name; a name
    without a dot is its own extension, and a name that ends in a dot gets
    [webm]. *)
Theorem extension_of_last_segment (name ext : string) :
  contains_dot ext = false → ext ≠ "" →
  extension_of (name +:+ "." +:+ ext) = ext
  ∧ extension_of ext = ext
  ∧ extension_of (name +:+ ".") = "webm".
Proof.
  intros Hext Hne. unfold extension_of, or_else. rewrite !after_last_dot_app. simpl.
  rewrite !after_last_dot_dotless by done. simpl. by case_decide.
Qed.

Lemma extension_of_last_segment_witness :
  contains_dot "webm" = false ∧ "webm" ≠ ""
  ∧ extension_of ("my.recording" +:+ "." +:+ "webm") = "webm"
  ∧ extension_of "webm" = "webm"
  ∧ extension_of ("my.recording" +:+ ".") = "webm".
Proof.
  split; [reflexivity|]. split; [discriminate|].
  apply (extension_of_last_segment "my.recording" "webm"); [reflexivity|discriminate].
Defined.

(** ** Reading the limit of a list request *)

Lemma pretty_N_char_digit d :
  (d < 10)%N →
  digit_of (pretty_N_char d) = Some (Z.of_N d)
  ∧ is_space (pretty_N_char d) = false
  ∧ pretty_N_char d ≠ "-"%char ∧ pretty_N_char d ≠ "+"%char
  ∧ pretty_N_char d ≠ "N"%char.
Proof.
  intros Hd.
  assert (d = 0 ∨ d = 1 ∨ d = 2 ∨ d = 3 ∨ d = 4 ∨ d = 5 ∨ d = 6 ∨ d = 7 ∨ d = 8 ∨ d = 9)%N
    as Hcases by lia.
  repeat (destruct Hcases as [->|Hcases]); [..|subst d]; by vm_compute.
Qed.

Lemma pretty_N_go_head x s :
  (0 < x)%N → ∃ d s', (d < 10)%N ∧ pretty_N_go x s = String (pretty_N_char d) s'.
Proof.
  revert s. induction (N.lt_wf_0 x) as [x _ IH]. intros s Hx.
  rewrite pretty_N_go_step by done.
  destruct (N.eq_0_gt_0_cases (x `div` 10)) as [H0|Hpos].
  - rewrite H0, pretty_N_go_0. exists (x `mod` 10)%N, s. split; [|done].
    by apply N.mod_lt.
  - apply IH; [|done]. apply N.div_lt; lia.
Qed.

Lemma digits_pretty_N_go x s :
  (0 < x)%N → digits (pretty_N_go x s) None = digits s (Some (Z.of_N x)).
Proof.
  revert s. induction (N.lt_wf_0 x) as [x _ IH]. intros s Hx.
  rewrite pretty_N_go_step by done.
  assert (10 ≠ 0)%N as H10 by done.
  pose proof (N.div_mod x 10 H10) as Hdm.
  pose proof (N.mod_lt x 10 H10) as Hlt.
  destruct (pretty_N_char_digit (x `mod` 10) Hlt) as (Hdigit & _).
  assert (x `div` 10 < x)%N as Hless by (apply N.div_lt; lia).
  pose proof (IH (x `div` 10)%N Hless) as IHq. clear IH.
  revert Hdm Hlt Hdigit Hless IHq.
  generalize (x `div` 10)%N (x `mod` 10)%N. intros q r Hdm Hlt Hdigit Hless IHq.
  assert (q = 0 ∨ 0 < q)%N as [H0|Hpos] by lia.
  - rewrite H0, pretty_N_go_0. simpl. rewrite Hdigit. simpl. do 2 f_equal. lia.
  - rewrite IHq by done. simpl. rewrite Hdigit. simpl. do 2 f_equal. lia.
Qed.

Lemma pretty_N_go_app x s r : pretty_N_go x s +:+ r = pretty_N_go x (s +:+ r).
Proof.
  revert s. induction (N.lt_wf_0 x) as [x _ IH]. intros s.
  assert (x = 0 ∨ 0 < x)%N as [->|Hx] by lia; [by rewrite !pretty_N_go_0|].
  rewrite (pretty_N_go_step x s), (pretty_N_go_step x (s +:+ r)) by done.
  rewrite IH by (apply N.div_lt; lia). reflexivity.
Qed.

Lemma parseInt_digits d s :
  (d < 10)%N →
  parseInt (String (pretty_N_char d) s) = digits (String (pretty_N_char d) s) None.
Proof.
  intros Hd. destruct (pretty_N_char_digit d Hd) as (_ & Hs & Hm & Hp & _).
  unfold parseInt. simpl. rewrite Hs. by rewrite !decide_False by done.
Qed.

Lemma parseInt_pretty_N x rest :
  (0 < x)%N → parseInt (pretty_N_go x rest) = digits rest (Some (Z.of_N x)).
Proof.
  intros Hx. destruct (pretty_N_go_head x rest Hx) as (d & s' & Hd & Hhead).
  rewrite <-digits_pretty_N_go by done. rewrite Hhead. by apply parseInt_digits.
Qed.

Lemma pretty_Z_cases (z : Z) :
  z = 0%Z ∧ pretty z = "0"
  ∨ (∃ p, z = Z.pos p ∧ pretty z = pretty_N_go (N.pos p) "")
  ∨ (∃ p, z = Z.neg p ∧ pretty z = "-" +:+ pretty_N_go (N.pos p) "").
Proof.
  destruct z as [|p|p]; [by left|right; left|right; right]; exists p; (split; [done|]);
    unfold pretty, pretty_Z, pretty, pretty_positive, pretty, pretty_N;
    by rewrite decide_False by done.
Qed.

Lemma digits_started s a : is_Some (digits s (Some a)).
Proof.
  revert a. induction s as [|ch s IH]; intros a; simpl; [by eexists|].
  destruct (digit_of ch); [apply IH|by eexists].
Qed.



Lemma pretty_Z_not_NaN (z : Z) : pretty z ≠ "NaN".
Proof.
  destruct (pretty_Z_cases z) as [[-> ->]|[(p & -> & ->)|(p & -> & ->)]]; [done| |done].
  destruct (pretty_N_go_head (N.pos p) "") as (d & s' & Hd & ->); [done|].
  destruct (pretty_N_char_digit d Hd) as (_ & _ & _ & _ & HN). by intros [= ? ?].
Qed.

(** X4: two list requests are cached under the same key only when they
    ask for the same limit. *)
Theorem list_key_injective (p p' : option ListVideos.QueryParam) :
  list_key p = list_key p' → ListVideos.limit_of p = ListVideos.limit_of p'.
Proof.
  unfold list_key. intros Hkey. apply (inj (String.append "list:")) in Hkey.
  destruct (ListVideos.limit_of p) as [z|], (ListVideos.limit_of p') as [z'|];
    simpl in Hkey; [|by destruct (pretty_Z_not_NaN z)|by destruct (pretty_Z_not_NaN z')|done].
  by apply (inj pretty) in Hkey as ->.
Qed.

Lemma list_key_injective_witness :
  list_key (Some (ListVideos.QString "7")) = list_key (Some (ListVideos.QArray ["7"; "9"]))
  ∧ ListVideos.limit_of (Some (ListVideos.QString "7"))
    = ListVideos.limit_of (Some (ListVideos.QArray ["7"; "9"])).
Proof.
  split; [reflexivity|].
  apply (list_key_injective (Some (ListVideos.QString "7"))
                            (Some (ListVideos.QArray ["7"; "9"]))).
  reflexivity.
Defined.

(** ** The stores along a computation *)

Section Holds.
Context (e : Env).

Lemma holds_bookkeeping t b c ev : Bookkeeping any_call (holds e t b c ev).
Proof. by split. Qed.

Lemma holds_initialized t b c ev : ignores_initialized (holds e t b c ev).
Proof. by intros w i. Qed.

Lemma holds_of w : holds (env w) (table w) (bucket w) (cache w) (emitted w) w.
Proof. done. Qed.

Lemma hoare_pure {A} (φ : Prop) (P : World → Prop) (m : M A) Q E :
  (φ → hoare P m Q E) → hoare (λ w, P w ∧ φ) m Q E.
Proof. intros H w [Hw Hφ]. by apply H. Qed.

Lemma hoare_pure_l {A} (φ : Prop) (P : World → Prop) (m : M A) Q E :
  (φ → hoare P m Q E) → hoare (λ w, φ ∧ P w) m Q E.
Proof. intros H w [Hφ Hw]. by apply H. Qed.

Lemma hoare_exists {A X} (P : X → World → Prop) (m : M A) Q E :
  (∀ x, hoare (P x) m Q E) → hoare (λ w, ∃ x, P x w) m Q E.
Proof. intros H w [x Hw]. by apply (H x). Qed.

Lemma hoare_false {A} (m : M A) Q E : hoare (λ _, False) m Q E.
Proof. by intros w. Qed.

(** Sequencing, with the error condition of the first part weakened. *)
Lemma hoare_seq {A B} (P : World → Prop) (m : M A) (k : A → M B) Q R E E1 :
  hoare P m Q E1 → (∀ message w, E1 message w → E message w) →
  (∀ a, hoare (Q a) (k a) R E) → hoare P (m ≫= k) R E.
Proof.
  intros Hm HE Hk. eapply hoare_bind; [|exact Hk].
  eapply hoare_weaken; [exact Hm|done|done|exact HE].
Qed.

Lemma hoare_get_world (P : World → Prop) E :
  hoare P get_world (λ w0 w, P w ∧ P w0) E.
Proof. by intros w Hw. Qed.

Lemma hoare_modify (P P' : World → Prop) f E :
  (∀ w, P w → P' (f w)) → hoare P (modify f) (λ _, P') E.
Proof. intros Hf w Hw. cbn. auto. Qed.

(** Computations that cannot throw. *)
Lemma hoare_log (P : World → Prop) l message E :
  Bookkeeping any_call P → hoare P (log l message) (λ _, P) E.
Proof. intros HP w Hw. cbn. by apply (bk_logs any_call). Qed.

Lemma hoare_now (P : World → Prop) E :
  Bookkeeping any_call P → hoare P now (λ _, P) E.
Proof. intros HP w Hw. unfold_monad. cbn. by apply (bk_tick any_call). Qed.

Lemma hoare_uuid (P : World → Prop) E :
  Bookkeeping any_call P → hoare P S3Service.uuid (λ _, P) E.
Proof. intros HP w Hw. unfold S3Service.uuid. unfold_monad. cbn. by apply (bk_tick any_call). Qed.

(** An outside call: when the fault plan lets it through its effect runs,
    otherwise it throws the planned error and nothing else happens. *)
Lemma hoare_outside {A} (P : World → Prop) op call (effect : nat → M A) Q E :
  Bookkeeping any_call P → (∀ w, P w → env w = e) →
  (∀ n, hoare P (effect n) Q E) →
  (∀ message w, P w → faulted e message → E message w) →
  hoare P (outside op call effect) Q E.
Proof.
  intros HP He Heff HE w Hw. unfold outside, record_call.
  rewrite run_bind. cbn [next_tick]. cbn beta iota.
  rewrite run_bind. cbn [get_world]. cbn beta iota. cbn [env set_tick].
  destruct (fails (env w) op (tick w)) as [message|] eqn:Hf.
  - rewrite run_bind. cbn [modify]. cbn beta iota. cbn [throw]. apply HE.
    + apply (bk_calls any_call P HP); [done|]. by apply (bk_tick any_call).
    + exists op, (tick w). by rewrite <-(He w Hw).
  - rewrite run_bind. cbn [modify]. cbn beta iota. apply Heff.
    apply (bk_calls any_call P HP); [done|]. by apply (bk_tick any_call).
Qed.

Lemma holds_env t b c ev w : holds e t b c ev w → env w = e.
Proof. by intros [? _]. Qed.

Section Stores.
Context (t : gmap string Row.t) (b : gmap string (list Byte.byte * string))
        (c : gmap string (gmap string StateVal)) (ev : list Event).

Abbreviation here := (holds e t b c ev).
Abbreviation failed := (λ (message : string) (w : World), here w ∧ faulted e message).

Lemma hoare_sign cmd key expiresIn :
  hoare here (S3Service.sign cmd key expiresIn) (λ _, here) failed.
Proof.
  apply hoare_outside; [apply holds_bookkeeping|apply holds_env| |done].
  intros n. by intros w Hw.
Qed.

Lemma hoare_state_get group key :
  hoare here (State.get group key)
        (λ r w, here w ∧ r = c !! group ≫= (.!! key)) failed.
Proof.
  apply hoare_outside; [apply holds_bookkeeping|apply holds_env| |done].
  intros n w Hw. cbn. split; [done|]. by destruct Hw as (_ & _ & _ & -> & _).
Qed.

Lemma hoare_state_getGroup group :
  hoare here (State.getGroup group)
        (λ r w, here w ∧ r = (map_to_list (default ∅ (c !! group))).*2) failed.
Proof.
  apply hoare_outside; [apply holds_bookkeeping|apply holds_env| |done].
  intros n w Hw. cbn. split; [done|]. by destruct Hw as (_ & _ & _ & -> & _).
Qed.

Lemma hoare_state_set group key v :
  hoare here (State.set group key v)
        (λ _, holds e t b (cache_set group key v c) ev) failed.
Proof.
  apply hoare_outside; [apply holds_bookkeeping|apply holds_env| |done].
  intros n w (? & ? & ? & <- & ?). by cbn.
Qed.

Lemma hoare_state_delete group key :
  hoare here (State.delete group key)
        (λ _, holds e t b (alter (base.delete key) group c) ev) failed.
Proof.
  apply hoare_outside; [apply holds_bookkeeping|apply holds_env| |done].
  intros n w (? & ? & ? & <- & ?). by cbn.
Qed.

Lemma hoare_state_clear group :
  hoare here (State.clear group) (λ _, holds e t b (base.delete group c) ev) failed.
Proof.
  apply hoare_outside; [apply holds_bookkeeping|apply holds_env| |done].
  intros n w (? & ? & ? & <- & ?). by cbn.
Qed.

Lemma hoare_emit event :
  hoare here (emit event) (λ _, holds e t b c (ev ++ [event])) failed.
Proof.
  apply hoare_outside; [apply holds_bookkeeping|apply holds_env| |done].
  intros n w (? & ? & ? & ? & <-). by cbn.
Qed.

Lemma hoare_s3_put key (v : list Byte.byte * string) :
  hoare here
        (outside OpS3Put (CS3Put key)
                 (λ _, modify (λ w, set_bucket (<[key := v]> (bucket w)) w)))
        (λ _, holds e t (<[key := v]> b) c ev) failed.
Proof.
  apply hoare_outside; [apply holds_bookkeeping|apply holds_env| |done].
  intros n w (? & ? & <- & ? & ?). by cbn.
Qed.

(** A query that returns has run on the table; one that throws was made
    to fail or was refused by the database, and has changed nothing. *)
Lemma hoare_query q :
  hoare here (Db.query q)
        (λ rows w, ∃ current t', Db.run current q t = Ok (rows, t') ∧ holds e t' b c ev w)
        (λ message w, here w ∧ (faulted e message
                                ∨ ∃ current, Db.run current q t = Throw message)).
Proof.
  intros w (He & Ht & Hb & Hc & Hev). unfold Db.query. unfold_monad. cbn.
  destruct (fails (env w) OpQuery (tick w)) as [message|] eqn:Hf; cbn.
  { split; [done|]. left. exists OpQuery, (tick w). by rewrite <-He. }
  rewrite Ht.
  destruct (Db.run _ q t) as [[rows t']|message] eqn:Hrun; cbn.
  - by eexists _, t'.
  - split; [done|]. right. eauto.
Qed.

(** The three statements of [ensureVideoTable] change no row. *)
Lemma hoare_ddl q :
  match q with CreateTable | AlterAddPublicUrl | BackfillPublicUrl => True | _ => False end →
  hoare here (Db.query q) (λ _, here) failed.
Proof.
  intros Hq. eapply hoare_weaken; [apply hoare_query|done|..].
  - intros rows w (current & t' & Hrun & Hw). destruct q; try done; cbn in Hrun; by simplify_eq.
  - intros message w [Hw [Hf|[current Hrun]]]; [done|]. by destruct q.
Qed.

Lemma hoare_ensureVideoTable : hoare here Db.ensureVideoTable (λ _, here) failed.
Proof.
  unfold Db.ensureVideoTable.
  eapply hoare_bind; [apply hoare_get_world|]. intros w0. apply hoare_pure. intros _.
  destruct (initialized w0); [by apply hoare_ret|].
  eapply hoare_bind; [apply hoare_modify with (P' := here); by intros w Hw|]. intros ?.
  eapply hoare_seq; [by apply hoare_ddl|done|]. intros ?.
  eapply hoare_seq with (Q := λ _, here) (E1 := failed); [|done|].
  { eapply hoare_try_catch with (E' := failed).
    - eapply hoare_seq; [by apply hoare_ddl|done|]. intros ?. by apply hoare_ret.
    - intros message. apply hoare_pure. intros _. apply hoare_log, holds_bookkeeping. }
  intros _.
  eapply hoare_seq; [by apply hoare_ddl|done|]. intros ?. by apply hoare_ret.
Qed.

Lemma hoare_generatePublicUrl key :
  hoare here (S3Service.generatePublicUrl key)
        (λ url w, here w
                  ∧ (usePresigned e = false → url = publicUrlBase e +:+ "/" +:+ key))
        failed.
Proof.
  unfold S3Service.generatePublicUrl.
  eapply hoare_bind; [apply hoare_get_world|]. intros w0. apply hoare_pure.
  intros (-> & _).
  destruct (usePresigned e) eqn:Hp.
  - eapply hoare_seq; [apply hoare_sign|done|]. intros url.
    eapply hoare_bind; [apply hoare_log, holds_bookkeeping|]. intros ?.
    by apply hoare_ret.
  - cbv zeta.
    eapply hoare_bind; [apply hoare_log, holds_bookkeeping|]. intros ?.
    by apply hoare_ret.
Qed.

Lemma hoare_createVideoMetadata videoId filename contentType size s3Key publicUrl :
  hoare here
        (VideoService.createVideoMetadata videoId filename contentType size s3Key publicUrl)
        (λ v w,
           (∃ current,
               holds e (<[videoId := stored_row t videoId filename contentType size current
                                                s3Key (VideoMetadata.s3Url v)]> t) b c ev w)
           ∧ (∃ createdAt,
                 v = VideoMetadata.mk videoId filename contentType size createdAt s3Key
                                      (VideoMetadata.s3Url v))
           ∧ (∀ u, publicUrl = Some u → u ≠ "" → VideoMetadata.s3Url v = u)
           ∧ (publicUrl = None ∨ publicUrl = Some "" → usePresigned e = false →
              VideoMetadata.s3Url v = publicUrlBase e +:+ "/" +:+ s3Key))
        failed.
Proof.
  unfold VideoService.createVideoMetadata.
  eapply hoare_seq; [apply hoare_ensureVideoTable|done|]. intros ?.
  eapply hoare_seq
    with (Q := λ url w,
            here w
            ∧ ((∀ u, publicUrl = Some u → u ≠ "" → url = u)
               ∧ (publicUrl = None ∨ publicUrl = Some "" → usePresigned e = false →
                  url = publicUrlBase e +:+ "/" +:+ s3Key)))
         (E1 := failed); [|done|].
  { destruct publicUrl as [u|].
    - case_decide as Hu.
      + eapply hoare_weaken; [apply hoare_generatePublicUrl|done| |done].
        intros url w [Hw Hurl]. split; [done|]. split; [by intros ? [= <-]|auto].
      + apply hoare_ret. intros w Hw. split; [done|].
        split; [by intros ? [= <-]|]. intros [|[= ->]]; done.
    - eapply hoare_weaken; [apply hoare_generatePublicUrl|done| |done].
      intros url w [Hw Hurl]. split; [done|]. split; [done|auto]. }
  intros url. apply hoare_pure. intros [Hgiven Hgen].
  eapply hoare_seq; [apply hoare_query| |].
  { intros message w [Hw [Hf|[current Hrun]]]; [done|].
    cbn in Hrun. by destruct (t !! videoId). }
  intros rows. apply hoare_exists. intros current. apply hoare_exists. intros t'.
  apply hoare_pure_l. intros Hrun.
  apply run_keeps_schema in Hrun. fold (stored_row t videoId filename contentType size
                                                   current s3Key url) in Hrun. subst t'.
  eapply hoare_bind; [apply hoare_now, holds_bookkeeping|]. intros createdAt.
  apply hoare_ret. intros w Hw. cbn. eauto 10.
Qed.

Lemma hoare_getVideoMetadata videoId :
  hoare here (VideoService.getVideoMetadata videoId)
        (λ r w, here w ∧ r = VideoService.of_row <$> t !! videoId) failed.
Proof.
  unfold VideoService.getVideoMetadata.
  eapply hoare_seq; [apply hoare_ensureVideoTable|done|]. intros ?.
  eapply hoare_seq; [apply hoare_query| |].
  { by intros message w [Hw [Hf|[current Hrun]]]. }
  intros rows. apply hoare_exists. intros current. apply hoare_exists. intros t'.
  apply hoare_pure_l. intros Hrun. cbn in Hrun. injection Hrun as <- <-.
  destruct (t !! videoId); by apply hoare_ret.
Qed.

(** A listing is the [limit] newest rows; it is refused when the limit is
    not a number or is negative. *)
Lemma hoare_listVideos limit :
  hoare here (VideoService.listVideos limit)
        (λ r w, here w
                ∧ ∃ n, limit = Some n ∧ (0 ≤ n)%Z
                       ∧ r = VideoService.of_row
                               <$> take (Z.to_nat n) (merge_sort Db.newer_first (Db.rows_of t)))
        (λ message w, here w
                      ∧ (faulted e message ∨ limit = None
                         ∨ ∃ n, limit = Some n ∧ (n < 0)%Z)).
Proof.
  unfold VideoService.listVideos.
  eapply hoare_seq; [apply hoare_ensureVideoTable| |].
  { intros message w [Hw Hf]. by split; [|left]. }
  intros ?.
  eapply hoare_seq; [apply hoare_query| |].
  { intros message w [Hw [Hf|[current Hrun]]]; (split; [done|]); [by left|right].
    cbn in Hrun. destruct limit as [n|]; [|by left]. right.
    case_decide; [|done]. by exists n. }
  intros rows. apply hoare_exists. intros current. apply hoare_exists. intros t'.
  apply hoare_pure_l. intros Hrun. cbn in Hrun.
  destruct limit as [n|]; [|done]. case_decide; [done|]. injection Hrun as <- <-.
  apply hoare_ret. intros w Hw. split; [done|]. exists n. split; [done|]. split; [lia|done].
Qed.

Lemma hoare_deleteVideo videoId :
  hoare here (VideoService.deleteVideo videoId)
        (λ r w, holds e (delete videoId t) b c ev w
                ∧ r = bool_decide (is_Some (t !! videoId)))
        failed.
Proof.
  unfold VideoService.deleteVideo.
  eapply hoare_seq; [apply hoare_ensureVideoTable|done|]. intros ?.
  eapply hoare_seq; [apply hoare_query| |].
  { by intros message w [Hw [Hf|[current Hrun]]]. }
  intros rows. apply hoare_exists. intros current. apply hoare_exists. intros t'.
  apply hoare_pure_l. intros Hrun. cbn in Hrun. injection Hrun as <- <-.
  apply hoare_ret. intros w Hw. split; [done|]. by destruct (t !! videoId).
Qed.

Lemma hoare_generateUploadUrl filename contentType :
  hoare here (S3Service.generateUploadUrl filename contentType)
        (λ r w, r.2 = key_of r.1.2 filename ∧ here w) failed.
Proof.
  unfold S3Service.generateUploadUrl.
  eapply hoare_bind; [apply hoare_uuid, holds_bookkeeping|]. intros videoId. cbv zeta.
  fold (key_of videoId filename).
  eapply hoare_bind; [apply hoare_log, holds_bookkeeping|]. intros ?.
  eapply hoare_bind; [apply hoare_now, holds_bookkeeping|]. intros ?.
  eapply hoare_seq; [apply hoare_sign|done|]. intros uploadUrl.
  eapply hoare_bind; [apply hoare_log, holds_bookkeeping|]. intros ?.
  by apply hoare_ret.
Qed.

(** The probe never throws; it answers [true] only for a stored object,
    and answers whether the object is stored when the HEAD request is not
    made to fail. *)
Lemma hoare_verifyObjectExists s3Key :
  hoare here (S3Service.verifyObjectExists s3Key)
        (λ r w, here w
                ∧ (r = true → is_Some (b !! s3Key))
                ∧ ((∀ n, fails e OpS3Head n = None) →
                   r = bool_decide (is_Some (b !! s3Key))))
        (λ _ _, False).
Proof.
  unfold S3Service.verifyObjectExists.
  eapply hoare_try_catch
    with (E' := λ message w,
            here w ∧ ((∀ n, fails e OpS3Head n = None) → b !! s3Key = None)).
  - eapply hoare_seq
      with (Q := λ _ w, here w ∧ is_Some (b !! s3Key))
           (E1 := λ message w,
              here w ∧ ((∀ n, fails e OpS3Head n = None) → b !! s3Key = None));
      [|done|].
    { intros w Hw. pose proof Hw as (He & _ & Hb & _).
      unfold outside, record_call.
      rewrite run_bind. cbn [next_tick]. cbn beta iota.
      rewrite run_bind. cbn [get_world]. cbn beta iota. cbn [env set_tick].
      destruct (fails (env w) OpS3Head (tick w)) as [message|] eqn:Hf.
      - rewrite run_bind. cbn [modify]. cbn beta iota. cbn [throw].
        split; [done|]. intros Hh. rewrite He, Hh in Hf. done.
      - rewrite run_bind. cbn [modify]. cbn beta iota.
        rewrite run_bind. cbn [get_world]. cbn beta iota. cbn [bucket set_calls set_tick].
        rewrite Hb. by destruct (b !! s3Key). }
    intros ?. apply hoare_pure. intros Hsome.
    eapply hoare_bind; [apply hoare_log, holds_bookkeeping|]. intros ?.
    apply hoare_ret. intros w Hw. split; [done|]. split; [done|].
    intros _. by rewrite bool_decide_eq_true_2.
  - intros message.
    assert (∀ l text,
               hoare (λ w, here w ∧ ((∀ n, fails e OpS3Head n = None) → b !! s3Key = None))
                     (log l text ≫= λ _, mret false)
                     (λ r w, here w
                             ∧ (r = true → is_Some (b !! s3Key))
                             ∧ ((∀ n, fails e OpS3Head n = None) →
                                r = bool_decide (is_Some (b !! s3Key))))
                     (λ _ _, False)) as Hno.
    { intros l text w [Hw Hnone]. cbn. split; [done|]. split; [done|].
      intros Hh. rewrite Hnone by done. symmetry. apply bool_decide_eq_false_2.
      by intros [? ?]. }
    case_decide; apply Hno.
Qed.

End Stores.

(** An upload stores the object under the key made from a fresh id and
    the file extension; when it throws, the object may already be
    stored. *)
Lemma hoare_uploadVideo t b c ev buffer filename contentType :
  hoare (holds e t b c ev) (S3Service.uploadVideo buffer filename contentType)
        (λ r w, r.1.2 = key_of r.1.1 filename
                ∧ r.2 = publicUrlBase e +:+ "/" +:+ r.1.2
                ∧ holds e t (<[r.1.2 := (buffer, contentType)]> b) c ev w)
        (λ message w,
           (holds e t b c ev w
            ∨ ∃ videoId,
                       holds e t (<[key_of videoId filename := (buffer, contentType)]> b)
                             c ev w)
           ∧ faulted e message).
Proof.
  unfold S3Service.uploadVideo.
  eapply hoare_bind; [apply hoare_uuid, holds_bookkeeping|]. intros videoId. cbv zeta.
  fold (key_of videoId filename).
  eapply hoare_bind; [apply hoare_log, holds_bookkeeping|]. intros ?.
  eapply hoare_seq; [apply hoare_s3_put| |].
  { intros message w [Hw Hf]. split; [by left|done]. }
  intros ?.
  eapply hoare_bind; [apply hoare_log, holds_bookkeeping|]. intros ?.
  eapply hoare_seq; [apply hoare_sign| |].
  { intros message w [Hw Hf]. split; [right; by exists videoId|done]. }
  intros signedUrl.
  eapply hoare_bind; [apply hoare_log, holds_bookkeeping|]. intros ?.
  eapply hoare_bind; [apply hoare_get_world|]. intros w0. apply hoare_pure.
  intros (-> & _).
  eapply hoare_bind; [apply hoare_log, holds_bookkeeping|]. intros ?.
  by apply hoare_ret.
Qed.

End Holds.

(** ** Direct upload *)

Lemma hoare_filename_or_default (P : World → Prop) name E :
  Bookkeeping any_call P → hoare P (UploadVideo.filename_or_default name) (λ _, P) E.
Proof.
  intros HP. unfold UploadVideo.filename_or_default.
  destruct name as [s|]; [case_decide|].
  - eapply hoare_bind; [by apply hoare_now|]. intros ?. by apply hoare_ret.
  - by apply hoare_ret.
  - eapply hoare_bind; [by apply hoare_now|]. intros ?. by apply hoare_ret.
Qed.

(** Reading the request changes nothing and yields the payload of the
    format it recognises. *)
Lemma hoare_read_video e t b c ev req E :
  hoare (holds e t b c ev) (UploadVideo.read_video req)
        (λ r w, holds e t b c ev w ∧ payload_of e req = (λ x, x.1.1) <$> r) E.
Proof.
  pose proof (holds_bookkeeping e t b c ev) as HP.
  assert (∀ (tag : string) (n : option string) (buf : list Byte.byte) (ct : string),
             hoare (holds e t b c ev)
                   (log LInfo tag ≫= λ _,
                    UploadVideo.filename_or_default n ≫= λ filename,
                    mret (Some (buf, filename, ct)))
                   (λ r w, holds e t b c ev w ∧ Some buf = (λ x, x.1.1) <$> r) E) as Hcase.
  { intros tag n buf ct.
    eapply hoare_bind; [by apply hoare_log|]. intros ?.
    eapply hoare_bind; [by apply hoare_filename_or_default|]. intros filename.
    by apply hoare_ret. }
  destruct req as [name ct body file]. unfold UploadVideo.read_video, payload_of.
  cbn [UploadVideo.req_body UploadVideo.file].
  destruct body as [buf|video fname fct|ty].
  - apply Hcase.
  - destruct file as [f|].
    + destruct video; apply Hcase.
    + destruct video as [video|].
      * eapply hoare_bind; [by apply hoare_log|]. intros ?.
        eapply hoare_bind; [apply hoare_get_world|]. intros w0. apply hoare_pure.
        intros (-> & _). cbv zeta.
        eapply hoare_bind; [by apply hoare_filename_or_default|]. intros filename.
        by apply hoare_ret.
      * eapply hoare_bind; [by apply hoare_log|]. intros ?. by apply hoare_ret.
  - destruct file as [f|].
    + apply Hcase.
    + eapply hoare_bind; [by apply hoare_log|]. intros ?. by apply hoare_ret.
Qed.

Lemma public_url_not_empty (base key : string) : base +:+ "/" +:+ key ≠ "".
Proof. by destruct base. Qed.

Lemma grew_same e t b c ev w :
  holds e t b c ev w →
  env w = e ∧ emitted w = ev ∧ ∀ key, is_Some (b !! key) → is_Some (bucket w !! key).
Proof. intros (? & _ & <- & _ & ?). done. Qed.

Lemma grew_insert e t b c ev k v w :
  holds e t (<[k := v]> b) c ev w →
  env w = e ∧ emitted w = ev ∧ ∀ key, is_Some (b !! key) → is_Some (bucket w !! key).
Proof.
  intros (? & _ & Hb & _ & ?). split; [done|]. split; [done|]. intros key Hkey.
  rewrite Hb, lookup_insert_is_Some. destruct (decide (k = key)); auto.
Qed.

Lemma UploadVideo_outcome e t b c ev req :
  hoare (holds e t b c ev) (UploadVideo.handler req)
        (upload_outcome e t b c ev req) (λ _ _, False).
Proof.
  unfold UploadVideo.handler.
  apply hoare_try_catch
    with (E' := λ message w,
            (env w = e ∧ emitted w = ev
             ∧ ∀ key, is_Some (b !! key) → is_Some (bucket w !! key))
            ∧ (faulted e message ∧ ∃ buf, payload_of e req = Some buf ∧ buf ≠ [])).
  2:{ intros message. apply hoare_pure. intros (Hf & buf & Hp & Hbuf).
      eapply hoare_bind
        with (Q := λ _ w, env w = e ∧ emitted w = ev
                          ∧ ∀ key, is_Some (b !! key) → is_Some (bucket w !! key));
        [by apply hoare_log|].
      intros ?. apply hoare_ret. intros w (He & Hev & Hgrew). right. right.
      by exists message, buf. }
  eapply hoare_bind; [apply hoare_log, holds_bookkeeping|]. intros ?.
  eapply hoare_bind; [apply hoare_read_video|]. intros parsed. apply hoare_pure.
  intros Hp. destruct parsed as [[[buf filename] contentType]|]; cbn in Hp.
  2:{ apply hoare_ret. intros w Hw. left. auto. }
  case_decide as Hlen.
  { apply hoare_ret. intros w Hw. left. split; [done|]. split; [|done]. right.
    by destruct buf. }
  assert (buf ≠ []) as Hbuf by (by intros ->).
  eapply hoare_seq; [apply hoare_uploadVideo| |].
  { intros message w [[Hw|[videoId Hw]] Hf];
      (split; [solve [eapply grew_same; eassumption|eapply grew_insert; eassumption]
              |eauto]). }
  intros [[videoId s3Key] publicUrl]. cbv beta iota zeta. cbn [fst snd].
  apply hoare_pure_l. intros ->. apply hoare_pure_l. intros ->.
  eapply hoare_seq; [apply hoare_createVideoMetadata| |].
  { intros message w [Hw Hf]. split; [by eapply grew_insert|eauto]. }
  intros v. apply hoare_pure. intros (_ & Hurl & _).
  rewrite (Hurl _ eq_refl (public_url_not_empty _ _)). clear v Hurl.
  apply hoare_exists. intros current.
  eapply hoare_bind; [apply hoare_now, holds_bookkeeping|]. intros createdAt.
  eapply hoare_seq; [apply hoare_state_set| |].
  { intros message w [Hw Hf]. split; [by eapply grew_insert|eauto]. }
  intros ?.
  eapply hoare_seq; [apply hoare_state_clear| |].
  { intros message w [Hw Hf]. split; [by eapply grew_insert|eauto]. }
  intros ?.
  eapply hoare_seq; [apply hoare_emit| |].
  { intros message w [Hw Hf]. split; [by eapply grew_insert|eauto]. }
  intros ?.
  eapply hoare_bind; [apply hoare_log, holds_bookkeeping|]. intros ?.
  apply hoare_ret. intros w Hw. right. left.
  exists buf, filename, contentType, videoId, current, createdAt. done.
Qed.

(** ** The other endpoints *)

Lemma kept_groups e t b c ev w :
  holds e t b c ev w →
  env w = e ∧ bucket w = b ∧ emitted w = ev
  ∧ ∀ group, group ≠ "upload-urls" → cache w !! group = c !! group.
Proof. intros (? & _ & ? & <- & ?). done. Qed.

Lemma kept_groups_set e t b c ev key v w :
  holds e t b (cache_set "upload-urls" key v c) ev w →
  env w = e ∧ bucket w = b ∧ emitted w = ev
  ∧ ∀ group, group ≠ "upload-urls" → cache w !! group = c !! group.
Proof.
  intros (? & _ & ? & Hc & ?). repeat (split; [done|]). intros group Hg.
  rewrite Hc. unfold cache_set. by rewrite lookup_insert_ne.
Qed.

Lemma GetUploadUrl_outcome e t b c ev req :
  hoare (holds e t b c ev) (GetUploadUrl.handler req)
        (reserve_outcome e t b c ev req) (λ _ _, False).
Proof.
  unfold GetUploadUrl.handler.
  apply hoare_try_catch
    with (E' := λ message w,
            (env w = e ∧ bucket w = b ∧ emitted w = ev
             ∧ ∀ group, group ≠ "upload-urls" → cache w !! group = c !! group)
            ∧ faulted e message).
  2:{ intros message. apply hoare_pure. intros Hf.
      eapply hoare_bind
        with (Q := λ _ w, env w = e ∧ bucket w = b ∧ emitted w = ev
                          ∧ ∀ group, group ≠ "upload-urls" →
                                     cache w !! group = c !! group);
        [by apply hoare_log|].
      intros ?. apply hoare_ret. intros w (He & Hb & Hev & Hc). right.
      by exists message. }
  eapply hoare_bind; [apply hoare_log, holds_bookkeeping|]. intros ?.
  eapply hoare_seq; [apply hoare_generateUploadUrl| |].
  { intros message w [Hw Hf]. split; [by eapply kept_groups|done]. }
  intros [[uploadUrl videoId] s3Key]. cbv beta iota zeta. cbn [fst snd].
  apply hoare_pure_l. intros ->.
  eapply hoare_seq; [apply hoare_createVideoMetadata| |].
  { intros message w [Hw Hf]. split; [by eapply kept_groups|done]. }
  intros v. apply hoare_pure. intros (_ & _ & Hurl). specialize (Hurl (or_introl eq_refl)).
  apply hoare_exists. intros current.
  eapply hoare_bind; [apply hoare_now, holds_bookkeeping|]. intros createdAt.
  eapply hoare_seq; [apply hoare_state_set| |].
  { intros message w [Hw Hf]. split; [by eapply kept_groups|done]. }
  intros ?.
  eapply hoare_seq; [apply hoare_emit| |].
  { intros message w [Hw Hf]. split; [by eapply kept_groups_set|done]. }
  intros ?.
  eapply hoare_bind; [apply hoare_log, holds_bookkeeping|]. intros ?.
  apply hoare_ret. intros w Hw. left.
  exists uploadUrl, videoId, current, createdAt, (VideoMetadata.s3Url v). done.
Qed.

Lemma DeleteVideo_outcome e t b c ev videoId :
  hoare (holds e t b c ev) (DeleteVideo.handler videoId)
        (delete_outcome e t b c ev videoId) (λ _ _, False).
Proof.
  unfold DeleteVideo.handler.
  apply hoare_try_catch
    with (E' := λ message w,
            (env w = e ∧ bucket w = b ∧ emitted w = ev) ∧ faulted e message).
  2:{ intros message. apply hoare_pure. intros Hf.
      eapply hoare_bind with (Q := λ _ w, env w = e ∧ bucket w = b ∧ emitted w = ev);
        [by apply hoare_log|].
      intros ?. apply hoare_ret. intros w (He & Hb & Hev). right. right.
      by exists message. }
  eapply hoare_bind; [apply hoare_log, holds_bookkeeping|]. intros ?.
  eapply hoare_seq; [apply hoare_getVideoMetadata| |].
  { by intros message w [(? & _ & ? & _ & ?) Hf]. }
  intros video. apply hoare_pure. intros ->.
  destruct (t !! videoId) as [row|] eqn:Hrow; cbn [fmap option_fmap option_map].
  2:{ apply hoare_ret. intros w Hw. by left. }
  eapply hoare_seq; [apply hoare_deleteVideo| |].
  { by intros message w [(? & _ & ? & _ & ?) Hf]. }
  intros deleted. apply hoare_pure. intros ->.
  rewrite Hrow, bool_decide_eq_true_2 by eauto. cbn [negb].
  eapply hoare_seq; [apply hoare_state_delete| |].
  { by intros message w [(? & _ & ? & _ & ?) Hf]. }
  intros ?.
  eapply hoare_seq; [apply hoare_state_clear| |].
  { by intros message w [(? & _ & ? & _ & ?) Hf]. }
  intros ?.
  eapply hoare_seq; [apply hoare_emit| |].
  { by intros message w [(? & _ & ? & _ & ?) Hf]. }
  intros ?.
  eapply hoare_bind; [apply hoare_log, holds_bookkeeping|]. intros ?.
  apply hoare_ret. intros w Hw. right. left. by exists row.
Qed.

Lemma ListVideos_outcome e t b c ev limitParam :
  hoare (holds e t b c ev) (ListVideos.handler limitParam)
        (list_outcome e t b c ev limitParam) (λ _ _, False).
Proof.
  unfold ListVideos.handler.
  apply hoare_try_catch
    with (E' := λ message w,
            holds e t b c ev w
            ∧ (faulted e message ∨ ListVideos.limit_of limitParam = None
               ∨ ∃ n, ListVideos.limit_of limitParam = Some n ∧ (n < 0)%Z)).
  2:{ intros message. apply hoare_pure. intros Hf.
      eapply hoare_bind; [apply hoare_log, holds_bookkeeping|].
      intros ?. apply hoare_ret. intros w Hw. right. right. by exists message. }
  cbv zeta. fold (list_key limitParam).
  eapply hoare_bind; [apply hoare_log, holds_bookkeeping|]. intros ?.
  eapply hoare_seq; [apply hoare_state_get| |].
  { intros message w [Hw Hf]. auto. }
  intros cached. apply hoare_pure. intros ->.
  assert (hoare (holds e t b c ev)
                (VideoService.listVideos (ListVideos.limit_of limitParam) ≫= λ videos,
                 State.set "video-lists" (list_key limitParam)
                           (VList videos (Z.of_nat (length videos))) ≫= λ _,
                 mret (mkResponse 200 (BState (VList videos (Z.of_nat (length videos))))))
                (λ resp w,
                   ∃ n, ListVideos.limit_of limitParam = Some n ∧ (0 ≤ n)%Z
                        ∧ resp = mkResponse 200 (BState (listing t n))
                        ∧ holds e t b
                                (cache_set "video-lists" (list_key limitParam)
                                           (listing t n) c) ev w)
                (λ message w,
                   holds e t b c ev w
                   ∧ (faulted e message ∨ ListVideos.limit_of limitParam = None
                      ∨ ∃ n, ListVideos.limit_of limitParam = Some n ∧ (n < 0)%Z)))
    as Hmiss.
  { eapply hoare_seq; [apply hoare_listVideos|done|].
    intros videos. apply hoare_pure. intros (n & Hn & Hpos & ->).
    eapply hoare_seq; [apply hoare_state_set| |].
    { intros message w [Hw Hf]. auto. }
    intros ?. apply hoare_ret. intros w Hw. by exists n. }
  destruct (c !! "video-lists" ≫= (.!! list_key limitParam)) as [v|] eqn:Hc.
  - destruct (truthy v) eqn:Hv.
    + eapply hoare_bind; [apply hoare_log, holds_bookkeeping|]. intros ?.
      apply hoare_ret. intros w Hw. left. by exists v.
    + eapply hoare_weaken; [apply Hmiss|done| |done].
      intros resp w (n & Hn & Hpos & -> & Hw). right. left. exists n.
      split; [done|]. split; [done|]. split; [|done].
      intros v0 Hv0. rewrite Hc in Hv0. by injection Hv0 as <-.
  - eapply hoare_weaken; [apply Hmiss|done| |done].
    intros resp w (n & Hn & Hpos & -> & Hw). right. left. exists n.
    split; [done|]. split; [done|]. split; [|done].
    intros v0 Hv0. by rewrite Hc in Hv0.
Qed.

Lemma GetVideo_outcome e t b c ev videoId :
  hoare (holds e t b c ev) (GetVideo.handler videoId)
        (λ resp w,
           holds e t b c ev w
           ∧ (resp = answer_of t videoId
              ∨ ∃ message, resp = mkResponse 500 (BError message) ∧ faulted e message))
        (λ _ _, False).
Proof.
  unfold GetVideo.handler.
  apply hoare_try_catch with (E' := λ message w, holds e t b c ev w ∧ faulted e message).
  2:{ intros message. apply hoare_pure. intros Hf.
      eapply hoare_bind; [apply hoare_log, holds_bookkeeping|].
      intros ?. apply hoare_ret. intros w Hw. split; [done|]. right. by exists message. }
  eapply hoare_bind; [apply hoare_log, holds_bookkeeping|]. intros ?.
  eapply hoare_seq; [apply hoare_getVideoMetadata|done|].
  intros video. apply hoare_pure. intros ->. unfold answer_of.
  destruct (t !! videoId) as [row|]; apply hoare_ret; intros w Hw; auto.
Qed.

Lemma CacheCleanupJob_outcome e t b c ev :
  hoare (holds e t b c ev) CacheCleanupJob.handler
        (λ _, holds e t b c ev) (λ _ _, False).
Proof.
  unfold CacheCleanupJob.handler.
  apply hoare_try_catch with (E' := λ message w, holds e t b c ev w ∧ faulted e message).
  2:{ intros message. apply hoare_pure. intros Hf. apply hoare_log, holds_bookkeeping. }
  eapply hoare_bind; [apply hoare_log, holds_bookkeeping|]. intros ?.
  eapply hoare_seq; [apply hoare_state_getGroup|done|].
  intros cachedVideos. apply hoare_pure. intros _.
  eapply hoare_bind; [apply hoare_log, holds_bookkeeping|]. intros ?.
  eapply hoare_seq; [apply hoare_state_getGroup|done|].
  intros cachedLists. apply hoare_pure. intros _.
  eapply hoare_bind; [apply hoare_log, holds_bookkeeping|]. intros ?.
  eapply hoare_bind; [apply hoare_now, holds_bookkeeping|]. intros ?.
  eapply hoare_bind; [apply hoare_log, holds_bookkeeping|]. intros ?.
  eapply hoare_seq; [apply hoare_state_getGroup|done|].
  intros uploadUrls. apply hoare_pure. intros _.
  destruct (0 <? length uploadUrls)%nat; [apply hoare_log, holds_bookkeeping|by apply hoare_ret].
Qed.

(** ** The reconciler *)

Lemma ProcessVideoUpload_stores e t b c ev input :
  hoare (holds e t b c ev) (ProcessVideoUpload.handler input)
        (λ _, reconcile_outcome e t b c ev input) (λ _ _, False).
Proof.
  unfold ProcessVideoUpload.handler.
  apply hoare_try_catch
    with (E' := λ message w,
            (env w = e ∧ bucket w = b ∧ emitted w = ev) ∧ faulted e message).
  2:{ intros message. apply hoare_pure. intros Hf.
      eapply hoare_weaken
        with (Q' := λ _ w, env w = e ∧ bucket w = b ∧ emitted w = ev)
             (E' := λ _ _, False);
        [by apply hoare_log|done| |done].
      intros ? w (He & Hb & Hev). right. by exists message. }
  cbv zeta.
  eapply hoare_bind; [apply hoare_log, holds_bookkeeping|]. intros ?.
  eapply hoare_seq; [apply hoare_state_get| |].
  { by intros message w [(? & _ & ? & _ & ?) Hf]. }
  intros cached. apply hoare_pure. intros Hcached.
  eapply hoare_seq
    with (Q := λ r w,
            ∃ found,
              ((found = true → is_Some (b !! ProcessVideoUpload.s3Key input))
               ∧ ((∀ n, fails e OpS3Head n = None) →
                  found = bool_decide (is_Some (b !! ProcessVideoUpload.s3Key input))))
              ∧ holds e t b (after_probe c (ProcessVideoUpload.s3Key input) found) ev w)
         (E1 := λ message w,
            (env w = e ∧ bucket w = b ∧ emitted w = ev) ∧ faulted e message);
    [|done|].
  { unfold after_probe. rewrite <-Hcached. destruct cached as [v|].
    - eapply hoare_bind; [apply hoare_log, holds_bookkeeping|]. intros ?.
      apply hoare_ret. intros w Hw.
      exists (bool_decide (is_Some (b !! ProcessVideoUpload.s3Key input))).
      split; [|done]. split; [|done]. by intros ?%bool_decide_eq_true_1.
    - eapply hoare_seq; [apply hoare_verifyObjectExists|done|].
      intros found. apply hoare_pure. intros [Hsound Hcomplete].
      destruct found.
      + eapply hoare_seq; [apply hoare_state_set| |].
        { by intros message w [(? & _ & ? & _ & ?) Hf]. }
        intros ?. apply hoare_ret. intros w Hw. by exists true.
      + eapply hoare_bind with (Q := λ _, holds e t b c ev); [by apply hoare_ret|].
        intros ?. apply hoare_ret. intros w Hw. by exists false. }
  intros [exists_ wasCached]. cbv beta iota.
  apply hoare_exists. intros found. apply hoare_pure_l. intros [Hsound Hcomplete].
  eapply hoare_bind.
  { instantiate (1 := λ _, holds e t b (after_probe c (ProcessVideoUpload.s3Key input) found) ev).
    destruct (negb exists_); apply hoare_log, holds_bookkeeping. }
  intros ?.
  eapply hoare_seq; [apply hoare_createVideoMetadata| |].
  { by intros message w [(? & _ & ? & _ & ?) Hf]. }
  intros v. apply hoare_pure. intros (_ & Hgiven & Hgen).
  apply hoare_exists. intros current.
  eapply hoare_bind; [apply hoare_now, holds_bookkeeping|]. intros createdAt.
  eapply hoare_seq; [apply hoare_state_set| |].
  { by intros message w [(? & _ & ? & _ & ?) Hf]. }
  intros ?.
  eapply hoare_seq; [apply hoare_state_getGroup| |].
  { by intros message w [(? & _ & ? & _ & ?) Hf]. }
  intros allCachedLists. apply hoare_pure. intros _.
  eapply hoare_seq; [apply hoare_state_clear| |].
  { by intros message w [(? & _ & ? & _ & ?) Hf]. }
  intros ?.
  eapply hoare_weaken with (E' := λ _ _, False);
    [apply hoare_log, holds_bookkeeping|done| |done].
  intros ? w Hw. left.
  exists current, createdAt, (VideoMetadata.s3Url v), found.
  split; [done|]. split; [done|]. split; [by apply Hgiven|].
  split; [|done]. intros Hempty. apply Hgen. right. by rewrite Hempty.
Qed.

(** * What the services do *)

(** X5: the table is set up at most once per process.  After any call of
    [ensureVideoTable], also one whose statements failed, the flag is set
    and every later call returns at once without sending a statement. *)
Theorem ensureVideoTable_runs_once (w : World) :
  initialized (Db.ensureVideoTable w).2 = true
  ∧ Db.ensureVideoTable (Db.ensureVideoTable w).2 = (Ok tt, (Db.ensureVideoTable w).2).
Proof.
  assert (initialized (Db.ensureVideoTable w).2 = true) as Hi.
  { set (P := λ w' : World, initialized w' = true).
    assert (Bookkeeping any_call P) by (by split).
    assert (ignores_table P) by (by intros ??).
    unfold Db.ensureVideoTable. rewrite run_bind. cbn [get_world]. cbn beta iota.
    destruct (initialized w) eqn:Hi0; [done|].
    rewrite run_bind. cbn [modify]. cbn beta iota.
    apply (preserves_snd P); [keep|done]. }
  split; [done|]. by apply ensureVideoTable_initialized.
Qed.

(** X6: an upload that returns has stored the object, with its content
    type, under [videos/<id>.<extension>] and returns the public URL of that
    key; one that throws was made to fail, and may have stored the object
    already.  Table, cache and events are not touched. *)
Theorem uploadVideo_stores_object (buffer : list Byte.byte) (filename contentType : string)
        (w : World) :
  match S3Service.uploadVideo buffer filename contentType w with
  | (Ok (videoId, s3Key, publicUrl), w') =>
      s3Key = key_of videoId filename
      ∧ publicUrl = publicUrlBase (env w) +:+ "/" +:+ s3Key
      ∧ bucket w' = <[s3Key := (buffer, contentType)]> (bucket w)
      ∧ table w' = table w ∧ cache w' = cache w ∧ emitted w' = emitted w
  | (Throw message, w') =>
      faulted (env w) message
      ∧ (bucket w' = bucket w
         ∨ ∃ videoId,
             bucket w' = <[key_of videoId filename := (buffer, contentType)]> (bucket w))
      ∧ table w' = table w ∧ cache w' = cache w ∧ emitted w' = emitted w
  end.
Proof.
  pose proof (hoare_uploadVideo (env w) (table w) (bucket w) (cache w) (emitted w)
                buffer filename contentType w (holds_of w)) as H.
  destruct (S3Service.uploadVideo buffer filename contentType w)
    as [[[[videoId s3Key] publicUrl]|message] w']; cbn in H.
  - by destruct H as (-> & -> & (_ & ? & ? & ? & ?)).
  - destruct H as [[Hw|[videoId Hw]] Hf]; destruct Hw as (_ & ? & ? & ? & ?); eauto 10.
Qed.

(** X7: the existence probe never throws and changes no store; it answers
    [true] only for a key that is in the bucket, and when the HEAD request
    is not made to fail it answers exactly whether the key is there. *)
Theorem verifyObjectExists_answers (s3Key : string) (w : World) :
  ∃ found w',
    S3Service.verifyObjectExists s3Key w = (Ok found, w')
    ∧ same_stores w w'
    ∧ (found = true → is_Some (bucket w !! s3Key))
    ∧ (reliable OpS3Head w → found = bool_decide (is_Some (bucket w !! s3Key))).
Proof.
  pose proof (hoare_verifyObjectExists (env w) (table w) (bucket w) (cache w) (emitted w)
                s3Key w (holds_of w)) as H.
  destruct (S3Service.verifyObjectExists s3Key w) as [[found|message] w']; [|done].
  exists found, w'. destruct H as ((_ & ? & ? & ? & ?) & Hsound & Hcomplete).
  split; [done|]. split; [done|]. split; [done|]. exact Hcomplete.
Qed.

#[local] Instance newer_first_total : Total Db.newer_first.
Proof. intros a b. unfold Db.newer_first. lia. Qed.

#[local] Instance newer_first_transitive : Transitive Db.newer_first.
Proof. intros a b c. unfold Db.newer_first. lia. Qed.

(** The [n] newest rows of a table. *)
Lemma newest_rows (t : gmap string Row.t) (n : nat) :
  let rows := take n (merge_sort Db.newer_first (Db.rows_of t)) in
  length rows = Nat.min n (size t)
  ∧ StronglySorted Db.newer_first rows
  ∧ ∀ row, row ∈ rows → ∃ k, t !! k = Some row.
Proof.
  cbv zeta. split; [|split].
  - rewrite length_take, (Permutation_length (merge_sort_Permutation _ _)).
    unfold Db.rows_of. by rewrite length_fmap, length_map_to_list.
  - pose proof (StronglySorted_merge_sort Db.newer_first (Db.rows_of t)) as Hs.
    rewrite <-(take_drop n (merge_sort Db.newer_first (Db.rows_of t))) in Hs.
    by apply StronglySorted_app_1_l in Hs.
  - intros row Hrow. apply elem_of_take in Hrow as (i & Hi & _).
    apply list_elem_of_lookup_2 in Hi. rewrite merge_sort_Permutation in Hi.
    unfold Db.rows_of in Hi. apply list_elem_of_fmap in Hi as ([k r] & -> & Hkr).
    exists k. by apply elem_of_map_to_list in Hkr.
Qed.



(** X9: a record created under an id that had no row is read back with
    the same id, file name, content type, size, storage key and URL as the
    record that [createVideoMetadata] returned; only the creation time may
    differ, the stored one being the database's. *)
Theorem created_record_is_read_back (videoId filename contentType : string) (size : Z)
        (s3Key : string) (publicUrl : option string) (w : World)
        (v : VideoMetadata.t) (w1 : World) :
  VideoService.createVideoMetadata videoId filename contentType size s3Key publicUrl w
  = (Ok v, w1) →
  table w !! videoId = None →
  reliable OpQuery w1 →
  ∃ stored w2,
    VideoService.getVideoMetadata videoId w1 = (Ok (Some stored), w2)
    ∧ stored = VideoMetadata.mk videoId filename contentType size
                                (VideoMetadata.createdAt stored) s3Key
                                (VideoMetadata.s3Url v)
    ∧ v = VideoMetadata.mk videoId filename contentType size (VideoMetadata.createdAt v)
                           s3Key (VideoMetadata.s3Url v).
Proof.
  intros Hrun Hfresh Hq.
  pose proof (hoare_createVideoMetadata (env w) (table w) (bucket w) (cache w) (emitted w)
                videoId filename contentType size s3Key publicUrl w (holds_of w)) as H.
  rewrite Hrun in H. destruct H as ([current (_ & Ht & _)] & [createdAt Hv] & _).
  destruct (getVideoMetadata_reliable videoId w1 Hq) as (w2 & pre & Hget & _).
  rewrite Ht, lookup_insert_eq in Hget. unfold stored_row in Hget. rewrite Hfresh in Hget.
  eexists _, w2. split; [exact Hget|]. split; [done|].
  rewrite Hv at 1. by rewrite Hv.
Qed.

Lemma created_record_is_read_back_witness :
  ∃ v,
    upsert reserve (boot quiet) = (Ok v, (upsert reserve (boot quiet)).2)
    ∧ table (boot quiet) !! "v9" = None
    ∧ reliable OpQuery (upsert reserve (boot quiet)).2
    ∧ ∃ stored w2,
        VideoService.getVideoMetadata "v9" (upsert reserve (boot quiet)).2
        = (Ok (Some stored), w2)
        ∧ stored = VideoMetadata.mk "v9" "b.webm" "video/webm" 0
                                    (VideoMetadata.createdAt stored) "videos/v9.webm"
                                    (VideoMetadata.s3Url v)
        ∧ v = VideoMetadata.mk "v9" "b.webm" "video/webm" 0 (VideoMetadata.createdAt v)
                               "videos/v9.webm" (VideoMetadata.s3Url v).
Proof.
  assert (reliable OpQuery (upsert reserve (boot quiet)).2) as Hq
      by (intros n; vm_compute; reflexivity).
  eexists. split; [vm_compute; reflexivity|]. split; [vm_compute; reflexivity|].
  split; [exact Hq|].
  apply (created_record_is_read_back "v9" "b.webm" "video/webm" 0 "videos/v9.webm" None
                                     (boot quiet));
    [vm_compute; reflexivity|vm_compute; reflexivity|exact Hq].
Defined.


(** * What the endpoints do *)

Lemma nothing_fails_not_faulted e message : nothing_fails e → ¬ faulted e message.
Proof. intros Hn (op & n & Hf). by rewrite Hn in Hf. Qed.

Lemma nothing_fails_quiet : nothing_fails quiet.
Proof. by intros op n. Qed.

(** X11: a direct upload never throws, and ends in one of three ways.  It
    answers 400 for an unknown or empty payload, every store untouched; it
    answers 200 once the object, the row, the [videos] cache entry, the
    clearing of the cached lists and the [video-uploaded] event are all
    done; or it answers 500 with the message of an outside call that
    failed, no event emitted and no stored object lost. *)
Theorem UploadVideo_answers (req : UploadVideo.Request) (w : World) :
  ∃ resp w',
    UploadVideo.handler req w = (Ok resp, w')
    ∧ upload_outcome (env w) (table w) (bucket w) (cache w) (emitted w) req resp w'.
Proof.
  pose proof (UploadVideo_outcome (env w) (table w) (bucket w) (cache w) (emitted w)
                req w (holds_of w)) as H.
  destruct (UploadVideo.handler req w) as [[resp|message] w']; [|done]. by exists resp, w'.
Qed.

(** X12: when no outside call fails, a direct upload with a non-empty
    payload is answered 200, with everything that answer stands for. *)
Theorem upload_goes_through (req : UploadVideo.Request) (w : World) (buf : list Byte.byte) :
  nothing_fails (env w) → payload_of (env w) req = Some buf → buf ≠ [] →
  ∃ resp w',
    UploadVideo.handler req w = (Ok resp, w')
    ∧ upload_done (env w) (table w) (bucket w) (cache w) (emitted w) req resp w'.
Proof.
  intros Hn Hp Hbuf.
  pose proof (UploadVideo_outcome (env w) (table w) (bucket w) (cache w) (emitted w)
                req w (holds_of w)) as H.
  destruct (UploadVideo.handler req w) as [[resp|message] w']; [|done].
  exists resp, w'. split; [done|].
  destruct H as [(_ & [Hnone|Hempty] & _)|[Hdone|(message & ? & _ & Hf & _)]].
  - by rewrite Hp in Hnone.
  - rewrite Hp in Hempty. by injection Hempty.
  - done.
  - by destruct (nothing_fails_not_faulted _ _ Hn Hf).
Qed.

Lemma upload_goes_through_witness :
  nothing_fails (env (boot quiet))
  ∧ payload_of (env (boot quiet)) direct_upload = Some [Byte.x01; Byte.x02]
  ∧ [Byte.x01; Byte.x02] ≠ []
  ∧ ∃ resp w',
      UploadVideo.handler direct_upload (boot quiet) = (Ok resp, w')
      ∧ upload_done (env (boot quiet)) (table (boot quiet)) (bucket (boot quiet))
                    (cache (boot quiet)) (emitted (boot quiet)) direct_upload resp w'.
Proof.
  split; [exact nothing_fails_quiet|]. split; [reflexivity|]. split; [discriminate|].
  apply (upload_goes_through direct_upload (boot quiet) [Byte.x01; Byte.x02]);
    [exact nothing_fails_quiet|reflexivity|discriminate].
Defined.

(** X13: a video whose upload was answered 200 is found by GetVideo under
    the id of the answer, with the URL of the answer; when the id was new,
    the record also carries the key of the answer and the size of the
    payload, and the bucket holds the payload under that key. *)
Theorem uploaded_video_is_found (req : UploadVideo.Request) (w : World)
        (videoId s3Key publicUrl message : string) (w1 : World) :
  UploadVideo.handler req w
  = (Ok (mkResponse 200 (BUploaded videoId s3Key publicUrl message)), w1) →
  reliable OpQuery w1 →
  ∃ v w2,
    GetVideo.handler videoId w1 = (Ok (mkResponse 200 (BVideo v)), w2)
    ∧ VideoMetadata.s3Url v = publicUrl
    ∧ (table w !! videoId = None →
       VideoMetadata.id v = videoId ∧ VideoMetadata.s3Key v = s3Key
       ∧ ∃ buf, payload_of (env w) req = Some buf
                ∧ VideoMetadata.size v = Z.of_nat (length buf)
                ∧ bucket w1 !! s3Key = Some (buf, VideoMetadata.contentType v)).
Proof.
  intros Hrun Hq.
  pose proof (UploadVideo_outcome (env w) (table w) (bucket w) (cache w) (emitted w)
                req w (holds_of w)) as H.
  rewrite Hrun in H.
  destruct H as [(Hs & _)|[Hdone|(? & ? & Hr & _)]]; [done| |done].
  destruct Hdone as (buf & filename & contentType & id' & current & createdAt & Hdone).
  cbv zeta in Hdone. destruct Hdone as (Hp & Hbuf & Hresp & _ & Ht & Hb & _).
  injection Hresp as -> -> -> ->.
  destruct (GetVideo_answer id' w1 Hq) as (w2 & Hget & _).
  rewrite Ht, lookup_insert_eq in Hget.
  eexists _, w2. split; [exact Hget|]. unfold stored_row.
  destruct (table w !! id') as [old|] eqn:Hold; [by split|].
  split; [done|]. intros _. split; [done|]. split; [done|]. exists buf.
  split; [done|]. split; [done|]. by rewrite Hb, lookup_insert_eq.
Qed.

Lemma uploaded_video_is_found_witness :
  UploadVideo.handler direct_upload (boot quiet)
  = (Ok (mkResponse 200 (BUploaded "uuid-0" "videos/uuid-0.webm"
                                   "https://chitro.sevalla.storage/videos/uuid-0.webm"
                                   "Video uploaded successfully")), uploaded)
  ∧ reliable OpQuery uploaded
  ∧ ∃ v w2,
      GetVideo.handler "uuid-0" uploaded = (Ok (mkResponse 200 (BVideo v)), w2)
      ∧ VideoMetadata.s3Url v = "https://chitro.sevalla.storage/videos/uuid-0.webm"
      ∧ (table (boot quiet) !! "uuid-0" = None →
         VideoMetadata.id v = "uuid-0" ∧ VideoMetadata.s3Key v = "videos/uuid-0.webm"
         ∧ ∃ buf, payload_of (env (boot quiet)) direct_upload = Some buf
                  ∧ VideoMetadata.size v = Z.of_nat (length buf)
                  ∧ bucket uploaded !! "videos/uuid-0.webm"
                    = Some (buf, VideoMetadata.contentType v)).
Proof.
  assert (reliable OpQuery uploaded) as Hq by (intros n; vm_compute; reflexivity).
  split; [vm_compute; reflexivity|]. split; [exact Hq|].
  apply (uploaded_video_is_found direct_upload (boot quiet) "uuid-0" "videos/uuid-0.webm"
           "https://chitro.sevalla.storage/videos/uuid-0.webm"
           "Video uploaded successfully" uploaded);
    [vm_compute; reflexivity|exact Hq].
Defined.


(** A cache hit answers with the cached value and leaves the table. *)
Lemma ListVideos_hit (limitParam : option ListVideos.QueryParam) (w : World) (v : StateVal) :
  cache w !! "video-lists" ≫= (.!! list_key limitParam) = Some v →
  truthy v = true →
  fails (env w) OpStateGet (tick w) = None →
  ∃ w', ListVideos.handler limitParam w = (Ok (mkResponse 200 (BState v)), w')
        ∧ table w' = table w.
Proof.
  intros Hc Hv Hf. unfold ListVideos.handler. cbv zeta. fold (list_key limitParam).
  rewrite run_try_catch, run_log.
  rewrite run_bind. unfold State.get at 1, outside, record_call.
  rewrite run_bind. cbn [next_tick log modify snd]. cbn beta iota.
  rewrite run_bind. cbn [get_world]. cbn beta iota. cbn [env set_tick set_logs tick].
  rewrite Hf. rewrite run_bind. cbn [modify]. cbn beta iota.
  rewrite run_bind. cbn [get_world]. cbn beta iota.
  cbn [cache set_calls set_tick set_logs mret M_ret ret]. rewrite Hc, Hv.
  rewrite run_log. eexists. split; [reflexivity|]. by cbn.
Qed.

(** X15: a list request that finds a value under its key is answered 200
    with that value when the cache read goes through: the table is not
    read, the only outside call is the cache read, and no store changes. *)
Theorem cached_list_is_served (limitParam : option ListVideos.QueryParam) (w : World)
        (v : StateVal) :
  cache w !! "video-lists" ≫= (.!! list_key limitParam) = Some v →
  truthy v = true →
  fails (env w) OpStateGet (tick w) = None →
  ∃ w',
    ListVideos.handler limitParam w = (Ok (mkResponse 200 (BState v)), w')
    ∧ same_stores w w'
    ∧ calls w' = calls w ++ [(CStateGet "video-lists" (list_key limitParam), true)].
Proof.
  intros Hc Hv Hf. unfold ListVideos.handler. cbv zeta. fold (list_key limitParam).
  rewrite run_try_catch, run_log.
  rewrite run_bind. unfold State.get at 1, outside, record_call.
  rewrite run_bind. cbn [next_tick log modify snd]. cbn beta iota.
  rewrite run_bind. cbn [get_world]. cbn beta iota. cbn [env set_tick set_logs tick].
  rewrite Hf. rewrite run_bind. cbn [modify]. cbn beta iota.
  rewrite run_bind. cbn [get_world]. cbn beta iota.
  cbn [cache set_calls set_tick set_logs mret M_ret ret]. rewrite Hc, Hv.
  rewrite run_log. eexists. split; [reflexivity|]. by cbn.
Qed.

Lemma cached_list_is_served_witness :
  cache (ListVideos.handler None uploaded).2 !! "video-lists" ≫= (.!! list_key None)
  = Some (listing (table uploaded) 50)
  ∧ truthy (listing (table uploaded) 50) = true
  ∧ fails (env (ListVideos.handler None uploaded).2) OpStateGet
          (tick (ListVideos.handler None uploaded).2) = None
  ∧ ∃ w',
      ListVideos.handler None (ListVideos.handler None uploaded).2
      = (Ok (mkResponse 200 (BState (listing (table uploaded) 50))), w')
      ∧ same_stores (ListVideos.handler None uploaded).2 w'
      ∧ calls w'
        = calls (ListVideos.handler None uploaded).2
          ++ [(CStateGet "video-lists" (list_key None), true)].
Proof.
  assert (cache (ListVideos.handler None uploaded).2 !! "video-lists"
                ≫= (.!! list_key None)
          = Some (listing (table uploaded) 50)) as Hc by (vm_compute; reflexivity).
  assert (fails (env (ListVideos.handler None uploaded).2) OpStateGet
                (tick (ListVideos.handler None uploaded).2) = None) as Hf
      by (vm_compute; reflexivity).
  split; [exact Hc|]. split; [reflexivity|]. split; [exact Hf|].
  exact (cached_list_is_served None (ListVideos.handler None uploaded).2
                               (listing (table uploaded) 50) Hc eq_refl Hf).
Defined.

(** X16: a list answer 200 is repeated word for word by every later
    request with the same limit for as long as the [video-lists] group is
    as that answer left it, whatever has become of the table. *)
Theorem list_answer_is_repeated (limitParam : option ListVideos.QueryParam)
        (w : World) (resp : Response) (w1 w2 : World) :
  ListVideos.handler limitParam w = (Ok resp, w1) →
  status resp = 200%Z →
  cache w2 !! "video-lists" = cache w1 !! "video-lists" →
  fails (env w2) OpStateGet (tick w2) = None →
  ∃ w3, ListVideos.handler limitParam w2 = (Ok resp, w3) ∧ table w3 = table w2.
Proof.
  intros Hrun Hs Hgroup Hf.
  pose proof (ListVideos_outcome (env w) (table w) (bucket w) (cache w) (emitted w)
                limitParam w (holds_of w)) as H.
  rewrite Hrun in H.
  assert (∃ v, resp = mkResponse 200 (BState v) ∧ truthy v = true
               ∧ cache w1 !! "video-lists" ≫= (.!! list_key limitParam) = Some v)
    as (v & -> & Hv & Hc).
  { destruct H as [(v & Hc & Hv & -> & Hw)|[(n & _ & _ & _ & -> & Hw)|(? & -> & _)]];
      [| |done].
    - exists v. destruct Hw as (_ & _ & _ & -> & _). done.
    - eexists. split; [done|]. split; [done|]. destruct Hw as (_ & _ & _ & -> & _).
      unfold cache_set. rewrite lookup_insert_eq. cbn. by rewrite lookup_insert_eq. }
  rewrite <-Hgroup in Hc.
  destruct (ListVideos_hit limitParam w2 v Hc Hv Hf) as (w3 & Hrun2 & Ht).
  by exists w3.
Qed.

Lemma list_answer_is_repeated_witness :
  ∃ resp,
    ListVideos.handler None uploaded = (Ok resp, (ListVideos.handler None uploaded).2)
    ∧ status resp = 200%Z
    ∧ cache (ListVideos.handler None uploaded).2 !! "video-lists"
      = cache (ListVideos.handler None uploaded).2 !! "video-lists"
    ∧ fails (env (ListVideos.handler None uploaded).2) OpStateGet
            (tick (ListVideos.handler None uploaded).2)
      = None
    ∧ ∃ w3,
        ListVideos.handler None (ListVideos.handler None uploaded).2 = (Ok resp, w3)
        ∧ table w3 = table (ListVideos.handler None uploaded).2.
Proof.
  eexists. split; [vm_compute; reflexivity|]. split; [reflexivity|].
  split; [reflexivity|]. split; [vm_compute; reflexivity|].
  apply (list_answer_is_repeated None uploaded _ (ListVideos.handler None uploaded).2
                                 (ListVideos.handler None uploaded).2);
    [vm_compute; reflexivity|reflexivity|reflexivity|vm_compute; reflexivity].
Defined.






(** X20: whatever fails, a request for an upload URL stores no object and
    leaves the cached records and the cached lists in place: it does not
    invalidate a list that was cached before the row was reserved. *)
Theorem GetUploadUrl_keeps_cached_lists (req : GetUploadUrl.Request) (w : World) :
  bucket (GetUploadUrl.handler req w).2 = bucket w
  ∧ cache (GetUploadUrl.handler req w).2 !! "video-lists" = cache w !! "video-lists"
  ∧ cache (GetUploadUrl.handler req w).2 !! "videos" = cache w !! "videos".
Proof.
  pose proof (GetUploadUrl_outcome (env w) (table w) (bucket w) (cache w) (emitted w)
                req w (holds_of w)) as H.
  destruct (GetUploadUrl.handler req w) as [[resp|message] w1]; [|done]. cbn.
  destruct H as [Hdone|(message & _ & _ & _ & Hb & _ & Hc)].
  - destruct Hdone as (uploadUrl & videoId & current & createdAt & publicUrl & Hdone).
    cbv zeta in Hdone. destruct Hdone as (_ & _ & _ & _ & Hb & Hc & _).
    split; [done|]. rewrite Hc. unfold cache_set. by rewrite !lookup_insert_ne.
  - split; [done|]. by rewrite !Hc.
Qed.


(** X22: after a delete that was answered 200, GetVideo answers 404 for
    the id, while the object of the deleted row is still in the bucket:
    deleting a video never removes what was uploaded. *)
Theorem deleted_video_is_gone (videoId : string) (w : World) (resp : Response) (w1 : World) :
  DeleteVideo.handler videoId w = (Ok resp, w1) →
  status resp = 200%Z →
  reliable OpQuery w1 →
  (∃ w2, GetVideo.handler videoId w1
         = (Ok (mkResponse 404 (BError "Video not found")), w2))
  ∧ bucket w1 = bucket w.
Proof.
  intros Hrun Hs Hq.
  pose proof (DeleteVideo_outcome (env w) (table w) (bucket w) (cache w) (emitted w)
                videoId w (holds_of w)) as H.
  rewrite Hrun in H.
  destruct H as [(_ & -> & _)|[(row & _ & _ & Hw)|(? & -> & _)]]; [done| |done].
  destruct Hw as (_ & Ht & Hb & _). split; [|done].
  destruct (GetVideo_answer videoId w1 Hq) as (w2 & Hget & _).
  rewrite Ht, lookup_delete_eq in Hget. by exists w2.
Qed.

Lemma deleted_video_is_gone_witness :
  DeleteVideo.handler "uuid-0" uploaded
  = (Ok (mkResponse 200 (BDeleted "Video deleted successfully" "uuid-0")),
     (DeleteVideo.handler "uuid-0" uploaded).2)
  ∧ status (mkResponse 200 (BDeleted "Video deleted successfully" "uuid-0")) = 200%Z
  ∧ reliable OpQuery (DeleteVideo.handler "uuid-0" uploaded).2
  ∧ (∃ w2, GetVideo.handler "uuid-0" (DeleteVideo.handler "uuid-0" uploaded).2
           = (Ok (mkResponse 404 (BError "Video not found")), w2))
  ∧ bucket (DeleteVideo.handler "uuid-0" uploaded).2 = bucket uploaded.
Proof.
  assert (reliable OpQuery (DeleteVideo.handler "uuid-0" uploaded).2) as Hq
      by (intros n; vm_compute; reflexivity).
  split; [vm_compute; reflexivity|]. split; [reflexivity|]. split; [exact Hq|].
  apply (deleted_video_is_gone "uuid-0" uploaded
           (mkResponse 200 (BDeleted "Video deleted successfully" "uuid-0"))
           (DeleteVideo.handler "uuid-0" uploaded).2);
    [vm_compute; reflexivity|reflexivity|exact Hq].
Defined.

(** X23: a reconciler run returns, and either it met a failed outside
    call, or it has upserted the row, cached the record under [videos] with
    the URL of the event, and cleared the cached lists, having reused a
    cached verification or cached a probe that found the object.  Either
    way it has stored no object and emitted no event. *)
Theorem ProcessVideoUpload_answers (input : ProcessVideoUpload.Input) (w : World) :
  ∃ w',
    ProcessVideoUpload.handler input w = (Ok tt, w')
    ∧ reconcile_outcome (env w) (table w) (bucket w) (cache w) (emitted w) input w'.
Proof.
  pose proof (ProcessVideoUpload_stores (env w) (table w) (bucket w) (cache w) (emitted w)
                input w (holds_of w)) as H.
  destruct (ProcessVideoUpload.handler input w) as [[[]|message] w']; [|done].
  by exists w'.
Qed.

(** X24: when no outside call fails the reconciler does its work: the id
    of the event has a row afterwards (inserted from the event when it was
    missing), the record of the event is cached under [videos], and the
    cached lists are gone. *)
Theorem reconciler_repairs (input : ProcessVideoUpload.Input) (w : World) :
  nothing_fails (env w) →
  ∃ w',
    ProcessVideoUpload.handler input w = (Ok tt, w')
    ∧ reconciled (env w) (table w) (bucket w) (cache w) (emitted w) input w'.
Proof.
  intros Hn.
  pose proof (ProcessVideoUpload_stores (env w) (table w) (bucket w) (cache w) (emitted w)
                input w (holds_of w)) as H.
  destruct (ProcessVideoUpload.handler input w) as [[[]|message] w']; [|done].
  exists w'. split; [done|].
  destruct H as [Hdone|(message & Hf & _)]; [done|].
  by destruct (nothing_fails_not_faulted _ _ Hn Hf).
Qed.

Lemma reconciler_repairs_witness :
  nothing_fails (env (boot quiet))
  ∧ ∃ w',
      ProcessVideoUpload.handler completion (boot quiet) = (Ok tt, w')
      ∧ reconciled (env (boot quiet)) (table (boot quiet)) (bucket (boot quiet))
                   (cache (boot quiet)) (emitted (boot quiet)) completion w'.
Proof.
  split; [exact nothing_fails_quiet|].
  apply (reconciler_repairs completion (boot quiet)). exact nothing_fails_quiet.
Defined.

(** X25: the cleanup job never throws and changes no store: it reads the
    cache groups and removes nothing. *)
Theorem CacheCleanupJob_changes_nothing (w : World) :
  ∃ w', CacheCleanupJob.handler w = (Ok tt, w') ∧ same_stores w w'.
Proof.
  pose proof (CacheCleanupJob_outcome (env w) (table w) (bucket w) (cache w) (emitted w)
                w (holds_of w)) as H.
  destruct (CacheCleanupJob.handler w) as [[[]|message] w']; [|done].
  exists w'. split; [done|]. by destruct H as (_ & ? & ? & ? & ?).
Qed.

(** * The system as a whole *)

Lemma run_step_bucket (s : Step) (w : World) :
  match s with
  | DoUploadVideo _ => ∀ key, is_Some (bucket w !! key) → is_Some (bucket (run_step s w) !! key)
  | _ => bucket (run_step s w) = bucket w
  end.
Proof.
  destruct s as [videoId|limitParam|req|req|videoId|input|]; cbn [run_step].
  - pose proof (GetVideo_outcome (env w) (table w) (bucket w) (cache w) (emitted w)
                  videoId w (holds_of w)) as H.
    destruct (GetVideo.handler videoId w) as [[resp|message] w']; [|done].
    by destruct H as ((_ & _ & ? & _) & _).
  - pose proof (ListVideos_outcome (env w) (table w) (bucket w) (cache w) (emitted w)
                  limitParam w (holds_of w)) as H.
    destruct (ListVideos.handler limitParam w) as [[resp|message] w']; [|done].
    destruct H as [(? & _ & _ & _ & Hw)|[(? & _ & _ & _ & _ & Hw)|(? & _ & _ & Hw)]];
      by destruct Hw as (_ & _ & ? & _).
  - pose proof (UploadVideo_outcome (env w) (table w) (bucket w) (cache w) (emitted w)
                  req w (holds_of w)) as H.
    destruct (UploadVideo.handler req w) as [[resp|message] w']; [|done]. cbn.
    destruct H as [(_ & _ & Hw)|[Hdone|(? & ? & _ & _ & _ & _ & _ & _ & Hgrew)]].
    + destruct Hw as (_ & _ & -> & _). done.
    + destruct Hdone as (buf & filename & contentType & id' & current & createdAt & Hdone).
      cbv zeta in Hdone. destruct Hdone as (_ & _ & _ & Hw).
      by apply grew_insert in Hw as (_ & _ & Hgrew).
    + done.
  - pose proof (GetUploadUrl_outcome (env w) (table w) (bucket w) (cache w) (emitted w)
                  req w (holds_of w)) as H.
    destruct (GetUploadUrl.handler req w) as [[resp|message] w']; [|done]. cbn.
    destruct H as [Hdone|(? & _ & _ & _ & ? & _)]; [|done].
    destruct Hdone as (uploadUrl & videoId & current & createdAt & publicUrl & Hdone).
    cbv zeta in Hdone. by destruct Hdone as (_ & _ & _ & _ & ? & _).
  - pose proof (DeleteVideo_outcome (env w) (table w) (bucket w) (cache w) (emitted w)
                  videoId w (holds_of w)) as H.
    destruct (DeleteVideo.handler videoId w) as [[resp|message] w']; [|done]. cbn.
    destruct H as [(_ & _ & Hw)|[(row & _ & _ & Hw)|(? & _ & _ & _ & ? & _)]];
      [| |done]; by destruct Hw as (_ & _ & ? & _).
  - pose proof (ProcessVideoUpload_stores (env w) (table w) (bucket w) (cache w) (emitted w)
                  input w (holds_of w)) as H.
    destruct (ProcessVideoUpload.handler input w) as [[[]|message] w']; [|done]. cbn.
    destruct H as [Hdone|(? & _ & _ & ? & _)]; [|done].
    destruct Hdone as (current & createdAt & url & found & Hdone).
    cbv zeta in Hdone. by destruct Hdone as (_ & _ & _ & _ & _ & _ & ? & _).
  - pose proof (CacheCleanupJob_outcome (env w) (table w) (bucket w) (cache w) (emitted w)
                  w (holds_of w)) as H.
    destruct (CacheCleanupJob.handler w) as [[[]|message] w']; [|done].
    by destruct H as (_ & _ & ? & _).
Qed.

(** X26: no run of the system ever removes an object from the bucket:
    whichever handlers run, in whatever order and with whatever failures,
    a key that holds an object keeps holding one. *)
Theorem objects_are_never_removed (l : list Step) (w : World) (key : string) :
  is_Some (bucket w !! key) → is_Some (bucket (run_steps l w) !! key).
Proof.
  revert w. induction l as [|s l IH]; intros w Hkey; [done|].
  change (run_steps (s :: l) w) with (run_steps l (run_step s w)). apply IH.
  pose proof (run_step_bucket s w) as H. destruct s; try (by rewrite H). by apply H.
Qed.

Lemma objects_are_never_removed_witness :
  is_Some (bucket uploaded !! "videos/uuid-0.webm")
  ∧ is_Some (bucket (run_steps [DoDeleteVideo "uuid-0"; DoCacheCleanupJob] uploaded)
             !! "videos/uuid-0.webm").
Proof.
  assert (is_Some (bucket uploaded !! "videos/uuid-0.webm")) as Hkey
      by (vm_compute; eexists; reflexivity).
  split; [exact Hkey|].
  exact (objects_are_never_removed [DoDeleteVideo "uuid-0"; DoCacheCleanupJob] uploaded
                                   "videos/uuid-0.webm" Hkey).
Defined.

(** X27: only the direct upload writes to the bucket: a run without a
    direct upload leaves the bucket exactly as it was. *)
Theorem only_upload_writes_objects (l : list Step) (w : World) :
  Forall (λ s, match s with DoUploadVideo _ => False | _ => True end) l →
  bucket (run_steps l w) = bucket w.
Proof.
  revert w. induction l as [|s l IH]; intros w Hl; [done|].
  apply Forall_cons in Hl as [Hs Hl].
  change (run_steps (s :: l) w) with (run_steps l (run_step s w)). rewrite IH by done.
  pose proof (run_step_bucket s w) as H. by destruct s.
Qed.

Lemma only_upload_writes_objects_witness :
  Forall (λ s, match s with DoUploadVideo _ => False | _ => True end)
         [DoGetUploadUrl (GetUploadUrl.mkRequest "b.webm" "video/webm" None);
          DoProcessVideoUpload completion; DoDeleteVideo "v1"]
  ∧ bucket (run_steps [DoGetUploadUrl (GetUploadUrl.mkRequest "b.webm" "video/webm" None);
                       DoProcessVideoUpload completion; DoDeleteVideo "v1"] uploaded)
    = bucket uploaded.
Proof.
  assert (Forall (λ s, match s with DoUploadVideo _ => False | _ => True end)
                 [DoGetUploadUrl (GetUploadUrl.mkRequest "b.webm" "video/webm" None);
                  DoProcessVideoUpload completion; DoDeleteVideo "v1"]) as Hl
      by (repeat constructor).
  split; [exact Hl|].
  exact (only_upload_writes_objects _ uploaded Hl).
Defined.

(** X28: a handler run emits at most one event, and only of its own
    kind: [video-uploaded] by the direct upload, [video-upload-initiated]
    by the request for an upload URL, [video-deleted] by the delete.  The
    read endpoints, the reconciler and the cleanup job emit nothing, and
    events already emitted are never taken back. *)
Theorem events_by_step (s : Step) (w : World) :
  ∃ l, emitted (run_step s w) = emitted w ++ l
       ∧ match s with
         | DoUploadVideo _ => l = [] ∨ ∃ e, l = [e] ∧ topic e = "video-uploaded"
         | DoGetUploadUrl _ => l = [] ∨ ∃ e, l = [e] ∧ topic e = "video-upload-initiated"
         | DoDeleteVideo _ => l = [] ∨ ∃ e, l = [e] ∧ topic e = "video-deleted"
         | _ => l = []
         end.
Proof.
  assert (∀ ev : list Event, ev = ev ++ []) as Hnil by (intros; by rewrite app_nil_r).
  destruct s as [videoId|limitParam|req|req|videoId|input|]; cbn [run_step].
  - pose proof (GetVideo_outcome (env w) (table w) (bucket w) (cache w) (emitted w)
                  videoId w (holds_of w)) as H.
    destruct (GetVideo.handler videoId w) as [[resp|message] w']; [|done]. cbn [snd].
    exists []. destruct H as ((_ & _ & _ & _ & ->) & _). auto.
  - pose proof (ListVideos_outcome (env w) (table w) (bucket w) (cache w) (emitted w)
                  limitParam w (holds_of w)) as H.
    destruct (ListVideos.handler limitParam w) as [[resp|message] w']; [|done]. cbn [snd].
    exists [].
    destruct H as [(? & _ & _ & _ & Hw)|[(? & _ & _ & _ & _ & Hw)|(? & _ & _ & Hw)]];
      destruct Hw as (_ & _ & _ & _ & ->); auto.
  - pose proof (UploadVideo_outcome (env w) (table w) (bucket w) (cache w) (emitted w)
                  req w (holds_of w)) as H.
    destruct (UploadVideo.handler req w) as [[resp|message] w']; [|done]. cbn [snd].
    destruct H as [(_ & _ & Hw)|[Hdone|(? & ? & _ & _ & _ & _ & _ & -> & _)]].
    + exists []. destruct Hw as (_ & _ & _ & _ & ->). auto.
    + destruct Hdone as (buf & filename & contentType & id' & current & createdAt & Hdone).
      cbv zeta in Hdone. destruct Hdone as (_ & _ & _ & (_ & _ & _ & _ & ->)).
      eexists [_]. split; [done|]. right. by eexists.
    + exists []. auto.
  - pose proof (GetUploadUrl_outcome (env w) (table w) (bucket w) (cache w) (emitted w)
                  req w (holds_of w)) as H.
    destruct (GetUploadUrl.handler req w) as [[resp|message] w']; [|done]. cbn [snd].
    destruct H as [Hdone|(? & _ & _ & _ & _ & -> & _)]; [|exists []; auto].
    destruct Hdone as (uploadUrl & videoId & current & createdAt & publicUrl & Hdone).
    cbv zeta in Hdone. destruct Hdone as (_ & _ & (_ & _ & _ & _ & ->)).
    eexists [_]. split; [done|]. right. by eexists.
  - pose proof (DeleteVideo_outcome (env w) (table w) (bucket w) (cache w) (emitted w)
                  videoId w (holds_of w)) as H.
    destruct (DeleteVideo.handler videoId w) as [[resp|message] w']; [|done]. cbn [snd].
    destruct H as [(_ & _ & Hw)|[(row & _ & _ & Hw)|(? & _ & _ & _ & _ & ->)]].
    + exists []. destruct Hw as (_ & _ & _ & _ & ->). auto.
    + destruct Hw as (_ & _ & _ & _ & ->). eexists [_]. split; [done|]. right. by eexists.
    + exists []. auto.
  - pose proof (ProcessVideoUpload_stores (env w) (table w) (bucket w) (cache w) (emitted w)
                  input w (holds_of w)) as H.
    destruct (ProcessVideoUpload.handler input w) as [[[]|message] w']; [|done]. cbn [snd].
    exists []. destruct H as [Hdone|(? & _ & _ & _ & ->)]; [|auto].
    destruct Hdone as (current & createdAt & url & found & Hdone).
    cbv zeta in Hdone. destruct Hdone as (_ & _ & _ & _ & (_ & _ & _ & _ & ->)). auto.
  - pose proof (CacheCleanupJob_outcome (env w) (table w) (bucket w) (cache w) (emitted w)
                  w (holds_of w)) as H.
    destruct (CacheCleanupJob.handler w) as [[[]|message] w']; [|done]. cbn [snd].
    exists []. destruct H as (_ & _ & _ & _ & ->). auto.
Qed.

(** * The Express upload route *)

Lemma grew_cache_same e t b c ev w :
  holds e t b c ev w →
  env w = e ∧ cache w = c ∧ emitted w = ev
  ∧ ∀ key, is_Some (b !! key) → is_Some (bucket w !! key).
Proof. intros (? & _ & <- & ? & ?). done. Qed.

Lemma grew_cache_insert e t b c ev k v w :
  holds e t (<[k := v]> b) c ev w →
  env w = e ∧ cache w = c ∧ emitted w = ev
  ∧ ∀ key, is_Some (b !! key) → is_Some (bucket w !! key).
Proof.
  intros (? & _ & Hb & ? & ?). repeat (split; [done|]). intros key Hkey.
  rewrite Hb, lookup_insert_is_Some. destruct (decide (k = key)); auto.
Qed.

Lemma ExpressUpload_outcome e t b c ev req :
  hoare (holds e t b c ev) (ExpressUpload.handler req)
        (express_outcome e t b c ev req) (λ _ _, False).
Proof.
  unfold ExpressUpload.handler.
  apply hoare_try_catch
    with (E' := λ message w,
            (env w = e ∧ cache w = c ∧ emitted w = ev
             ∧ ∀ key, is_Some (b !! key) → is_Some (bucket w !! key))
            ∧ (faulted e message ∧ ExpressUpload.body req ≠ [])).
  2:{ intros message. apply hoare_pure. intros (Hf & Hbuf).
      eapply hoare_bind
        with (Q := λ _ w, env w = e ∧ cache w = c ∧ emitted w = ev
                          ∧ ∀ key, is_Some (b !! key) → is_Some (bucket w !! key));
        [by apply hoare_log|].
      intros ?. apply hoare_ret. intros w (He & Hc & Hev & Hgrew). right. right.
      by exists message. }
  eapply hoare_bind; [apply hoare_filename_or_default, holds_bookkeeping|].
  intros filename. cbv zeta.
  case_decide as Hlen.
  { apply hoare_ret. intros w Hw. left. split; [|done].
    by destruct (ExpressUpload.body req). }
  assert (ExpressUpload.body req ≠ []) as Hbuf by (by intros Hnil; rewrite Hnil in Hlen).
  eapply hoare_bind; [apply hoare_log, holds_bookkeeping|]. intros ?.
  eapply hoare_seq; [apply hoare_uploadVideo| |].
  { intros message w [[Hw|[videoId Hw]] Hf];
      (split; [solve [eapply grew_cache_same; eassumption
                     |eapply grew_cache_insert; eassumption]
              |eauto]). }
  intros [[videoId s3Key] publicUrl]. cbv beta iota zeta. cbn [fst snd].
  apply hoare_pure_l. intros ->. apply hoare_pure_l. intros ->.
  eapply hoare_seq; [apply hoare_createVideoMetadata| |].
  { intros message w [Hw Hf]. split; [by eapply grew_cache_insert|eauto]. }
  intros v. apply hoare_pure. intros (_ & Hurl & _).
  rewrite (Hurl _ eq_refl (public_url_not_empty _ _)). clear v Hurl.
  apply hoare_exists. intros current.
  eapply hoare_bind; [apply hoare_log, holds_bookkeeping|]. intros ?.
  apply hoare_ret. intros w Hw. right. left. by exists filename, videoId, current.
Qed.

(** X29: an upload through the Express route never throws; it answers
    400 for an empty body with nothing touched, 200 once the object and the
    row are stored, or 500 with the message of an outside call that failed.
    In no case does it write to the state store or emit an event, so
    cached lists stay as they were and no [video-uploaded] event follows. *)
Theorem ExpressUpload_answers (req : ExpressUpload.Request) (w : World) :
  ∃ resp w',
    ExpressUpload.handler req w = (Ok resp, w')
    ∧ express_outcome (env w) (table w) (bucket w) (cache w) (emitted w) req resp w'
    ∧ cache w' = cache w ∧ emitted w' = emitted w.
Proof.
  pose proof (ExpressUpload_outcome (env w) (table w) (bucket w) (cache w) (emitted w)
                req w (holds_of w)) as H.
  destruct (ExpressUpload.handler req w) as [[resp|message] w']; [|done].
  exists resp, w'. split; [done|]. split; [done|].
  destruct H as [(_ & _ & Hw)|[(filename & videoId & current & Hdone)
                              |(? & _ & _ & _ & _ & ? & ? & _)]]; [| |done].
  - by destruct Hw as (_ & _ & _ & ? & ?).
  - cbv zeta in Hdone. by destruct Hdone as (_ & _ & (_ & _ & _ & ? & ?)).
Qed.

(** * The reconciler and the existence probe *)

Section NoHead.
Context (l0 : list (Call * bool)).

Abbreviation quiet_head := (new_calls_all not_head l0).

Lemma no_head_sign cmd key expiresIn :
  preserves quiet_head (S3Service.sign cmd key expiresIn).
Proof.
  eapply preserves_outside; [apply new_calls_all_bookkeeping|done|]. intros n.
  apply preserves_bind; [apply preserves_get_world|]. intros w. apply preserves_ret.
Qed.

Lemma no_head_query q : preserves quiet_head (Db.query q).
Proof.
  pose proof (new_calls_all_bookkeeping not_head l0) as HP.
  intros w Hw. unfold Db.query. unfold_monad. cbn.
  assert (∀ ok, quiet_head (set_calls (calls w ++ [(CQuery q, ok)])
                                      (set_tick (S (tick w)) w))) as Hbk.
  { intros ok. apply (bk_calls not_head quiet_head HP (set_tick (S (tick w)) w) (CQuery q, ok));
      [done|by apply (bk_tick not_head)]. }
  destruct (fails (env w) OpQuery (tick w)); cbn; [exact (Hbk _)|].
  destruct (Db.run _ q (table w)) as [[rows t']|message]; cbn; exact (Hbk _).
Qed.

Lemma no_head_ensureVideoTable : preserves quiet_head Db.ensureVideoTable.
Proof.
  pose proof (new_calls_all_bookkeeping not_head l0) as HP.
  unfold Db.ensureVideoTable.
  apply preserves_bind; [apply preserves_get_world|]. intros w.
  destruct (initialized w); [apply preserves_ret|].
  apply preserves_bind; [by apply preserves_modify|]. intros _.
  apply preserves_bind; [apply no_head_query|]. intros _.
  apply preserves_bind.
  { apply preserves_try_catch.
    - apply preserves_bind; [apply no_head_query|]. intros _. apply preserves_ret.
    - intros message. by eapply preserves_log. }
  intros _.
  apply preserves_bind; [apply no_head_query|]. intros _. apply preserves_ret.
Qed.

Lemma no_head_generatePublicUrl key :
  preserves quiet_head (S3Service.generatePublicUrl key).
Proof.
  pose proof (new_calls_all_bookkeeping not_head l0) as HP.
  unfold S3Service.generatePublicUrl.
  apply preserves_bind; [apply preserves_get_world|]. intros w.
  destruct (usePresigned (env w)).
  - apply preserves_bind; [apply no_head_sign|]. intros url.
    apply preserves_bind; [by eapply preserves_log|]. intros _. apply preserves_ret.
  - apply preserves_bind; [by eapply preserves_log|]. intros _. apply preserves_ret.
Qed.

Lemma no_head_createVideoMetadata videoId filename contentType size s3Key publicUrl :
  preserves quiet_head
            (VideoService.createVideoMetadata videoId filename contentType size s3Key
                                              publicUrl).
Proof.
  pose proof (new_calls_all_bookkeeping not_head l0) as HP.
  unfold VideoService.createVideoMetadata.
  apply preserves_bind; [apply no_head_ensureVideoTable|]. intros _.
  apply preserves_bind.
  { destruct publicUrl as [u|]; [case_decide|];
      first [apply no_head_generatePublicUrl|apply preserves_ret]. }
  intros url.
  apply preserves_bind; [apply no_head_query|]. intros _.
  apply preserves_bind; [by eapply preserves_now|]. intros createdAt. apply preserves_ret.
Qed.

End NoHead.

Lemma hoare_frame {A} (P R : World → Prop) (m : M A) Q E :
  hoare P m Q E → preserves R m →
  hoare (λ w, P w ∧ R w) m (λ a w, Q a w ∧ R w) (λ _, R).
Proof.
  intros Hm HR w [Hw Hr]. specialize (Hm w Hw). specialize (HR w Hr).
  by destruct (m w) as [[a|message] w'].
Qed.

(** X30: with a verification cached for the key of the event, the
    reconciler sends no HEAD request to the blob store, whatever else
    happens in the run. *)
Theorem cached_verification_skips_probe (input : ProcessVideoUpload.Input) (w : World)
        (v : StateVal) :
  cache w !! "s3-verifications" ≫= (.!! ("s3-verify:" +:+ ProcessVideoUpload.s3Key input))
  = Some v →
  Forall not_head
         (drop (length (calls w)) (calls (ProcessVideoUpload.handler input w).2)).
Proof.
  intros Hcached.
  set (P := new_calls_all not_head (calls w)).
  pose proof (new_calls_all_bookkeeping not_head (calls w)) as HP.
  assert (ignores_cache P) as Hic by apply new_calls_all_cache.
  set (here := holds (env w) (table w) (bucket w) (cache w) (emitted w)).
  assert (hoare (λ w', here w' ∧ P w') (ProcessVideoUpload.handler input)
                (λ _, P) (λ _, P)) as Hrun.
  { unfold ProcessVideoUpload.handler. cbv zeta.
    apply hoare_try_catch with (E' := λ _, P); [|intros message; by eapply preserves_log].
    apply hoare_bind with (Q := λ _ w', here w' ∧ P w').
    { apply (hoare_frame here P _ (λ _, here) (λ _ _, False));
        [apply hoare_log, holds_bookkeeping|by eapply preserves_log]. }
    intros _.
    apply hoare_bind
      with (Q := λ r w', r = Some v ∧ P w').
    { eapply hoare_weaken;
        [eapply hoare_frame;
         [apply (hoare_state_get (env w) (table w) (bucket w) (cache w) (emitted w))
         |by eapply preserves_state_get]
        |done| |done].
      intros r w' [[_ ->] Hw']. by rewrite Hcached. }
    intros cached. apply hoare_pure_l. intros ->.
    apply preserves_bind.
    { apply preserves_bind; [by eapply preserves_log|]. intros _. apply preserves_ret. }
    intros [exists_ wasCached]. cbv beta iota.
    apply preserves_bind.
    { destruct (negb exists_); by eapply preserves_log. }
    intros _.
    apply preserves_bind; [apply no_head_createVideoMetadata|]. intros _.
    apply preserves_bind; [by eapply preserves_now|]. intros createdAt.
    apply preserves_bind; [by eapply preserves_state_set|]. intros _.
    apply preserves_bind; [by eapply preserves_state_getGroup|]. intros _.
    apply preserves_bind; [by eapply preserves_state_clear|]. intros _.
    by eapply preserves_log. }
  specialize (Hrun w (conj (holds_of w) (new_calls_all_start _ _ w eq_refl))).
  apply new_calls_all_drop.
  by destruct (ProcessVideoUpload.handler input w) as [[[]|message] w'].
Qed.

Lemma cached_verification_skips_probe_witness :
  cache (run_step (DoProcessVideoUpload completion) uploaded_v1)
        !! "s3-verifications" ≫= (.!! ("s3-verify:" +:+ ProcessVideoUpload.s3Key completion))
  = Some (VBool true)
  ∧ Forall not_head
           (drop (length (calls (run_step (DoProcessVideoUpload completion) uploaded_v1)))
                 (calls (ProcessVideoUpload.handler
                           completion
                           (run_step (DoProcessVideoUpload completion) uploaded_v1)).2)).
Proof.
  assert (cache (run_step (DoProcessVideoUpload completion) uploaded_v1)
                !! "s3-verifications"
                ≫= (.!! ("s3-verify:" +:+ ProcessVideoUpload.s3Key completion))
          = Some (VBool true)) as Hc by (vm_compute; reflexivity).
  split; [exact Hc|].
  exact (cached_verification_skips_probe
           completion (run_step (DoProcessVideoUpload completion) uploaded_v1) _ Hc).
Defined.
